(** * Meta Ads Compliance Scanner: a shallow embedding of [main.py]

    The scan pipeline of [main.py] is embedded as pure functions over an
    explicit store.  Python values are modelled as they are at run time:
    a [str] is a sequence of Unicode code points, the value decoded by
    [json.loads] is a tree of [None], booleans, integers, floats, strings,
    lists and insertion-ordered dictionaries.  The library routines that
    decide the behaviour of the pipeline ([re.search], [json.loads], [str],
    [ast.literal_eval]) are embedded next to the functions of [main.py]
    that call them. *)

From Stdlib Require Import String Ascii List NArith ZArith Bool Lia.
From Stdlib Require Import Sorted.
Import ListNotations.

Set Warnings "-register-all".

(** ** Python strings *)

Module Py.

Definition codepoint := N.

(** A Python [str]: a finite sequence of code points. *)
Definition pystr := list codepoint.

Definition chr (a : ascii) : codepoint := N_of_ascii a.

(** [lit "abc"] is the Python literal ['abc'] (ASCII text only). *)
Definition lit (s : string) : pystr := map chr (list_ascii_of_string s).

(** The line feed. *)
Definition nl : codepoint := 10%N.

Fixpoint eqb (s t : pystr) : bool :=
  match s, t with
  | [], [] => true
  | x :: s', y :: t' => N.eqb x y && eqb s' t'
  | _, _ => false
  end.

End Py.
Import Py.

(** ** [re.search] for the patterns of [analyze_with_ai]

    A backtracking matcher for the fragment of Python's regular expressions
    that [main.py] uses: literal characters and [.*] / [.*?] under
    [re.DOTALL] (the dot matches every character, newlines included),
    possibly inside a capturing group. *)

Module Re.

Inductive item : Type :=
| Chr (c : codepoint)
| DotStar (lazy capture : bool).

Definition pattern := list item.

(** [.*?] followed by the continuation [k]: the shortest repetition
    after which [k] succeeds. *)
Fixpoint star_lazy {A} (k : pystr -> option A) (s : pystr)
  : option (pystr * A) :=
  match k s with
  | Some a => Some ([], a)
  | None =>
      match s with
      | [] => None
      | x :: s' =>
          match star_lazy k s' with
          | Some (t, a) => Some (x :: t, a)
          | None => None
          end
      end
  end.

(** [.*] followed by [k]: the longest repetition after which [k]
    succeeds. *)
Fixpoint star_greedy {A} (k : pystr -> option A) (s : pystr)
  : option (pystr * A) :=
  match s with
  | [] =>
      match k [] with
      | Some a => Some ([], a)
      | None => None
      end
  | x :: s' =>
      match star_greedy k s' with
      | Some (t, a) => Some (x :: t, a)
      | None =>
          match k s with
          | Some a => Some ([], a)
          | None => None
          end
      end
  end.

(** Match [p] at the head of the text: the text matched and the
    contents of the capturing groups, in order. *)
Fixpoint match_here (p : pattern) : pystr -> option (pystr * list pystr) :=
  match p with
  | [] => fun _ => Some ([], [])
  | Chr c :: p' =>
      fun s =>
        match s with
        | x :: s' =>
            if N.eqb x c then
              match match_here p' s' with
              | Some (m, gs) => Some (x :: m, gs)
              | None => None
              end
            else None
        | [] => None
        end
  | DotStar lazy capture :: p' =>
      fun s =>
        match (if lazy then star_lazy (match_here p') s
               else star_greedy (match_here p') s) with
        | Some (t, (m, gs)) =>
            Some (t ++ m, if capture then t :: gs else gs)
        | None => None
        end
  end.

Record match_object : Type := {
  m_start : nat;
  group0 : pystr;
  groups : list pystr
}.

(** [m.group(n)] for [n >= 1]. *)
Definition group (n : nat) (m : match_object) : pystr :=
  nth (n - 1) (groups m) [].

Fixpoint search_from (p : pattern) (pos : nat) (s : pystr)
  : option match_object :=
  match match_here p s with
  | Some (m, gs) => Some {| m_start := pos; group0 := m; groups := gs |}
  | None =>
      match s with
      | [] => None
      | _ :: s' => search_from p (S pos) s'
      end
  end.

(** [re.search(p, s, re.DOTALL)]: the leftmost position at which the
    pattern matches. *)
Definition search (p : pattern) (s : pystr) : option match_object :=
  search_from p 0 s.

Definition chars (s : pystr) : pattern := map Chr s.

End Re.

(** ** Candidate selection in [analyze_with_ai] *)

Definition fence_open : pystr := lit "```json" ++ [nl].
Definition fence_close : pystr := nl :: lit "```".
Definition lbrace : codepoint := chr "{".
Definition rbrace : codepoint := chr "}".

(** [r'```json\n(.*?)\n```'] *)
Definition fence_re : Re.pattern :=
  Re.chars fence_open ++ [Re.DotStar true true] ++ Re.chars fence_close.

(** [r'\{.*\}'] *)
Definition brace_re : Re.pattern :=
  [Re.Chr lbrace; Re.DotStar false false; Re.Chr rbrace].

(** The value of [json_str] once lines 238-247 have run. *)
Definition json_str (response_text : pystr) : pystr :=
  match Re.search fence_re response_text with
  | Some json_match => Re.group 1 json_match
  | None =>
      match Re.search brace_re response_text with
      | Some json_match => Re.group0 json_match
      | None => response_text
      end
  end.

(** ** Python values and exceptions *)

Module Obj.

(** A Python [float].  A finite float is kept as the decimal literal it
    was read from, [(-1)^negative * digits * 10^exp10]: it stands for
    the binary64 value nearest to that decimal. *)
Inductive pyfloat : Type :=
| Nan
| Inf (negative : bool)
| Dec (negative : bool) (digits : N) (exp10 : Z).

(** The values [json.loads] builds.  A [dict] keeps its keys in
    insertion order. *)
Inductive obj : Type :=
| PyNone
| PyBool (b : bool)
| PyInt (n : Z)
| PyFloat (f : pyfloat)
| PyStr (s : pystr)
| PyList (l : list obj)
| PyDict (d : list (pystr * obj)).

Fixpoint dict_get (d : list (pystr * obj)) (k : pystr) : option obj :=
  match d with
  | [] => None
  | (k', v) :: d' => if Py.eqb k' k then Some v else dict_get d' k
  end.

(** [d[k] = v]: an existing key keeps its position. *)
Fixpoint dict_set (d : list (pystr * obj)) (k : pystr) (v : obj)
  : list (pystr * obj) :=
  match d with
  | [] => [(k, v)]
  | (k', v') :: d' =>
      if Py.eqb k' k then (k', v) :: d' else (k', v') :: dict_set d' k v
  end.

(** The largest decimal that still rounds to a finite binary64 lies
    below [2^1024 - 2^970]; from there on [float] gives infinity. *)
Definition float_overflows (digits : N) (exp10 : Z) : bool :=
  let bound := (2 ^ 1024 - 2 ^ 970)%Z in
  if (0 <=? exp10)%Z
  then (bound <=? Z.of_N digits * 10 ^ exp10)%Z
  else (bound * 10 ^ (- exp10) <=? Z.of_N digits)%Z.

Definition float_of_decimal (negative : bool) (digits : N) (exp10 : Z)
  : pyfloat :=
  if float_overflows digits exp10 then Inf negative
  else Dec negative digits exp10.

Inductive exn_type : Type :=
| JSONDecodeError
| KeyError
| TypeError
| ValueError
| ValidationError
| HTTPException (status_code : Z)
| RemoteError.

(** An exception: its class and the text [str(e)] gives. *)
Record exn : Type := { exn_class : exn_type; exn_str : pystr }.

End Obj.
Import Obj.

(** ** Decimal and hexadecimal numerals *)

Module Num.

Definition is_digit (c : codepoint) : bool :=
  (48 <=? c)%N && (c <=? 57)%N.

(** The value of a run of decimal digits, most significant first. *)
Definition of_digits (ds : pystr) : N :=
  fold_left (fun acc d => (acc * 10 + (d - 48))%N) ds 0%N.

Fixpoint to_digits_aux (fuel : nat) (n : N) (acc : pystr) : pystr :=
  match fuel with
  | O => acc
  | S fuel' =>
      if (n <? 10)%N then (48 + n)%N :: acc
      else to_digits_aux fuel' (n / 10)%N ((48 + n mod 10)%N :: acc)
  end.

(** [str(n)] for a natural number [n]. *)
Definition to_digits (n : N) : pystr :=
  to_digits_aux (S (N.to_nat (N.log2 n))) n [].

(** [str(n)] for an [int]. *)
Definition str_of_Z (n : Z) : pystr :=
  if (n <? 0)%Z then chr "-" :: to_digits (Z.abs_N n)
  else to_digits (Z.abs_N n).

Definition hexval (c : codepoint) : option N :=
  if (48 <=? c)%N && (c <=? 57)%N then Some (c - 48)%N
  else if (97 <=? c)%N && (c <=? 102)%N then Some (c - 87)%N
  else if (65 <=? c)%N && (c <=? 70)%N then Some (c - 55)%N
  else None.

Definition hex4 (a b c d : codepoint) : option N :=
  match hexval a, hexval b, hexval c, hexval d with
  | Some x, Some y, Some z, Some w =>
      Some (((x * 16 + y) * 16 + z) * 16 + w)%N
  | _, _, _, _ => None
  end.

Definition hexdigit (n : N) : codepoint :=
  if (n <? 10)%N then (48 + n)%N else (87 + n)%N.

(** [width] lower-case hexadecimal digits of [n], as ['%0*x']. *)
Fixpoint to_hex (width : nat) (n : N) : pystr :=
  match width with
  | O => []
  | S w => to_hex w (n / 16)%N ++ [hexdigit (n mod 16)%N]
  end.

(** The longest prefix of digits, and what follows it. *)
Fixpoint span_digits (s : pystr) : pystr * pystr :=
  match s with
  | c :: s' =>
      if is_digit c then
        let (ds, rest) := span_digits s' in (c :: ds, rest)
      else ([], s)
  | [] => ([], [])
  end.

End Num.

(** ** [json.loads]

    The decoder of CPython's [json] package with its default settings
    ([strict=True], no hooks): the scanner [scan_once] with the helpers
    for strings, numbers, arrays and objects, and [JSONDecoder.decode]
    above it.  The recursion runs on fuel; [loads] supplies two units of
    fuel for each character of the document plus one, which is enough
    for every document (proved below as [loads_fuel]).  CPython's
    resource limits (recursion depth, the digit limit of [int]) are not
    part of the embedding. *)

Module Json.

Inductive res (A : Type) : Type :=
| Ok (a : A) (rest : pystr)
| Err (msg : pystr) (rest : pystr)
| OutOfFuel.
Arguments Ok {A} a rest.
Arguments Err {A} msg rest.
Arguments OutOfFuel {A}.

Definition is_ws (c : codepoint) : bool :=
  N.eqb c 32 || N.eqb c 9 || N.eqb c 10 || N.eqb c 13.

Fixpoint skip_ws (s : pystr) : pystr :=
  match s with
  | c :: s' => if is_ws c then skip_ws s' else s
  | [] => []
  end.

Definition quote : codepoint := 34%N.
Definition backslash : codepoint := 92%N.

(** The table [BACKSLASH] of one-character escapes. *)
Definition simple_escape (c : codepoint) : option codepoint :=
  if N.eqb c 34 then Some 34%N            (* quote *)
  else if N.eqb c 92 then Some 92%N       (* backslash *)
  else if N.eqb c 47 then Some 47%N       (* slash *)
  else if N.eqb c 98 then Some 8%N        (* b: backspace *)
  else if N.eqb c 102 then Some 12%N      (* f: form feed *)
  else if N.eqb c 110 then Some 10%N      (* n: line feed *)
  else if N.eqb c 114 then Some 13%N      (* r: carriage return *)
  else if N.eqb c 116 then Some 9%N       (* t: tab *)
  else None.

Definition is_high_surrogate (u : N) : bool :=
  (55296 <=? u)%N && (u <=? 56319)%N.
Definition is_low_surrogate (u : N) : bool :=
  (56320 <=? u)%N && (u <=? 57343)%N.
Definition join_surrogates (hi lo : N) : N :=
  (65536 + N.lor (N.shiftl (hi - 55296) 10) (lo - 56320))%N.

Definition unterminated : pystr := lit "Unterminated string starting at".
Definition invalid_u : pystr := lit "Invalid \uXXXX escape".

(** [scanstring]: [s] is the text after the opening quote, [begin] the
    text from the opening quote on (where an unterminated string is
    reported). *)
Fixpoint scanstring (begin s : pystr) : res pystr :=
  match s with
  | [] => Err unterminated begin
  | c :: s1 =>
      if N.eqb c quote then Ok [] s1
      else if N.eqb c backslash then
        match s1 with
        | [] => Err unterminated begin
        | e :: s2 =>
            if N.eqb e 117 (* u *) then
              match s2 with
              | h1 :: h2 :: h3 :: h4 :: ((_ :: _) as s6) =>
                  match Num.hex4 h1 h2 h3 h4 with
                  | None => Err invalid_u s1
                  | Some uni =>
                      let plain :=
                        match scanstring begin s6 with
                        | Ok t rest => Ok (uni :: t) rest
                        | Err msg at_ => Err msg at_
                        | OutOfFuel => OutOfFuel
                        end in
                      if is_high_surrogate uni then
                        match s6 with
                        | b :: u :: g1 :: g2 :: g3 :: g4 :: ((_ :: _) as s12) =>
                            if N.eqb b backslash && N.eqb u 117 then
                              match Num.hex4 g1 g2 g3 g4 with
                              | None => Err invalid_u (u :: g1 :: g2 :: g3 :: g4 :: s12)
                              | Some uni2 =>
                                  if is_low_surrogate uni2 then
                                    match scanstring begin s12 with
                                    | Ok t rest =>
                                        Ok (join_surrogates uni uni2 :: t) rest
                                    | Err msg at_ => Err msg at_
                                    | OutOfFuel => OutOfFuel
                                    end
                                  else plain
                              end
                            else plain
                        | _ => plain
                        end
                      else plain
                  end
              | _ => Err invalid_u s1
              end
            else
              match simple_escape e with
              | Some x =>
                  match scanstring begin s2 with
                  | Ok t rest => Ok (x :: t) rest
                  | Err msg at_ => Err msg at_
                  | OutOfFuel => OutOfFuel
                  end
              | None => Err (lit "Invalid \escape") s
              end
        end
      else if (c <? 32)%N then Err (lit "Invalid control character at") s
      else
        match scanstring begin s1 with
        | Ok t rest => Ok (c :: t) rest
        | Err msg at_ => Err msg at_
        | OutOfFuel => OutOfFuel
        end
  end.

(** [_match_number]: a sign, the integer part, then an optional
    fraction and an optional exponent; [None] when no number starts
    here. *)
Definition number_sign (s : pystr) : bool * pystr :=
  match s with
  | c :: s' => if N.eqb c 45 then (true, s') else (false, s)
  | [] => (false, s)
  end.

(** A single [0], or a digit from 1 to 9 and the digits after it. *)
Definition number_integer (s : pystr) : option (pystr * pystr) :=
  match s with
  | c :: s' =>
      if N.eqb c 48 then Some ([c], s')
      else if Num.is_digit c then
        let (ds, rest) := Num.span_digits s' in Some (c :: ds, rest)
      else None
  | [] => None
  end.

(** A point followed by at least one digit. *)
Definition number_fraction (s : pystr) : option pystr * pystr :=
  match s with
  | dot :: d :: s' =>
      if N.eqb dot 46 && Num.is_digit d then
        let (ds, rest) := Num.span_digits s' in (Some (d :: ds), rest)
      else (None, s)
  | _ => (None, s)
  end.

Definition exponent_sign (s : pystr) : bool * pystr :=
  match s with
  | sg :: t =>
      if N.eqb sg 45 then (true, t)
      else if N.eqb sg 43 then (false, t)
      else (false, s)
  | [] => (false, s)
  end.

(** [e] or [E], an optional sign and at least one digit; without a
    digit the scanner backs up to before the [e]. *)
Definition number_exponent (s : pystr) : option Z * pystr :=
  match s with
  | e :: s' =>
      if N.eqb e 101 || N.eqb e 69 then
        let (exp_negative, s'') := exponent_sign s' in
        match Num.span_digits s'' with
        | ([], _) => (None, s)
        | (ds, rest) =>
            (Some (if exp_negative
                   then (- Z.of_N (Num.of_digits ds))%Z
                   else Z.of_N (Num.of_digits ds)), rest)
        end
      else (None, s)
  | [] => (None, s)
  end.

(** [int(integer)] without fraction and exponent, otherwise
    [float(integer + frac + exp)]. *)
Definition number_value (negative : bool) (int_digits : pystr)
    (frac : option pystr) (exp : option Z) : obj :=
  match frac, exp with
  | None, None =>
      let n := Z.of_N (Num.of_digits int_digits) in
      PyInt (if negative then (- n)%Z else n)
  | _, _ =>
      let fd := match frac with Some ds => ds | None => [] end in
      let e := match exp with Some e => e | None => 0%Z end in
      PyFloat (float_of_decimal negative
                 (Num.of_digits (int_digits ++ fd))
                 (e - Z.of_nat (length fd))%Z)
  end.

Definition match_number (s : pystr) : option (obj * pystr) :=
  let (negative, s1) := number_sign s in
  match number_integer s1 with
  | None => None
  | Some (int_digits, s2) =>
      let (frac, s3) := number_fraction s2 in
      let (exp, s4) := number_exponent s3 in
      Some (number_value negative int_digits frac exp, s4)
  end.

(** [s.startswith(w)], with the text after [w]. *)
Fixpoint strip_prefix (w s : pystr) : option pystr :=
  match w, s with
  | [], _ => Some s
  | x :: w', y :: s' => if N.eqb x y then strip_prefix w' s' else None
  | _ :: _, [] => None
  end.

Definition expecting_value : pystr := lit "Expecting value".
Definition expecting_name : pystr :=
  lit "Expecting property name enclosed in double quotes".
Definition expecting_colon : pystr := lit "Expecting ':' delimiter".
Definition expecting_comma : pystr := lit "Expecting ',' delimiter".

Definition keyword (w : string) (v : obj) (s : pystr)
  : option (obj * pystr) :=
  match strip_prefix (lit w) s with
  | Some rest => Some (v, rest)
  | None => None
  end.

(** The constants a value may start with, tried before the number. *)
Definition constant (s : pystr) : option (obj * pystr) :=
  match s with
  | c :: _ =>
      if N.eqb c 110 then keyword "null" PyNone s
      else if N.eqb c 116 then keyword "true" (PyBool true) s
      else if N.eqb c 102 then keyword "false" (PyBool false) s
      else if N.eqb c 78 then keyword "NaN" (PyFloat Nan) s
      else if N.eqb c 73 then keyword "Infinity" (PyFloat (Inf false)) s
      else if N.eqb c 45 then keyword "-Infinity" (PyFloat (Inf true)) s
      else None
  | [] => None
  end.

Fixpoint scan_once (fuel : nat) (s : pystr) : res obj :=
  match fuel with
  | O => OutOfFuel
  | S fuel' =>
      match s with
      | [] => Err expecting_value s
      | c :: s' =>
          if N.eqb c quote then
            match scanstring s s' with
            | Ok t rest => Ok (PyStr t) rest
            | Err msg at_ => Err msg at_
            | OutOfFuel => OutOfFuel
            end
          else if N.eqb c 123 (* { *) then
            match skip_ws s' with
            | c1 :: s1 =>
                if N.eqb c1 125 then Ok (PyDict []) s1
                else parse_object fuel' (c1 :: s1) []
            | [] => parse_object fuel' [] []
            end
          else if N.eqb c 91 (* [ *) then
            match skip_ws s' with
            | c1 :: s1 =>
                if N.eqb c1 93 then Ok (PyList []) s1
                else parse_array fuel' (c1 :: s1) []
            | [] => parse_array fuel' [] []
            end
          else
            match constant s with
            | Some (v, rest) => Ok v rest
            | None =>
                match match_number s with
                | Some (v, rest) => Ok v rest
                | None => Err expecting_value s
                end
            end
      end
  end

(** The loop of [JSONObject], at the start of a key. *)
with parse_object (fuel : nat) (s : pystr) (pairs : list (pystr * obj))
  : res obj :=
  match fuel with
  | O => OutOfFuel
  | S fuel' =>
      match s with
      | c :: s' =>
          if N.eqb c quote then
            match scanstring s s' with
            | Ok key rest =>
                match skip_ws rest with
                | colon :: rest1 =>
                    if N.eqb colon 58 then
                      match scan_once fuel' (skip_ws rest1) with
                      | Ok value rest2 =>
                          let pairs' := dict_set pairs key value in
                          match skip_ws rest2 with
                          | d :: rest3 =>
                              if N.eqb d 125 then Ok (PyDict pairs') rest3
                              else if N.eqb d 44 then
                                parse_object fuel' (skip_ws rest3) pairs'
                              else Err expecting_comma (d :: rest3)
                          | [] => Err expecting_comma []
                          end
                      | Err msg at_ => Err msg at_
                      | OutOfFuel => OutOfFuel
                      end
                    else Err expecting_colon (colon :: rest1)
                | [] => Err expecting_colon []
                end
            | Err msg at_ => Err msg at_
            | OutOfFuel => OutOfFuel
            end
          else Err expecting_name s
      | [] => Err expecting_name s
      end
  end

(** The loop of [JSONArray], at the start of an element. *)
with parse_array (fuel : nat) (s : pystr) (values : list obj) : res obj :=
  match fuel with
  | O => OutOfFuel
  | S fuel' =>
      match scan_once fuel' s with
      | Ok value rest =>
          let values' := values ++ [value] in
          match skip_ws rest with
          | d :: rest1 =>
              if N.eqb d 93 then Ok (PyList values') rest1
              else if N.eqb d 44 then
                parse_array fuel' (skip_ws rest1) values'
              else Err expecting_comma (d :: rest1)
          | [] => Err expecting_comma []
          end
      | Err msg at_ => Err msg at_
      | OutOfFuel => OutOfFuel
      end
  end.

(** [JSONDecodeError.__init__]: the message with the line, column and
    offset of the position [pos] in [doc]. *)
Definition count_nl (s : pystr) : nat :=
  length (filter (N.eqb nl) s).

(** Characters after the last newline of [s]. *)
Fixpoint after_last_nl (s : pystr) (n : nat) : nat :=
  match s with
  | [] => n
  | c :: s' => after_last_nl s' (if N.eqb c nl then 0 else S n)
  end.

Definition errmsg (msg doc : pystr) (pos : nat) : pystr :=
  let before := firstn pos doc in
  msg ++ lit ": line " ++ Num.to_digits (N.of_nat (S (count_nl before)))
      ++ lit " column " ++ Num.to_digits (N.of_nat (S (after_last_nl before 0)))
      ++ lit " (char " ++ Num.to_digits (N.of_nat pos) ++ lit ")".

Definition decode_error (msg doc rest : pystr) : exn :=
  {| exn_class := JSONDecodeError;
     exn_str := errmsg msg doc (length doc - length rest) |}.

Definition loads_with (fuel : nat) (s : pystr) : option (exn + obj) :=
  match s with
  | 65279%N :: _ =>
      Some (inl (decode_error
                   (lit "Unexpected UTF-8 BOM (decode using utf-8-sig)") s s))
  | _ =>
      match scan_once fuel (skip_ws s) with
      | Ok v rest =>
          match skip_ws rest with
          | [] => Some (inr v)
          | rest' => Some (inl (decode_error (lit "Extra data") s rest'))
          end
      | Err msg at_ => Some (inl (decode_error msg s at_))
      | OutOfFuel => None
      end
  end.

Definition fuel_for (s : pystr) : nat := S (2 * length s).

(** [json.loads(s)]: the decoded value, or the [JSONDecodeError]
    raised. *)
Definition loads (s : pystr) : exn + obj :=
  match loads_with (fuel_for s) s with
  | Some r => r
  | None => inl {| exn_class := JSONDecodeError; exn_str := [] |}
  end.

End Json.

(** ** [repr] and [str]

    [isprintable] stands for [Py_UNICODE_ISPRINTABLE], the table of the
    Unicode database that [repr] consults for the characters above
    U+007F. *)

Module Repr.
Section WithTable.

Variable isprintable : codepoint -> bool.

(** [unicode_repr] picks double quotes only for a string that holds a
single quote and no double quote. *)
Definition repr_quote (s : pystr) : codepoint :=
if existsb (N.eqb 39) s && negb (existsb (N.eqb 34) s) then 34%N
else 39%N.

Definition repr_char (q c : codepoint) : pystr :=
if N.eqb c q || N.eqb c 92 then [92%N; c]
else if N.eqb c 9 then lit "\t"
else if N.eqb c 10 then lit "\n"
else if N.eqb c 13 then lit "\r"
else if (c <? 32)%N || N.eqb c 127 then lit "\x" ++ Num.to_hex 2 c
else if (c <? 127)%N then [c]
else if isprintable c then [c]
else if (c <=? 255)%N then lit "\x" ++ Num.to_hex 2 c
else if (c <=? 65535)%N then lit "\u" ++ Num.to_hex 4 c
else lit "\U" ++ Num.to_hex 8 c.

Definition repr_str (s : pystr) : pystr :=
let q := repr_quote s in
q :: flat_map (repr_char q) s ++ [q].

(** [repr] of a float.  For a finite float this writes a literal of
the decimal kept in [Dec], which reads back as the same float;
CPython writes the shortest such literal. *)
Definition repr_float (f : pyfloat) : pystr :=
match f with
| Nan => lit "nan"
| Inf false => lit "inf"
| Inf true => lit "-inf"
| Dec negative digits exp10 =>
  (if negative then lit "-" else []) ++ Num.to_digits digits
    ++ lit "e" ++ Num.str_of_Z exp10
end.

Fixpoint join (sep : pystr) (l : list pystr) : pystr :=
match l with
| [] => []
| [x] => x
| x :: l' => x ++ sep ++ join sep l'
end.

Fixpoint repr (v : obj) : pystr :=
match v with
| PyNone => lit "None"
| PyBool true => lit "True"
| PyBool false => lit "False"
| PyInt n => Num.str_of_Z n
| PyFloat f => repr_float f
| PyStr s => repr_str s
| PyList l => lit "[" ++ join (lit ", ") (map repr l) ++ lit "]"
| PyDict d =>
  lit "{"
    ++ join (lit ", ")
         (map (fun kv => repr_str (fst kv) ++ lit ": " ++ repr (snd kv)) d)
    ++ lit "}"
end.

(** [str(v)]: a string is its own text, every other value its
[repr]. *)
Definition str (v : obj) : pystr :=
match v with
| PyStr s => s
| _ => repr v
end.

End WithTable.
End Repr.

(** ** [ast.literal_eval]

    Embedded on the literals that [repr] writes for the values of
    [obj]: the displays of lists and dicts (string keys), [None], [True],
    [False], decimal integers and floats with an optional minus sign, and
    quoted strings with the escapes [repr] produces.  A name such as
    [nan] or [inf] is not a literal and is refused, as in CPython.  Text
    outside this grammar is reported as malformed; CPython accepts some
    of it (tuples, sets, bytes and further notations), none of which
    [str] writes for a list or a dict. *)

Module Ast.

Import Json.

Fixpoint skip_sp (s : pystr) : pystr :=
  match s with
  | c :: s' => if N.eqb c 32 then skip_sp s' else s
  | [] => []
  end.

Definition hex2 (a b : codepoint) : option N :=
  match Num.hexval a, Num.hexval b with
  | Some x, Some y => Some (x * 16 + y)%N
  | _, _ => None
  end.

Definition hex8 (a b c d e f g h : codepoint) : option N :=
  match Num.hex4 a b c d, Num.hex4 e f g h with
  | Some x, Some y =>
      let u := (x * 65536 + y)%N in
      if (u <=? 1114111)%N then Some u else None
  | _, _ => None
  end.

Definition cons_char (c : codepoint) (r : option (pystr * pystr))
  : option (pystr * pystr) :=
  match r with
  | Some (t, rest) => Some (c :: t, rest)
  | None => None
  end.

(** The body of a string literal opened by the quote [q]. *)
Fixpoint string_body (q : codepoint) (s : pystr) : option (pystr * pystr) :=
  match s with
  | [] => None
  | c :: s1 =>
      if N.eqb c q then Some ([], s1)
      else if N.eqb c 92 then
        match s1 with
        | [] => None
        | e :: s2 =>
            if N.eqb e 92 || N.eqb e 39 || N.eqb e 34
            then cons_char e (string_body q s2)
            else if N.eqb e 110 then cons_char 10%N (string_body q s2)
            else if N.eqb e 114 then cons_char 13%N (string_body q s2)
            else if N.eqb e 116 then cons_char 9%N (string_body q s2)
            else if N.eqb e 120 (* x *) then
              match s2 with
              | a :: b :: s4 =>
                  match hex2 a b with
                  | Some u => cons_char u (string_body q s4)
                  | None => None
                  end
              | _ => None
              end
            else if N.eqb e 117 (* u *) then
              match s2 with
              | a :: b :: c' :: d :: s6 =>
                  match Num.hex4 a b c' d with
                  | Some u => cons_char u (string_body q s6)
                  | None => None
                  end
              | _ => None
              end
            else if N.eqb e 85 (* U *) then
              match s2 with
              | a :: b :: c' :: d :: e' :: f :: g :: h :: s10 =>
                  match hex8 a b c' d e' f g h with
                  | Some u => cons_char u (string_body q s10)
                  | None => None
                  end
              | _ => None
              end
            else None
        end
      else if (c <? 32)%N || N.eqb c 127
              || ((55296 <=? c)%N && (c <=? 57343)%N)
      then None
      else cons_char c (string_body q s1)
  end.

Definition is_quote (c : codepoint) : bool := N.eqb c 39 || N.eqb c 34.

Definition malformed {A} (s : pystr) : res A := Err [] s.

Definition atom (s : pystr) : option (obj * pystr) :=
  match s with
  | c :: _ =>
      if N.eqb c 78 then keyword "None" PyNone s
      else if N.eqb c 84 then keyword "True" (PyBool true) s
      else if N.eqb c 70 then keyword "False" (PyBool false) s
      else match_number s
  | [] => None
  end.

Fixpoint parse (fuel : nat) (s : pystr) : res obj :=
  match fuel with
  | O => OutOfFuel
  | S fuel' =>
      match s with
      | [] => malformed s
      | c :: s' =>
          if is_quote c then
            match string_body c s' with
            | Some (t, rest) => Ok (PyStr t) rest
            | None => malformed s
            end
          else if N.eqb c 91 then
            match skip_sp s' with
            | c1 :: s1 =>
                if N.eqb c1 93 then Ok (PyList []) s1
                else parse_items fuel' (c1 :: s1) []
            | [] => malformed s
            end
          else if N.eqb c 123 then
            match skip_sp s' with
            | c1 :: s1 =>
                if N.eqb c1 125 then Ok (PyDict []) s1
                else parse_pairs fuel' (c1 :: s1) []
            | [] => malformed s
            end
          else
            match atom s with
            | Some (v, rest) => Ok v rest
            | None => malformed s
            end
      end
  end

with parse_items (fuel : nat) (s : pystr) (values : list obj) : res obj :=
  match fuel with
  | O => OutOfFuel
  | S fuel' =>
      match parse fuel' s with
      | Ok value rest =>
          let values' := values ++ [value] in
          match skip_sp rest with
          | d :: rest1 =>
              if N.eqb d 93 then Ok (PyList values') rest1
              else if N.eqb d 44 then
                parse_items fuel' (skip_sp rest1) values'
              else malformed (d :: rest1)
          | [] => malformed []
          end
      | Err msg at_ => Err msg at_
      | OutOfFuel => OutOfFuel
      end
  end

with parse_pairs (fuel : nat) (s : pystr) (pairs : list (pystr * obj))
  : res obj :=
  match fuel with
  | O => OutOfFuel
  | S fuel' =>
      match s with
      | c :: s' =>
          if is_quote c then
            match string_body c s' with
            | Some (key, rest) =>
                match skip_sp rest with
                | colon :: rest1 =>
                    if N.eqb colon 58 then
                      match parse fuel' (skip_sp rest1) with
                      | Ok value rest2 =>
                          let pairs' := dict_set pairs key value in
                          match skip_sp rest2 with
                          | d :: rest3 =>
                              if N.eqb d 125 then Ok (PyDict pairs') rest3
                              else if N.eqb d 44 then
                                parse_pairs fuel' (skip_sp rest3) pairs'
                              else malformed (d :: rest3)
                          | [] => malformed []
                          end
                      | Err msg at_ => Err msg at_
                      | OutOfFuel => OutOfFuel
                      end
                    else malformed (colon :: rest1)
                | [] => malformed []
                end
            | None => malformed s
            end
          else malformed s
      | [] => malformed s
      end
  end.

Definition malformed_node : exn :=
  {| exn_class := ValueError; exn_str := lit "malformed node or string" |}.

Definition literal_eval_with (fuel : nat) (s : pystr) : option (exn + obj) :=
  match parse fuel (skip_sp s) with
  | Ok v rest =>
      match skip_sp rest with
      | [] => Some (inr v)
      | _ => Some (inl malformed_node)
      end
  | Err _ _ => Some (inl malformed_node)
  | OutOfFuel => None
  end.

(** [ast.literal_eval(s)]: the value, or the exception raised.  The
    interpreter refuses a text that nests some two hundred brackets;
    the embedding has no such bound, and what is proved of deeply
    nested values states one. *)
Definition literal_eval (s : pystr) : exn + obj :=
  match literal_eval_with (fuel_for s) s with
  | Some r => r
  | None => inl malformed_node
  end.

End Ast.

(** ** The data model of [main.py] *)

(** A row of the table [scan_results].  The two text columns hold the
    serialised lists; the store keeps the score and the level as they
    were handed to it. *)
Module ScanResult.
Record t : Type := {
  id : Z;
  user_id : pystr;
  ad_copy : pystr;
  image_name : option pystr;
  compliance_score : obj;
  risk_level : obj;
  violations : pystr;
  recommendations : pystr;
  created_at : Z
}.
End ScanResult.

(** The pydantic model [ScanResponse]. *)
Module ScanResponse.
Record t : Type := {
  scan_id : Z;
  compliance_score : pyfloat;
  risk_level : pystr;
  violations : list (list (pystr * obj));
  recommendations : list pystr;
  summary : pystr
}.
End ScanResponse.

(** An entry of the list [scans] returned by [get_scan_history]. *)
Module ScanSummary.
Record t : Type := {
  scan_id : Z;
  compliance_score : obj;
  risk_level : obj;
  created_at : Z;
  ad_copy_preview : pystr
}.
End ScanSummary.

(** The dictionary returned by [get_scan_history]. *)
Module History.
Record t : Type := {
  user_id : pystr;
  total_scans : Z;
  scans : list ScanSummary.t
}.
End History.

(** The dictionary returned by [get_scan_details]. *)
Module ScanDetails.
Record t : Type := {
  scan_id : Z;
  ad_copy : pystr;
  compliance_score : obj;
  risk_level : obj;
  violations : obj;
  recommendations : obj;
  created_at : Z
}.
End ScanDetails.

(** An uploaded file: its declared name and its bytes. *)
Record UploadFile : Type := { filename : pystr; content : list N }.

(** A part of [messages_content].  The image part carries the bytes
    that are sent base64-encoded, the text part the ad copy around which
    the prompt and [META_POLICIES] are laid out. *)
Inductive part : Type :=
| ImagePart (data : list N)
| TextPart (ad_copy : pystr).

(** What [client.messages.create] and the read of
    [response.content[0].text] produce: the reply text, or the exception
    raised on the way. *)
Inductive outcome : Type :=
| Text (response_text : pystr)
| Raised (e : exn).

(** The world the endpoints run in: the rows of [scan_results], oldest
    first, and the requests sent to the remote classifier so far. *)
Record world : Type := {
  db : list ScanResult.t;
  calls : list (list part)
}.

(** What an endpoint answers over HTTP. *)
Inductive http (A : Type) : Type :=
| Status200 (body : A)
| StatusError (status_code : Z) (detail : pystr).
Arguments Status200 {A} body.
Arguments StatusError {A} status_code detail.

(** The form fields of [POST /scan] as the client sent them. *)
Record scan_form : Type := {
  form_ad_copy : option pystr;
  form_user_id : option pystr;
  form_image : option UploadFile
}.

(** ** The functions of [main.py] *)

Section Scanner.

Variable isprintable : codepoint -> bool.

Definition key_compliance_score : pystr := lit "compliance_score".
Definition key_risk_level : pystr := lit "risk_level".
Definition key_violations : pystr := lit "violations".
Definition key_recommendations : pystr := lit "recommendations".
Definition key_summary : pystr := lit "summary".

(** The dictionary of the [except] branch of [analyze_with_ai]. *)
Definition fallback (e : exn) : obj :=
  PyDict
    [ (key_compliance_score, PyInt 50);
      (key_risk_level, PyStr (lit "MEDIUM"));
      (key_violations,
        PyList
          [ PyDict
              [ (lit "category", PyStr (lit "Analysis Error"));
                (lit "severity", PyStr (lit "MEDIUM"));
                (lit "issue",
                  PyStr (lit "Could not complete analysis: " ++ exn_str e));
                (lit "text_snippet", PyStr []);
                (lit "policy_reference", PyStr (lit "System Error")) ] ]);
      (key_recommendations,
        PyList [PyStr (lit "Please try again or contact support")]);
      (key_summary,
        PyStr (lit "Analysis could not be completed due to technical error")) ].

(** [messages_content]: the image part only for a non-empty
    [image_data], then the prompt. *)
Definition messages_content (ad_copy : pystr) (image_data : option (list N))
  : list part :=
  match image_data with
  | Some (b :: data) => [ImagePart (b :: data); TextPart ad_copy]
  | _ => [TextPart ad_copy]
  end.

(** The body of the [try] block once the remote call has produced
    [remote]. *)
Definition analyze_try (remote : outcome) : exn + obj :=
  match remote with
  | Raised e => inl e
  | Text response_text => Json.loads (json_str response_text)
  end.

Definition analyze_with_ai (remote : outcome) : obj :=
  match analyze_try remote with
  | inr result => result
  | inl e => fallback e
  end.

Definition type_error (msg : string) : exn :=
  {| exn_class := TypeError; exn_str := lit msg |}.

(** [analysis[key]] for a string [key]. *)
Definition getitem (analysis : obj) (key : pystr) : exn + obj :=
  match analysis with
  | PyDict d =>
      match dict_get d key with
      | Some v => inr v
      | None =>
          inl {| exn_class := KeyError;
                 exn_str := Repr.repr_str isprintable key |}
      end
  | PyList _ =>
      inl (type_error "list indices must be integers or slices, not str")
  | PyStr _ => inl (type_error "string indices must be integers, not 'str'")
  | PyInt _ => inl (type_error "'int' object is not subscriptable")
  | PyFloat _ => inl (type_error "'float' object is not subscriptable")
  | PyBool _ => inl (type_error "'bool' object is not subscriptable")
  | PyNone => inl (type_error "'NoneType' object is not subscriptable")
  end.

(** The primary key the store assigns: one above the largest in use. *)
Definition next_id (rows : list ScanResult.t) : Z :=
  (1 + fold_right Z.max 0 (map ScanResult.id rows))%Z.

(** Validation of the fields of [ScanResponse] against their
    annotations [float], [str], [List[dict]], [List[str]].  A number is
    a float, a string is a string.  pydantic also converts some strings
    and the booleans into [float]; these conversions are not part of
    the embedding, which refuses there, and what is proved of a
    response is stated for a score that is a number. *)
Definition as_float (v : obj) : option pyfloat :=
  match v with
  | PyInt n =>
      if float_overflows (Z.abs_N n) 0 then None
      else Some (Dec (n <? 0)%Z (Z.abs_N n) 0)
  | PyFloat f => Some f
  | _ => None
  end.

Definition as_str (v : obj) : option pystr :=
  match v with
  | PyStr s => Some s
  | _ => None
  end.

Definition as_dict (v : obj) : option (list (pystr * obj)) :=
  match v with
  | PyDict d => Some d
  | _ => None
  end.

Fixpoint all_some {A} (l : list (option A)) : option (list A) :=
  match l with
  | [] => Some []
  | Some x :: l' =>
      match all_some l' with
      | Some r => Some (x :: r)
      | None => None
      end
  | None :: _ => None
  end.

Definition as_list {A} (f : obj -> option A) (v : obj) : option (list A) :=
  match v with
  | PyList l => all_some (map f l)
  | _ => None
  end.

Definition validation_error : exn :=
  {| exn_class := ValidationError;
     exn_str := lit "validation error for ScanResponse" |}.

(** The constructor call [ScanResponse(...)]. *)
Definition make_ScanResponse (scan_id : Z)
    (compliance_score risk_level violations recommendations summary : obj)
  : exn + ScanResponse.t :=
  match as_float compliance_score, as_str risk_level,
        as_list as_dict violations, as_list as_str recommendations,
        as_str summary with
  | Some cs, Some rl, Some vs, Some rs, Some sm =>
      inr {| ScanResponse.scan_id := scan_id;
             ScanResponse.compliance_score := cs;
             ScanResponse.risk_level := rl;
             ScanResponse.violations := vs;
             ScanResponse.recommendations := rs;
             ScanResponse.summary := sm |}
  | _, _, _, _, _ => inl validation_error
  end.

(** The handler of [POST /scan].  [now] is the clock value the store
    reads for [created_at], [remote] what the classifier call yields.
    The row keeps score and level as the analysis holds them and the
    commit succeeds; the store refuses a score or level that is a list
    or a dictionary, and what is proved of a stored row whose score and
    level are not fixed by the code states that the store takes them. *)
Definition scan_ad (w : world) (now : Z) (remote : outcome)
    (ad_copy user_id : pystr) (image : option UploadFile)
  : world * (exn + ScanResponse.t) :=
  let image_name := option_map filename image in
  let image_data := option_map content image in
  let analysis := analyze_with_ai remote in
  let w1 := {| db := db w;
               calls := calls w ++ [messages_content ad_copy image_data] |} in
  match getitem analysis key_compliance_score with
  | inl e => (w1, inl e)
  | inr compliance_score =>
  match getitem analysis key_risk_level with
  | inl e => (w1, inl e)
  | inr risk_level =>
  match getitem analysis key_violations with
  | inl e => (w1, inl e)
  | inr violations =>
  match getitem analysis key_recommendations with
  | inl e => (w1, inl e)
  | inr recommendations =>
      let scan_result :=
        {| ScanResult.id := next_id (db w);
           ScanResult.user_id := user_id;
           ScanResult.ad_copy := ad_copy;
           ScanResult.image_name := image_name;
           ScanResult.compliance_score := compliance_score;
           ScanResult.risk_level := risk_level;
           ScanResult.violations := Repr.str isprintable violations;
           ScanResult.recommendations :=
             Repr.str isprintable recommendations;
           ScanResult.created_at := now |} in
      let w2 := {| db := db w ++ [scan_result]; calls := calls w1 |} in
      match getitem analysis key_summary with
      | inl e => (w2, inl e)
      | inr summary =>
          (w2, make_ScanResponse (ScanResult.id scan_result)
                 compliance_score risk_level violations recommendations
                 summary)
      end
  end end end end.

(** How an exception that leaves a handler is answered. *)
Definition respond {A} (r : exn + A) : http A :=
  match r with
  | inr body => Status200 body
  | inl e =>
      match exn_class e with
      | HTTPException status_code => StatusError status_code (exn_str e)
      | _ => StatusError 500 (lit "Internal Server Error")
      end
  end.

(** A form field as FastAPI binds it: a field that is absent or sent
    as the empty string counts as missing. *)
Definition form_value (field : option pystr) : option pystr :=
  match field with
  | Some (c :: s) => Some (c :: s)
  | _ => None
  end.

(** [POST /scan]: [ad_copy] is declared [Form(...)] and is required,
    [user_id] falls back to ["anonymous"]; a missing required field is
    answered 422 without the handler being run.  The form is taken to
    be well formed otherwise: text in the text fields, a file or
    nothing in [image]. *)
Definition post_scan (w : world) (now : Z) (remote : outcome)
    (form : scan_form) : world * http ScanResponse.t :=
  match form_value (form_ad_copy form) with
  | None => (w, StatusError 422 (lit "Field required"))
  | Some ad_copy =>
      let user_id :=
        match form_value (form_user_id form) with
        | Some u => u
        | None => lit "anonymous"
        end in
      let (w', r) := scan_ad w now remote ad_copy user_id (form_image form) in
      (w', respond r)
  end.

(** [ORDER BY created_at DESC]; rows with equal keys keep the order
    of the table. *)
Fixpoint insert_desc (r : ScanResult.t) (l : list ScanResult.t)
  : list ScanResult.t :=
  match l with
  | [] => [r]
  | x :: l' =>
      if (ScanResult.created_at x <? ScanResult.created_at r)%Z
      then r :: l
      else x :: insert_desc r l'
  end.

Definition order_by_created_at_desc (l : list ScanResult.t)
  : list ScanResult.t :=
  fold_right insert_desc [] l.

(** [LIMIT n] as SQLite, the engine of the default [DATABASE_URL],
    evaluates it: a negative [n] puts no bound on the rows returned. *)
Definition sql_limit {A} (n : Z) (l : list A) : list A :=
  if (n <? 0)%Z then l else firstn (Z.to_nat n) l.

Definition ellipsis : pystr := lit "...".

Definition ad_copy_preview (ad_copy : pystr) : pystr :=
  if (100 <? length ad_copy)%nat then firstn 100 ad_copy ++ ellipsis
  else ad_copy.

Definition summarise (s : ScanResult.t) : ScanSummary.t :=
  {| ScanSummary.scan_id := ScanResult.id s;
     ScanSummary.compliance_score := ScanResult.compliance_score s;
     ScanSummary.risk_level := ScanResult.risk_level s;
     ScanSummary.created_at := ScanResult.created_at s;
     ScanSummary.ad_copy_preview := ad_copy_preview (ScanResult.ad_copy s) |}.

(** The handler of [GET /history/{user_id}]. *)
Definition get_scan_history (w : world) (user_id : pystr) (limit : Z)
  : History.t :=
  let scans :=
    sql_limit limit
      (order_by_created_at_desc
         (filter (fun r => Py.eqb (ScanResult.user_id r) user_id) (db w))) in
  {| History.user_id := user_id;
     History.total_scans := Z.of_nat (length scans);
     History.scans := map summarise scans |}.

(** [GET /history/{user_id}?limit=N], [limit] defaulting to 10. *)
Definition get_history (w : world) (user_id : pystr) (limit : option Z)
  : http History.t :=
  Status200
    (get_scan_history w user_id
       match limit with Some n => n | None => 10%Z end).

(** [.filter(ScanResult.id == scan_id).first()], for a [scan_id] the
    driver binds; SQLite's refuses integers beyond 64 bits. *)
Definition first_by_id (rows : list ScanResult.t) (scan_id : Z)
  : option ScanResult.t :=
  find (fun r => Z.eqb (ScanResult.id r) scan_id) rows.

Definition not_found : exn :=
  {| exn_class := HTTPException 404; exn_str := lit "Scan not found" |}.

(** The handler of [GET /scan/{scan_id}]. *)
Definition get_scan_details (w : world) (scan_id : Z)
  : exn + ScanDetails.t :=
  match first_by_id (db w) scan_id with
  | None => inl not_found
  | Some scan =>
      match Ast.literal_eval (ScanResult.violations scan) with
      | inl e => inl e
      | inr violations =>
          match Ast.literal_eval (ScanResult.recommendations scan) with
          | inl e => inl e
          | inr recommendations =>
              inr {| ScanDetails.scan_id := ScanResult.id scan;
                     ScanDetails.ad_copy := ScanResult.ad_copy scan;
                     ScanDetails.compliance_score :=
                       ScanResult.compliance_score scan;
                     ScanDetails.risk_level := ScanResult.risk_level scan;
                     ScanDetails.violations := violations;
                     ScanDetails.recommendations := recommendations;
                     ScanDetails.created_at := ScanResult.created_at scan |}
          end
      end
  end.

(** [GET /scan/{scan_id}] *)
Definition get_scan (w : world) (scan_id : Z) : http ScanDetails.t :=
  respond (get_scan_details w scan_id).

End Scanner.

(** ** Sample data *)

Definition sample_row (id : Z) (user_id ad_copy : pystr) (created_at : Z)
  : ScanResult.t :=
  {| ScanResult.id := id;
     ScanResult.user_id := user_id;
     ScanResult.ad_copy := ad_copy;
     ScanResult.image_name := None;
     ScanResult.compliance_score := PyInt 80;
     ScanResult.risk_level := PyStr (lit "LOW");
     ScanResult.violations := lit "[]";
     ScanResult.recommendations := lit "[]";
     ScanResult.created_at := created_at |}.

Definition long_ad_copy : pystr := repeat (chr "a") 120.

(** Three scans of user [u1] and one of [u2]. *)
Definition sample_world : world :=
  {| db := [ sample_row 1 (lit "u1") (lit "Buy now") 100;
             sample_row 2 (lit "u2") (lit "Free trial") 200;
             sample_row 3 (lit "u1") long_ad_copy 300;
             sample_row 4 (lit "u1") (lit "Sale ends soon") 250 ];
     calls := [] |}.

Definition empty_world : world := {| db := []; calls := [] |}.

(** A table for the examples: their texts are ASCII, for which [repr]
    never consults it. *)
Definition ascii_only : codepoint -> bool := fun _ => false.

Definition form_of (ad_copy user_id : option pystr) : scan_form :=
  {| form_ad_copy := ad_copy; form_user_id := user_id; form_image := None |}.

Definition transport_error : exn :=
  {| exn_class := RemoteError; exn_str := lit "Connection error." |}.

(** A double-quoted JSON string or key. *)
Definition quoted (s : string) : pystr := Json.quote :: lit s ++ [Json.quote].

(** The reply [{}]. *)
Definition empty_object_reply : pystr := lit "{}".


(** A reply that fills one field of a violation with the constant
    [NaN], which [json.loads] accepts. *)
Definition nan_reply : pystr :=
  lit "{" ++ quoted "compliance_score" ++ lit ": 40, "
    ++ quoted "risk_level" ++ lit ": " ++ quoted "HIGH" ++ lit ", "
    ++ quoted "violations" ++ lit ": [{"
    ++ quoted "category" ++ lit ": " ++ quoted "Health" ++ lit ", "
    ++ quoted "severity" ++ lit ": " ++ quoted "HIGH" ++ lit ", "
    ++ quoted "issue" ++ lit ": " ++ quoted "Claims a cure" ++ lit ", "
    ++ quoted "text_snippet" ++ lit ": NaN, "
    ++ quoted "policy_reference" ++ lit ": " ++ quoted "Health" ++ lit "}], "
    ++ quoted "recommendations" ++ lit ": [" ++ quoted "Drop the claim"
    ++ lit "], "
    ++ quoted "summary" ++ lit ": " ++ quoted "Risky" ++ lit "}".

(** Three replies: a fenced block followed by prose with braces, prose
    with braces only, and prose without a brace pair. *)
Definition fenced_reply : pystr :=
  lit "Here:" ++ fence_open ++ lit "{1}" ++ fence_close ++ lit " {x}".
Definition braces_reply : pystr := lit "x}{a}{b}y{".
Definition plain_reply : pystr := lit "}{".

Definition sample_form : scan_form :=
  form_of (Some (lit "Cures everything")) (Some (lit "u1")).

(** The world after [POST /scan] has stored the scan answered with
    [nan_reply]. *)
Definition nan_world : world :=
  fst (post_scan ascii_only empty_world 400 (Text nan_reply) sample_form).

(** The text [str] writes for the violations of [nan_reply]. *)
Definition nan_violations_text : pystr :=
  lit "[{'category': 'Health', 'severity': 'HIGH', 'issue': 'Claims a cure', 'text_snippet': nan, 'policy_reference': 'Health'}]".

(** The violations [json.loads] decodes from [nan_reply]. *)
Definition nan_violations : obj :=
  PyList
    [ PyDict
        [ (lit "category", PyStr (lit "Health"));
          (lit "severity", PyStr (lit "HIGH"));
          (lit "issue", PyStr (lit "Claims a cure"));
          (lit "text_snippet", PyFloat Nan);
          (lit "policy_reference", PyStr (lit "Health")) ] ].

(** ** Vocabulary of the specification *)



(** The reply holds a fenced block marked as JSON: the opening fence
    with its line break, some content, and a line break followed by the
    closing fence. *)
Definition has_fence (text : pystr) : Prop :=
  exists pre inner post,
    text = pre ++ fence_open ++ inner ++ fence_close ++ post.

(** The reply holds an opening brace with a closing brace after it. *)
Definition has_braces (text : pystr) : Prop :=
  exists pre mid post, text = pre ++ [lbrace] ++ mid ++ [rbrace] ++ post.

(** The five keys [scan_ad] reads from the analysis. *)
Definition required_keys : list pystr :=
  [ key_compliance_score; key_risk_level; key_violations;
    key_recommendations; key_summary ].

(** The answer to a request whose handler raised. *)
Definition internal_server_error {A} : http A :=
  StatusError 500 (lit "Internal Server Error").

(** [a] was created no earlier than [b]. *)
Definition newer_first (a b : ScanResult.t) : Prop :=
  (ScanResult.created_at b <= ScanResult.created_at a)%Z.

(** The rows the listing is built from. *)
Definition listed (w : world) (user_id : pystr) (limit : Z)
  : list ScanResult.t :=
  sql_limit limit
    (order_by_created_at_desc
       (filter (fun r => Py.eqb (ScanResult.user_id r) user_id) (db w))).

(** The query parameter [limit: int = 10]. *)
Definition limit_or_default (limit : option Z) : Z :=
  match limit with Some n => n | None => 10%Z end.

(** The violation of the degraded result raised for [e]. *)
Definition degraded_violation (e : exn) : list (pystr * obj) :=
  [ (lit "category", PyStr (lit "Analysis Error"));
    (lit "severity", PyStr (lit "MEDIUM"));
    (lit "issue", PyStr (lit "Could not complete analysis: " ++ exn_str e));
    (lit "text_snippet", PyStr []);
    (lit "policy_reference", PyStr (lit "System Error")) ].

(** The degraded result as [ScanResponse] carries it. *)
Definition degraded_response (scan_id : Z) (e : exn) : ScanResponse.t :=
  {| ScanResponse.scan_id := scan_id;
     ScanResponse.compliance_score := Dec false 50 0;
     ScanResponse.risk_level := lit "MEDIUM";
     ScanResponse.violations := [degraded_violation e];
     ScanResponse.recommendations :=
       [lit "Please try again or contact support"];
     ScanResponse.summary :=
       lit "Analysis could not be completed due to technical error" |}.

(** A pattern [open(.*?)close] or [open.*close]. *)
Definition delimited (lazy capture : bool) (o c : pystr) : Re.pattern :=
  Re.chars o ++ [Re.DotStar lazy capture] ++ Re.chars c.

(** One step of [Num.of_digits]. *)
Definition digit_step (acc d : N) : N := (acc * 10 + (d - 48))%N.

(** What may follow a value in a display: the end of the text, a
    comma, or a closing bracket or brace. *)
Definition ends_value (rest : pystr) : Prop :=
  match rest with
  | [] => True
  | c :: _ => c = 44%N \/ c = 93%N \/ c = 125%N
  end.

(** The table never calls a surrogate printable. *)
Definition table_ok (isprintable : codepoint -> bool) : Prop :=
  forall c, (55296 <= c)%N -> (c <= 57343)%N -> isprintable c = false.

(** Every code point of the string is one of Unicode. *)
Definition str_ok (s : pystr) : bool := forallb (fun c => (c <=? 1114111)%N) s.

(** No key occurs twice. *)
Fixpoint unique_keys (ks : list pystr) : bool :=
  match ks with
  | [] => true
  | k :: ks' => negb (existsb (Py.eqb k) ks') && unique_keys ks'
  end.

(** A value without floats, whose strings hold code points of Unicode
    and whose dictionaries do not repeat a key. *)
Fixpoint literal_ok (v : obj) : bool :=
  match v with
  | PyNone | PyBool _ | PyInt _ => true
  | PyFloat _ => false
  | PyStr s => str_ok s
  | PyList l => forallb literal_ok l
  | PyDict d =>
      forallb (fun kv => str_ok (fst kv) && literal_ok (snd kv)) d
      && unique_keys (map fst d)
  end.

(** The text starts with a character that is neither a space nor a
    closing bracket or brace. *)
Definition starts_value (s : pystr) : Prop :=
  exists c t, s = c :: t /\ c <> 32%N /\ c <> 93%N /\ c <> 125%N.

(** [v] is read back from its display, whatever value end follows. *)
Definition reads_back (isprintable : codepoint -> bool) (v : obj) : Prop :=
  forall rest,
    ends_value rest ->
    exists fuel,
      Ast.parse fuel (Repr.repr isprintable v ++ rest) = Json.Ok v rest.

(** An entry of a dict display. *)
Definition pair_repr (isprintable : codepoint -> bool) (kv : pystr * obj)
  : pystr :=
  Repr.repr_str isprintable (fst kv) ++ lit ": "
    ++ Repr.repr isprintable (snd kv).

(** ** [base64.b64encode]

    The standard alphabet with [=] padding and no line breaks, as
    [scan_ad] applies it to the bytes of the upload; the result is ASCII,
    so the [.decode('utf-8')] that follows maps each byte to the code
    point of the same value. *)

Module Base64.

(** The character of a 6-bit value. *)
Definition b64char (n : N) : codepoint :=
  if (n <? 26)%N then (65 + n)%N
  else if (n <? 52)%N then (71 + n)%N
  else if (n <? 62)%N then (n - 4)%N
  else if (n =? 62)%N then 43%N
  else 47%N.

Definition pad : codepoint := 61%N.

Fixpoint b64encode (bytes : list N) : pystr :=
  match bytes with
  | [] => []
  | [a] => [b64char (a / 4); b64char (a mod 4 * 16); pad; pad]
  | [a; b] =>
      [ b64char (a / 4); b64char (a mod 4 * 16 + b / 16);
        b64char (b mod 16 * 4); pad ]
  | a :: b :: c :: rest =>
      b64char (a / 4) :: b64char (a mod 4 * 16 + b / 16)
        :: b64char (b mod 16 * 4 + c / 64) :: b64char (c mod 64)
        :: b64encode rest
  end.

End Base64.

(** [image_data] and [image_name] once lines 300-306 of [scan_ad] have
    run. *)
Definition image_data (image : option UploadFile) : option pystr :=
  option_map (fun i => Base64.b64encode (content i)) image.

Definition image_name (image : option UploadFile) : option pystr :=
  option_map filename image.

(** The test [if image_data:] of [analyze_with_ai]. *)
Definition truthy (image_data : option pystr) : bool :=
  match image_data with
  | Some (_ :: _) => true
  | _ => false
  end.

(** ** Vocabulary of the further properties *)

(** The [user_id] the handler of [POST /scan] runs with: the form field,
    or its default. *)
Definition posted_user (form : scan_form) : pystr :=
  match form_value (form_user_id form) with
  | Some u => u
  | None => lit "anonymous"
  end.

(** The four keys [scan_ad] reads before it stores the row. *)
Definition stored_keys : list pystr :=
  [ key_compliance_score; key_risk_level; key_violations;
    key_recommendations ].

(** The request [POST /scan] sends to the classifier. *)
Definition classifier_request (ad_copy : pystr) (form : scan_form)
  : list part :=
  messages_content ad_copy (option_map content (form_image form)).

(** The worlds the service reaches from an empty store through requests
    to [POST /scan]; the two [GET] endpoints leave the world as it is. *)
Inductive reachable (isprintable : codepoint -> bool) : world -> Prop :=
| reach_empty : reachable isprintable empty_world
| reach_scan (w : world) (now : Z) (remote : outcome) (form : scan_form) :
    reachable isprintable w ->
    reachable isprintable (fst (post_scan isprintable w now remote form)).

(** The rows of a user, in the order of the table. *)
Definition rows_of (w : world) (user_id : pystr) : list ScanResult.t :=
  filter (fun r => Py.eqb (ScanResult.user_id r) user_id) (db w).

(** The backquote of the code fences. *)
Definition backtick : codepoint := chr "`".

(** A well-formed reply with one violation. *)
Definition flagged_object : pystr :=
  lit "{" ++ quoted "compliance_score" ++ lit ": 40, "
    ++ quoted "risk_level" ++ lit ": " ++ quoted "HIGH" ++ lit ", "
    ++ quoted "violations" ++ lit ": [{"
    ++ quoted "category" ++ lit ": " ++ quoted "Health" ++ lit ", "
    ++ quoted "severity" ++ lit ": " ++ quoted "HIGH" ++ lit ", "
    ++ quoted "issue" ++ lit ": " ++ quoted "Claims a cure" ++ lit ", "
    ++ quoted "text_snippet" ++ lit ": " ++ quoted "Cures" ++ lit ", "
    ++ quoted "policy_reference" ++ lit ": " ++ quoted "Health" ++ lit "}], "
    ++ quoted "recommendations" ++ lit ": [" ++ quoted "Drop the claim"
    ++ lit "], "
    ++ quoted "summary" ++ lit ": " ++ quoted "Risky" ++ lit "}".

Definition flagged_violations : obj :=
  PyList
    [ PyDict
        [ (lit "category", PyStr (lit "Health"));
          (lit "severity", PyStr (lit "HIGH"));
          (lit "issue", PyStr (lit "Claims a cure"));
          (lit "text_snippet", PyStr (lit "Cures"));
          (lit "policy_reference", PyStr (lit "Health")) ] ].

Definition flagged_recommendations : obj :=
  PyList [PyStr (lit "Drop the claim")].

Definition flagged_analysis : obj :=
  PyDict
    [ (key_compliance_score, PyInt 40);
      (key_risk_level, PyStr (lit "HIGH"));
      (key_violations, flagged_violations);
      (key_recommendations, flagged_recommendations);
      (key_summary, PyStr (lit "Risky")) ].

(** The same object inside prose, and inside a fenced block. *)
Definition prose_reply : pystr :=
  lit "Here is my analysis: " ++ flagged_object ++ lit " Let me know.".

Definition fenced_object_reply : pystr :=
  lit "Analysis:" ++ [nl] ++ fence_open ++ flagged_object ++ fence_close
    ++ lit " The braces {} here are ignored.".


(** A reply whose [violations] is not a list. *)
Definition no_list_reply : pystr :=
  lit "{" ++ quoted "compliance_score" ++ lit ": 90, "
    ++ quoted "risk_level" ++ lit ": " ++ quoted "LOW" ++ lit ", "
    ++ quoted "violations" ++ lit ": " ++ quoted "none" ++ lit ", "
    ++ quoted "recommendations" ++ lit ": [], "
    ++ quoted "summary" ++ lit ": " ++ quoted "ok" ++ lit "}".

(** A reply without [risk_level]. *)
Definition no_level_reply : pystr :=
  lit "{" ++ quoted "compliance_score" ++ lit ": 90, "
    ++ quoted "violations" ++ lit ": [], "
    ++ quoted "recommendations" ++ lit ": [], "
    ++ quoted "summary" ++ lit ": " ++ quoted "ok" ++ lit "}".

(** An upload. *)
Definition sample_image : UploadFile :=
  {| filename := lit "ad.jpg"; content := [255; 216; 255]%N |}.

Definition image_form : scan_form :=
  {| form_ad_copy := Some (lit "Cures everything");
     form_user_id := None;
     form_image := Some sample_image |}.

(** What [POST /scan] answers to [flagged_object]. *)
Definition flagged_response (scan_id : Z) : ScanResponse.t :=
  {| ScanResponse.scan_id := scan_id;
     ScanResponse.compliance_score := Dec false 40 0;
     ScanResponse.risk_level := lit "HIGH";
     ScanResponse.violations :=
       [ [ (lit "category", PyStr (lit "Health"));
           (lit "severity", PyStr (lit "HIGH"));
           (lit "issue", PyStr (lit "Claims a cure"));
           (lit "text_snippet", PyStr (lit "Cures"));
           (lit "policy_reference", PyStr (lit "Health")) ] ];
     ScanResponse.recommendations := [lit "Drop the claim"];
     ScanResponse.summary := lit "Risky" |}.

(** An upload that holds no byte. *)
Definition empty_image : UploadFile :=
  {| filename := lit "blank.jpg"; content := [] |}.

(** The bytes of [sample_image] under another name. *)
Definition renamed_image : UploadFile :=
  {| filename := lit "copy.jpg"; content := [255; 216; 255]%N |}.

(** ** The limits of the run time

    The embedding puts no bound on the size of a value; the interpreter,
    the store and the driver do.  [json.loads] gives up near a thousand
    levels of nesting and [ast.literal_eval] near two hundred, an integer
    of more than 4300 digits is converted neither from text nor to it,
    [float] refuses an integer beyond the range of a double, a string
    that holds a surrogate cannot be encoded for the store, a [Float] or
    [String] column refuses a list or a dictionary, and the driver of
    SQLite binds integers of 64 bits only.  A property that depends on
    such a value states the bound as a hypothesis, well inside each of
    these limits. *)










(** An integer the driver of SQLite binds. *)
Definition sqlite_integer (n : Z) : bool :=
  (- 2 ^ 63 <=? n)%Z && (n <? 2 ^ 63)%Z.

(** * Properties *)

(** ** The history listing *)

Section Listing.

Lemma insert_desc_In (r x : ScanResult.t) (l : list ScanResult.t) :
  In x (insert_desc r l) <-> x = r \/ In x l.
Proof.
  induction l as [|y l IH]; simpl.
  - intuition.
  - destruct (ScanResult.created_at y <? ScanResult.created_at r)%Z; simpl.
    + intuition.
    + rewrite IH. intuition.
Qed.

Lemma insert_desc_length (r : ScanResult.t) (l : list ScanResult.t) :
  length (insert_desc r l) = S (length l).
Proof.
  induction l as [|y l IH]; simpl; trivial.
  destruct (ScanResult.created_at y <? ScanResult.created_at r)%Z; simpl;
    congruence.
Qed.

Lemma insert_desc_sorted (r : ScanResult.t) (l : list ScanResult.t) :
  StronglySorted newer_first l -> StronglySorted newer_first (insert_desc r l).
Proof.
  induction 1 as [|y l Hl IH Hy]; simpl.
  - constructor; constructor.
  - destruct (ScanResult.created_at y <? ScanResult.created_at r)%Z eqn:E.
    + apply Z.ltb_lt in E. constructor.
      * constructor; assumption.
      * constructor.
        -- unfold newer_first. lia.
        -- rewrite Forall_forall in *. intros x Hx.
           specialize (Hy x Hx). unfold newer_first in *. lia.
    + apply Z.ltb_ge in E. constructor; trivial.
      rewrite Forall_forall in *. intros x Hx.
      apply insert_desc_In in Hx. destruct Hx as [->|Hx]; auto.
Qed.

Lemma order_by_In (x : ScanResult.t) (l : list ScanResult.t) :
  In x (order_by_created_at_desc l) <-> In x l.
Proof.
  induction l as [|y l IH]; simpl; [tauto|].
  rewrite insert_desc_In, IH. intuition.
Qed.

Lemma order_by_length (l : list ScanResult.t) :
  length (order_by_created_at_desc l) = length l.
Proof.
  induction l as [|y l IH]; simpl; trivial.
  rewrite insert_desc_length. congruence.
Qed.

Lemma order_by_sorted (l : list ScanResult.t) :
  StronglySorted newer_first (order_by_created_at_desc l).
Proof.
  induction l; simpl; [constructor | now apply insert_desc_sorted].
Qed.

Lemma firstn_incl {A} (n : nat) (l : list A) (x : A) :
  In x (firstn n l) -> In x l.
Proof.
  revert n. induction l as [|y l IH]; intros [|n]; simpl; try tauto.
  intros [H|H]; eauto.
Qed.

Lemma firstn_sorted {A} (R : A -> A -> Prop) (n : nat) (l : list A) :
  StronglySorted R l -> StronglySorted R (firstn n l).
Proof.
  intros H. revert n. induction H as [|x l Hl IH Hx]; intros [|n]; simpl;
    try constructor; auto.
  rewrite Forall_forall in *. intros y Hy. apply Hx.
  eapply firstn_incl; eauto.
Qed.

Lemma sql_limit_incl {A} (n : Z) (l : list A) (x : A) :
  In x (sql_limit n l) -> In x l.
Proof.
  unfold sql_limit. destruct (n <? 0)%Z; trivial. apply firstn_incl.
Qed.

Lemma sql_limit_sorted {A} (R : A -> A -> Prop) (n : Z) (l : list A) :
  StronglySorted R l -> StronglySorted R (sql_limit n l).
Proof.
  unfold sql_limit. destruct (n <? 0)%Z; trivial. apply firstn_sorted.
Qed.

Lemma sql_limit_length {A} (n : Z) (l : list A) :
  (0 <= n)%Z -> length (sql_limit n l) = Nat.min (Z.to_nat n) (length l).
Proof.
  intros H. unfold sql_limit.
  destruct (n <? 0)%Z eqn:E; [apply Z.ltb_lt in E; lia|].
  apply length_firstn.
Qed.

Lemma map_sorted {A B} (f : A -> B) (R : A -> A -> Prop)
    (S : B -> B -> Prop) (l : list A) :
  (forall a b, R a b -> S (f a) (f b)) ->
  StronglySorted R l -> StronglySorted S (map f l).
Proof.
  intros HRS. induction 1 as [|x l Hl IH Hx]; simpl; constructor; trivial.
  rewrite Forall_forall in *. intros y Hy.
  apply in_map_iff in Hy. destruct Hy as (a & <- & Ha). auto.
Qed.

Lemma history_scans (w : world) (user_id : pystr) (limit : Z) :
  History.scans (get_scan_history w user_id limit)
  = map summarise (listed w user_id limit).
Proof. reflexivity. Qed.

End Listing.

Lemma pystr_eqb_eq (s t : pystr) : Py.eqb s t = true <-> s = t.
Proof.
  revert t. induction s as [|x s IH]; intros [|y t]; simpl;
    try (split; [discriminate | discriminate || tauto]); try tauto.
  rewrite andb_true_iff, N.eqb_eq, IH. split.
  - intros [-> ->]. reflexivity.
  - intros [= -> ->]. tauto.
Qed.

(** C7 (amended): for every user and every limit [N >= 0] (10 when the
    request gives none), the history listing answers with at most [N]
    entries, each the summary of a stored row of that user, ordered by
    [created_at] descending. *)
Theorem history_listing (w : world) (user_id : pystr) (limit : option Z)
    (Hlimit : (0 <= limit_or_default limit)%Z) :
  exists h,
    get_history w user_id limit = Status200 h
    /\ (Z.of_nat (length (History.scans h)) <= limit_or_default limit)%Z
    /\ (forall s, In s (History.scans h) ->
          exists r, In r (db w) /\ ScanResult.user_id r = user_id
                    /\ s = summarise r)
    /\ StronglySorted
         (fun a b => (ScanSummary.created_at b <= ScanSummary.created_at a)%Z)
         (History.scans h).
Proof.
  exists (get_scan_history w user_id (limit_or_default limit)).
  split; [reflexivity|].
  rewrite history_scans. unfold listed. repeat split.
  - rewrite length_map, sql_limit_length by assumption. lia.
  - intros s Hs. apply in_map_iff in Hs. destruct Hs as (r & <- & Hr).
    apply sql_limit_incl, order_by_In, filter_In in Hr.
    destruct Hr as [Hr Hu]. apply pystr_eqb_eq in Hu. eauto.
  - apply map_sorted with (R := newer_first); [intros a b H; exact H|].
    apply sql_limit_sorted, order_by_sorted.
Qed.

Lemma history_listing_witness :
  exists h,
    get_history sample_world (lit "u1") (Some 2%Z) = Status200 h
    /\ (Z.of_nat (length (History.scans h)) <= 2)%Z
    /\ (forall s, In s (History.scans h) ->
          exists r, In r (db sample_world)
                    /\ ScanResult.user_id r = lit "u1" /\ s = summarise r)
    /\ StronglySorted
         (fun a b => (ScanSummary.created_at b <= ScanSummary.created_at a)%Z)
         (History.scans h).
Proof.
  apply (history_listing sample_world (lit "u1") (Some 2%Z)).
  unfold limit_or_default. lia.
Defined.

(** C7 as stated fails for a negative limit: [limit = -1] lists all three
    scans of [u1]. *)
Lemma history_listing_negative_limit :
  map ScanSummary.scan_id
    (History.scans (get_scan_history sample_world (lit "u1") (-1)))
  = [3; 4; 1]%Z
  /\ (Z.of_nat (length (History.scans
                          (get_scan_history sample_world (lit "u1") (-1))))
      <=? -1)%Z = false.
Proof. split; reflexivity. Qed.

(** C8: every entry of the history listing belongs to a stored row; its
    [ad_copy_preview] is the row's [ad_copy] verbatim when that has at
    most 100 characters, and otherwise its first 100 characters followed
    by the marker ["..."]. *)
Theorem history_preview (w : world) (user_id : pystr) (limit : Z)
    (s : ScanSummary.t)
    (Hs : In s (History.scans (get_scan_history w user_id limit))) :
  exists r,
    In r (db w) /\ ScanSummary.scan_id s = ScanResult.id r
    /\ ((length (ScanResult.ad_copy r) <= 100
         /\ ScanSummary.ad_copy_preview s = ScanResult.ad_copy r)
        \/ (100 < length (ScanResult.ad_copy r)
            /\ ScanSummary.ad_copy_preview s
               = firstn 100 (ScanResult.ad_copy r) ++ lit "..."
            /\ length (ScanSummary.ad_copy_preview s) = 103)).
Proof.
  rewrite history_scans in Hs. apply in_map_iff in Hs.
  destruct Hs as (r & <- & Hr).
  apply sql_limit_incl, order_by_In, filter_In in Hr. destruct Hr as [Hr _].
  exists r. repeat split; trivial. simpl. unfold ad_copy_preview.
  destruct (100 <? length (ScanResult.ad_copy r)) eqn:E.
  - apply Nat.ltb_lt in E. right. repeat split; trivial.
    rewrite length_app, length_firstn.
    change (length ellipsis) with 3. lia.
  - apply Nat.ltb_ge in E. left. split; trivial.
Qed.

Lemma history_preview_witness :
  exists r,
    In r (db sample_world)
    /\ ScanSummary.scan_id (summarise (sample_row 3 (lit "u1") long_ad_copy 300))
       = ScanResult.id r
    /\ ((length (ScanResult.ad_copy r) <= 100
         /\ ScanSummary.ad_copy_preview
              (summarise (sample_row 3 (lit "u1") long_ad_copy 300))
            = ScanResult.ad_copy r)
        \/ (100 < length (ScanResult.ad_copy r)
            /\ ScanSummary.ad_copy_preview
                 (summarise (sample_row 3 (lit "u1") long_ad_copy 300))
               = firstn 100 (ScanResult.ad_copy r) ++ lit "..."
            /\ length (ScanSummary.ad_copy_preview
                         (summarise (sample_row 3 (lit "u1") long_ad_copy 300)))
               = 103)).
Proof.
  apply (history_preview sample_world (lit "u1") 10).
  simpl. left. reflexivity.
Defined.

(** C10 (amended): [total_scans] is the length of the returned list; for
    a limit [N >= 0] and a user with more than [N] stored scans it
    equals [N], not the number of scans stored. *)
Theorem total_scans_capped (w : world) (user_id : pystr) (limit : Z)
    (Hlimit : (0 <= limit)%Z)
    (Hmore : (limit < Z.of_nat (length (filter
                (fun r => Py.eqb (ScanResult.user_id r) user_id) (db w))))%Z) :
  History.total_scans (get_scan_history w user_id limit)
  = Z.of_nat (length (History.scans (get_scan_history w user_id limit)))
  /\ History.total_scans (get_scan_history w user_id limit) = limit.
Proof.
  rewrite history_scans, length_map. simpl. fold (listed w user_id limit).
  split; trivial. unfold listed.
  rewrite sql_limit_length, order_by_length by assumption. lia.
Qed.

Lemma total_scans_capped_witness :
  History.total_scans (get_scan_history sample_world (lit "u1") 2)
  = Z.of_nat (length (History.scans
                        (get_scan_history sample_world (lit "u1") 2)))
  /\ History.total_scans (get_scan_history sample_world (lit "u1") 2) = 2%Z.
Proof.
  apply (total_scans_capped sample_world (lit "u1") 2); simpl; lia.
Defined.

(** C10 as stated fails for a negative limit: [u1] has more than [-1]
    scans, and [total_scans] is 3. *)
Lemma total_scans_negative_limit :
  History.total_scans (get_scan_history sample_world (lit "u1") (-1)) = 3%Z
  /\ length (filter (fun r => Py.eqb (ScanResult.user_id r) (lit "u1"))
               (db sample_world)) = 3.
Proof. split; reflexivity. Qed.

(** ** Input errors *)



(** With a non-empty [ad_copy] the classifier is called, once. *)
Lemma scan_calls_classifier (isprintable : codepoint -> bool) (w : world)
    (now : Z) (remote : outcome) (form : scan_form) (c : codepoint)
    (ad_copy : pystr) :
  form_ad_copy form = Some (c :: ad_copy) ->
  calls (fst (post_scan isprintable w now remote form))
  = calls w ++ [messages_content (c :: ad_copy)
                  (option_map content (form_image form))].
Proof.
  intros H. unfold post_scan. rewrite H. simpl form_value. cbv iota.
  unfold scan_ad.
  repeat match goal with
         | |- context [match getitem ?i ?a ?k with _ => _ end] =>
             destruct (getitem i a k)
         end; reflexivity.
Qed.

(** ** The degraded result *)

Lemma scan_ad_fallback (isprintable : codepoint -> bool) (w : world)
    (now : Z) (remote : outcome) (e : exn) (ad_copy user_id : pystr)
    (image : option UploadFile) :
  analyze_with_ai remote = fallback e ->
  exists row,
    scan_ad isprintable w now remote ad_copy user_id image
    = ({| db := db w ++ [row];
          calls := calls w
                   ++ [messages_content ad_copy (option_map content image)] |},
       inr (degraded_response (next_id (db w)) e))
    /\ ScanResult.id row = next_id (db w)
    /\ ScanResult.user_id row = user_id
    /\ ScanResult.ad_copy row = ad_copy
    /\ ScanResult.created_at row = now.
Proof.
  intros H. unfold scan_ad. rewrite H.
  eexists. split; [reflexivity|]. repeat split.
Qed.

(** ** Extraction *)

Lemma analyze_with_ai_loads (response_text : pystr) :
  analyze_with_ai (Text response_text)
  = match Json.loads (json_str response_text) with
    | inr result => result
    | inl e => fallback e
    end.
Proof. reflexivity. Qed.

Lemma getitem_error_class (isprintable : codepoint -> bool) (analysis : obj)
    (key : pystr) (e : exn) :
  getitem isprintable analysis key = inl e ->
  exn_class e = KeyError \/ exn_class e = TypeError.
Proof.
  destruct analysis; simpl; try (intros [= <-]; auto).
  destruct (dict_get d key); [discriminate|]. intros [= <-]. auto.
Qed.

Lemma respond_getitem_error {A} (isprintable : codepoint -> bool)
    (analysis : obj) (key : pystr) (e : exn) :
  getitem isprintable analysis key = inl e ->
  @respond A (inl e) = internal_server_error.
Proof.
  intros H. apply getitem_error_class in H. unfold respond.
  destruct H as [-> | ->]; reflexivity.
Qed.

(** The handler never sees an exception of [json.loads]: when the
    candidate payload is not valid JSON, [POST /scan] answers 200 with
    the degraded result and stores the scan; a payload that is valid
    JSON is handed on as decoded. *)
Lemma decode_errors_are_absorbed (isprintable : codepoint -> bool)
    (w : world) (now : Z) (response_text : pystr) (form : scan_form)
    (ad_copy : pystr) :
  form_value (form_ad_copy form) = Some ad_copy ->
  (forall e,
      Json.loads (json_str response_text) = inl e ->
      analyze_with_ai (Text response_text) = fallback e
      /\ exists w' row,
           post_scan isprintable w now (Text response_text) form
           = (w', Status200 (degraded_response (ScanResult.id row) e))
           /\ db w' = db w ++ [row])
  /\ (forall v,
        Json.loads (json_str response_text) = inr v ->
        analyze_with_ai (Text response_text) = v).
Proof.
  intros Had. repeat split.
  - rewrite analyze_with_ai_loads, H. reflexivity.
  - unfold post_scan. rewrite Had.
    edestruct (scan_ad_fallback isprintable w now (Text response_text) e
                 ad_copy) as (row & Hscan & Hid & _).
    { rewrite analyze_with_ai_loads, H. reflexivity. }
    rewrite Hscan, <- Hid. eexists _, row. split; reflexivity.
  - intros v H. rewrite analyze_with_ai_loads, H. reflexivity.
Qed.

(** C1 (defect): the fallback covers the remote call and [json.loads]
    only.  The reply [{}] is valid JSON and lacks every field: reading
    [analysis["compliance_score"]] raises outside the handler of
    [analyze_with_ai], [POST /scan] answers 500 and stores nothing.  The
    reply [no_list_reply] carries all five fields with a string where
    the list of violations belongs: its row is stored, the construction
    of the response raises, and [POST /scan] answers 500.  Neither reply
    is answered with the degraded result. *)
Theorem unchecked_reply_raises :
  Json.loads (json_str empty_object_reply) = inr (PyDict [])
  /\ post_scan ascii_only empty_world 400 (Text empty_object_reply) sample_form
     = ({| db := []; calls := [[TextPart (lit "Cures everything")]] |},
        internal_server_error)
  /\ getitem ascii_only (analyze_with_ai (Text no_list_reply)) key_violations
     = inr (PyStr (lit "none"))
  /\ snd (post_scan ascii_only empty_world 400 (Text no_list_reply)
            sample_form)
     = internal_server_error
  /\ map ScanResult.id
       (db (fst (post_scan ascii_only empty_world 400 (Text no_list_reply)
                   sample_form)))
     = [1%Z].
Proof. repeat split. Qed.

(** ** Score and level *)





(** ** Stored scans *)

Lemma get_scan_not_found (w : world) (scan_id : Z) :
  first_by_id (db w) scan_id = None ->
  get_scan_details w scan_id = inl not_found
  /\ get_scan w scan_id = StatusError 404 (lit "Scan not found").
Proof.
  intros H. unfold get_scan, get_scan_details. rewrite H. split; reflexivity.
Qed.

Lemma first_by_id_None (rows : list ScanResult.t) (scan_id : Z) :
  first_by_id rows scan_id = None
  <-> forall r, In r rows -> ScanResult.id r <> scan_id.
Proof.
  unfold first_by_id. split.
  - intros H r Hr E.
    apply (find_none _ _ H) in Hr. apply Z.eqb_neq in Hr. contradiction.
  - intros H. induction rows as [|x rows IH]; simpl; trivial.
    destruct (Z.eqb_spec (ScanResult.id x) scan_id) as [E|E].
    + exfalso. apply (H x); simpl; auto.
    + apply IH. intros r Hr. apply H. simpl. auto.
Qed.

Lemma get_scan_found (w : world) (scan_id : Z) (scan : ScanResult.t)
    (violations recommendations : obj) :
  first_by_id (db w) scan_id = Some scan ->
  Ast.literal_eval (ScanResult.violations scan) = inr violations ->
  Ast.literal_eval (ScanResult.recommendations scan) = inr recommendations ->
  get_scan w scan_id
  = Status200
      {| ScanDetails.scan_id := scan_id;
         ScanDetails.ad_copy := ScanResult.ad_copy scan;
         ScanDetails.compliance_score := ScanResult.compliance_score scan;
         ScanDetails.risk_level := ScanResult.risk_level scan;
         ScanDetails.violations := violations;
         ScanDetails.recommendations := recommendations;
         ScanDetails.created_at := ScanResult.created_at scan |}.
Proof.
  intros Hf Hv Hr. unfold get_scan, get_scan_details.
  rewrite Hf, Hv, Hr. simpl.
  apply find_some in Hf. destruct Hf as [_ Hid]. apply Z.eqb_eq in Hid.
  rewrite Hid. reflexivity.
Qed.

(** C3 (defect): [nan_reply] is answered 200 by [POST /scan] and its
    violations are stored as the text [str] writes for them, in which the
    float reads [nan]; [ast.literal_eval] refuses that text, so
    [GET /scan/1] raises instead of returning the violations that were
    stored. *)
Theorem nan_violations_do_not_round_trip :
  getitem ascii_only (analyze_with_ai (Text nan_reply)) key_violations
  = inr nan_violations
  /\ (exists resp,
        snd (post_scan ascii_only empty_world 400 (Text nan_reply) sample_form)
        = Status200 resp
        /\ ScanResponse.scan_id resp = 1%Z)
  /\ map ScanResult.violations (db nan_world) = [nan_violations_text]
  /\ Repr.str ascii_only nan_violations = nan_violations_text
  /\ Ast.literal_eval_with (Json.fuel_for nan_violations_text)
       nan_violations_text
     = Some (inl Ast.malformed_node)
  /\ get_scan_details nan_world 1 = inl Ast.malformed_node.
Proof.
  split; [reflexivity|]. split; [eexists; split; reflexivity|].
  repeat split.
Qed.

(** C9 (defect): the scan with id 1 is stored in [nan_world], yet
    [GET /scan/1] answers neither with that record nor with 404: reading
    the stored violations back raises and the request fails with 500. *)
Theorem stored_scan_not_returned :
  option_map ScanResult.id (first_by_id (db nan_world) 1) = Some 1%Z
  /\ option_map ScanResult.ad_copy (first_by_id (db nan_world) 1)
     = Some (lit "Cures everything")
  /\ get_scan nan_world 1 = internal_server_error.
Proof. repeat split. Qed.

(** ** The regular expressions *)

Section Regex.

Context {A : Type} (k : pystr -> option A).

Lemma star_lazy_none (s : pystr) :
  Re.star_lazy k s = None ->
  forall t1 s1, s = t1 ++ s1 -> k s1 = None.
Proof.
  induction s as [|x s IH]; simpl.
  - destruct (k []) eqn:E; [discriminate|].
    intros _ t1 s1 H. symmetry in H. apply app_eq_nil in H.
    destruct H as [_ ->]. exact E.
  - destruct (k (x :: s)) eqn:E; [discriminate|].
    destruct (Re.star_lazy k s) as [[t a]|] eqn:Es; [discriminate|].
    intros _ [|y t1] s1 H; simpl in H.
    + subst s1. exact E.
    + injection H as _ H. eapply IH; eauto.
Qed.

Lemma star_lazy_some (s t : pystr) (a : A) :
  Re.star_lazy k s = Some (t, a) ->
  exists s',
    s = t ++ s' /\ k s' = Some a
    /\ forall t1 s1, s = t1 ++ s1 -> length t1 < length t -> k s1 = None.
Proof.
  revert t. induction s as [|x s IH]; intros t; simpl.
  - destruct (k []) eqn:E; [|discriminate]. intros [= <- <-].
    exists []. repeat split; trivial. simpl. intros; lia.
  - destruct (k (x :: s)) eqn:E.
    + intros [= <- <-]. exists (x :: s). repeat split; trivial.
      simpl. intros; lia.
    + destruct (Re.star_lazy k s) as [[t0 a0]|] eqn:Es; [|discriminate].
      intros [= <- <-]. destruct (IH t0 eq_refl) as (s' & -> & Hk & Hmin).
      exists s'. repeat split; trivial.
      intros [|y t1] s1 H Hlen; simpl in *.
      * subst s1. exact E.
      * injection H as _ H. apply (Hmin t1 s1 H). lia.
Qed.

Lemma star_greedy_none (s : pystr) :
  Re.star_greedy k s = None ->
  forall t1 s1, s = t1 ++ s1 -> k s1 = None.
Proof.
  induction s as [|x s IH]; simpl.
  - destruct (k []) eqn:E; [discriminate|].
    intros _ t1 s1 H. symmetry in H. apply app_eq_nil in H.
    destruct H as [_ ->]. exact E.
  - destruct (Re.star_greedy k s) as [[t a]|] eqn:Es; [discriminate|].
    destruct (k (x :: s)) eqn:E; [discriminate|].
    intros _ [|y t1] s1 H; simpl in H.
    + subst s1. exact E.
    + injection H as _ H. eapply IH; eauto.
Qed.

Lemma star_greedy_some (s t : pystr) (a : A) :
  Re.star_greedy k s = Some (t, a) ->
  exists s',
    s = t ++ s' /\ k s' = Some a
    /\ forall t1 s1, s = t1 ++ s1 -> length t < length t1 -> k s1 = None.
Proof.
  revert t. induction s as [|x s IH]; intros t; simpl.
  - destruct (k []) eqn:E; [|discriminate]. intros [= <- <-].
    exists []. repeat split; trivial.
    intros t1 s1 H Hlen. symmetry in H. apply app_eq_nil in H.
    destruct H as [-> _]. simpl in Hlen. lia.
  - destruct (Re.star_greedy k s) as [[t0 a0]|] eqn:Es.
    + intros [= <- <-]. destruct (IH t0 eq_refl) as (s' & -> & Hk & Hmax).
      exists s'. repeat split; trivial.
      intros [|y t1] s1 H Hlen; simpl in *; [lia|].
      injection H as _ H. apply (Hmax t1 s1 H). lia.
    + destruct (k (x :: s)) eqn:E; [|discriminate].
      intros [= <- <-]. exists (x :: s). repeat split; trivial.
      intros [|y t1] s1 H Hlen; simpl in *; [lia|].
      injection H as _ H. eapply star_greedy_none; eauto.
Qed.

End Regex.

Lemma match_chars_inv (w : pystr) (p : Re.pattern) (s m : pystr)
    (gs : list pystr) :
  Re.match_here (Re.chars w ++ p) s = Some (m, gs) ->
  exists s' m',
    s = w ++ s' /\ Re.match_here p s' = Some (m', gs) /\ m = w ++ m'.
Proof.
  revert s m. induction w as [|c w IH]; intros s m; simpl.
  - intros H. exists s, m. auto.
  - destruct s as [|x s]; [discriminate|].
    destruct (N.eqb_spec x c) as [->|]; [|discriminate].
    destruct (Re.match_here (Re.chars w ++ p) s) as [[m0 gs0]|] eqn:E;
      [|discriminate].
    intros [= <- <-]. destruct (IH _ _ E) as (s' & m' & -> & Hp & ->).
    exists s', m'. auto.
Qed.

Lemma match_chars_app (w : pystr) (p : Re.pattern) (s' : pystr) :
  Re.match_here (Re.chars w ++ p) (w ++ s')
  = match Re.match_here p s' with
    | Some (m, gs) => Some (w ++ m, gs)
    | None => None
    end.
Proof.
  induction w as [|c w IH]; simpl.
  - destruct (Re.match_here p s') as [[m gs]|]; reflexivity.
  - rewrite N.eqb_refl, IH.
    destruct (Re.match_here p s') as [[m gs]|]; reflexivity.
Qed.

Lemma search_from_none (p : Re.pattern) (pos : nat) (s : pystr) :
  Re.search_from p pos s = None ->
  forall pre rest, s = pre ++ rest -> Re.match_here p rest = None.
Proof.
  revert pos. induction s as [|x s IH]; intros pos; simpl.
  - destruct (Re.match_here p []) as [[m gs]|] eqn:E; [discriminate|].
    intros _ pre rest H. symmetry in H. apply app_eq_nil in H.
    destruct H as [_ ->]. exact E.
  - destruct (Re.match_here p (x :: s)) as [[m gs]|] eqn:E; [discriminate|].
    intros H [|y pre] rest Hs; simpl in Hs.
    + subst rest. exact E.
    + injection Hs as _ Hs. eapply IH; eauto.
Qed.

Lemma search_from_some (p : Re.pattern) (pos : nat) (s : pystr)
    (m : Re.match_object) :
  Re.search_from p pos s = Some m ->
  exists pre rest,
    s = pre ++ rest
    /\ Re.match_here p rest = Some (Re.group0 m, Re.groups m)
    /\ Re.m_start m = pos + length pre
    /\ forall pre1 rest1,
         s = pre1 ++ rest1 -> length pre1 < length pre ->
         Re.match_here p rest1 = None.
Proof.
  revert pos. induction s as [|x s IH]; intros pos; simpl.
  - destruct (Re.match_here p []) as [[m0 gs]|] eqn:E; [|discriminate].
    intros [= <-]. exists [], []. simpl.
    repeat split; trivial; intros; simpl in *; lia.
  - destruct (Re.match_here p (x :: s)) as [[m0 gs]|] eqn:E.
    + intros [= <-]. exists [], (x :: s). simpl.
      repeat split; trivial; intros; simpl in *; lia.
    + intros H. destruct (IH _ H) as (pre & rest & -> & Hm & Hstart & Hleft).
      exists (x :: pre), rest. simpl. repeat split; trivial; try lia.
      intros [|y pre1] rest1 Hs Hlen; simpl in *.
      * subst rest1. exact E.
      * injection Hs as _ Hs. apply (Hleft pre1 rest1 Hs). lia.
Qed.

Lemma match_delimiter (c s m : pystr) (gs : list pystr) :
  Re.match_here (Re.chars c) s = Some (m, gs) ->
  exists post, s = c ++ post /\ m = c /\ gs = [].
Proof.
  intros H. rewrite <- (app_nil_r (Re.chars c)) in H.
  apply match_chars_inv in H. destruct H as (post & m' & -> & Hm & ->).
  simpl in Hm. injection Hm as <- <-. exists post.
  rewrite app_nil_r. auto.
Qed.

Lemma match_delimiter_app (c post : pystr) :
  Re.match_here (Re.chars c) (c ++ post) = Some (c, []).
Proof.
  rewrite <- (app_nil_r (Re.chars c)), match_chars_app. simpl.
  rewrite app_nil_r. reflexivity.
Qed.

Lemma match_delimited_complete (lazy capture : bool) (o c inner post : pystr) :
  Re.match_here (delimited lazy capture o c) (o ++ inner ++ c ++ post) <> None.
Proof.
  unfold delimited. rewrite match_chars_app. simpl.
  destruct lazy.
  - destruct (Re.star_lazy (Re.match_here (Re.chars c)) (inner ++ c ++ post))
      as [[t [m gs]]|] eqn:E; [discriminate|].
    pose proof (star_lazy_none _ _ E inner (c ++ post) eq_refl) as H.
    rewrite match_delimiter_app in H. discriminate.
  - destruct (Re.star_greedy (Re.match_here (Re.chars c)) (inner ++ c ++ post))
      as [[t [m gs]]|] eqn:E; [discriminate|].
    pose proof (star_greedy_none _ _ E inner (c ++ post) eq_refl) as H.
    rewrite match_delimiter_app in H. discriminate.
Qed.

Lemma match_lazy_inv (capture : bool) (o c rest m : pystr) (gs : list pystr) :
  Re.match_here (delimited true capture o c) rest = Some (m, gs) ->
  exists inner post,
    rest = o ++ inner ++ c ++ post
    /\ m = o ++ inner ++ c
    /\ gs = (if capture then [inner] else [])
    /\ forall inner' post',
         rest = o ++ inner' ++ c ++ post' -> length inner <= length inner'.
Proof.
  unfold delimited. intros H. apply match_chars_inv in H.
  destruct H as (s' & m' & -> & H & ->). simpl in H.
  destruct (Re.star_lazy (Re.match_here (Re.chars c)) s')
    as [[t [m2 gs2]]|] eqn:E; [|discriminate].
  injection H as <- <-.
  apply star_lazy_some in E. destruct E as (s'' & -> & Hk & Hmin).
  apply match_delimiter in Hk. destruct Hk as (post & -> & -> & ->).
  exists t, post. repeat split; trivial.
  intros inner' post' Heq. apply app_inv_head in Heq.
  destruct (Nat.le_gt_cases (length t) (length inner')) as [Hle|Hlt]; trivial.
  pose proof (Hmin inner' (c ++ post') Heq Hlt) as Hnone.
  rewrite match_delimiter_app in Hnone. discriminate.
Qed.

Lemma match_greedy_inv (capture : bool) (o c rest m : pystr)
    (gs : list pystr) :
  Re.match_here (delimited false capture o c) rest = Some (m, gs) ->
  exists mid post,
    rest = o ++ mid ++ c ++ post
    /\ m = o ++ mid ++ c
    /\ forall mid' post',
         rest = o ++ mid' ++ c ++ post' -> length mid' <= length mid.
Proof.
  unfold delimited. intros H. apply match_chars_inv in H.
  destruct H as (s' & m' & -> & H & ->). simpl in H.
  destruct (Re.star_greedy (Re.match_here (Re.chars c)) s')
    as [[t [m2 gs2]]|] eqn:E; [|discriminate].
  injection H as <- <-.
  apply star_greedy_some in E. destruct E as (s'' & -> & Hk & Hmax).
  apply match_delimiter in Hk. destruct Hk as (post & -> & -> & ->).
  exists t, post. repeat split; trivial.
  intros mid' post' Heq. apply app_inv_head in Heq.
  destruct (Nat.le_gt_cases (length mid') (length t)) as [Hle|Hlt]; trivial.
  pose proof (Hmax mid' (c ++ post') Heq Hlt) as Hnone.
  rewrite match_delimiter_app in Hnone. discriminate.
Qed.

Lemma fence_re_delimited : fence_re = delimited true true fence_open fence_close.
Proof. reflexivity. Qed.

Lemma brace_re_delimited : brace_re = delimited false false [lbrace] [rbrace].
Proof. reflexivity. Qed.

Lemma search_fence_none (text : pystr) :
  Re.search fence_re text = None <-> ~ has_fence text.
Proof.
  split.
  - intros H (pre & inner & post & Heq).
    pose proof (search_from_none _ _ _ H pre _ Heq) as Hnone.
    rewrite fence_re_delimited in Hnone.
    exact (match_delimited_complete _ _ _ _ _ _ Hnone).
  - intros Hno. destruct (Re.search fence_re text) as [m|] eqn:E; trivial.
    exfalso. apply Hno. apply search_from_some in E.
    destruct E as (pre & rest & -> & Hm & _).
    rewrite fence_re_delimited in Hm. apply match_lazy_inv in Hm.
    destruct Hm as (inner & post & -> & _). exists pre, inner, post.
    reflexivity.
Qed.

Lemma search_brace_none (text : pystr) :
  Re.search brace_re text = None <-> ~ has_braces text.
Proof.
  split.
  - intros H (pre & mid & post & Heq).
    pose proof (search_from_none _ _ _ H pre _ Heq) as Hnone.
    rewrite brace_re_delimited in Hnone.
    exact (match_delimited_complete _ _ _ _ _ _ Hnone).
  - intros Hno. destruct (Re.search brace_re text) as [m|] eqn:E; trivial.
    exfalso. apply Hno. apply search_from_some in E.
    destruct E as (pre & rest & -> & Hm & _).
    rewrite brace_re_delimited in Hm. apply match_greedy_inv in Hm.
    destruct Hm as (mid & post & -> & _). exists pre, mid, post.
    reflexivity.
Qed.

Lemma app_length_inv {A} (a b c d : list A) :
  a ++ b = c ++ d -> length a = length c -> a = c /\ b = d.
Proof.
  revert c. induction a as [|x a IH]; intros [|y c]; simpl;
    try discriminate; auto.
  intros [= -> H] [= Hlen]. destruct (IH _ H Hlen) as [-> ->]. auto.
Qed.

(** C5: the candidate payload [json_str].  When the reply holds a fenced
    JSON block, the candidate is the content of the first one: the block
    opens at the leftmost opening fence that has a closing fence after
    it and ends at the first closing fence.  Otherwise, when the reply
    holds an opening brace with a closing brace after it, the candidate
    runs from the first opening brace to the last closing brace.
    Otherwise the candidate is the reply itself. *)
Theorem candidate_selection (text : pystr) :
  (has_fence text ->
   exists pre inner post,
     text = pre ++ fence_open ++ inner ++ fence_close ++ post
     /\ (forall pre' inner' post',
           text = pre' ++ fence_open ++ inner' ++ fence_close ++ post' ->
           length pre <= length pre'
           /\ (length pre = length pre' -> length inner <= length inner'))
     /\ json_str text = inner)
  /\ (~ has_fence text -> has_braces text ->
      exists pre mid post,
        text = pre ++ [lbrace] ++ mid ++ [rbrace] ++ post
        /\ ~ In lbrace pre /\ ~ In rbrace post
        /\ json_str text = [lbrace] ++ mid ++ [rbrace])
  /\ (~ has_fence text -> ~ has_braces text -> json_str text = text).
Proof.
  unfold json_str. split; [|split].
  - intros Hf.
    destruct (Re.search fence_re text) as [m|] eqn:E;
      [|apply search_fence_none in E; contradiction].
    apply search_from_some in E.
    destruct E as (pre & rest & Htext & Hm & _ & Hleft).
    rewrite fence_re_delimited in Hm, Hleft.
    apply match_lazy_inv in Hm.
    destruct Hm as (inner & post & -> & _ & Hgs & Hmin).
    exists pre, inner, post. split; [exact Htext|]. split.
    + intros pre' inner' post' Heq.
      destruct (Nat.le_gt_cases (length pre) (length pre')) as [Hle|Hlt].
      * split; trivial. intros Hlen. rewrite Htext in Heq.
        destruct (app_length_inv _ _ _ _ Heq Hlen) as [_ Hrest].
        eapply Hmin; eauto.
      * exfalso. pose proof (Hleft pre' _ Heq Hlt) as Hnone.
        exact (match_delimited_complete _ _ _ _ _ _ Hnone).
    + unfold Re.group. rewrite Hgs. reflexivity.
  - intros Hnf Hb. apply search_fence_none in Hnf. rewrite Hnf.
    destruct (Re.search brace_re text) as [m|] eqn:E;
      [|apply search_brace_none in E; contradiction].
    apply search_from_some in E.
    destruct E as (pre & rest & Htext & Hm & _ & Hleft).
    rewrite brace_re_delimited in Hm, Hleft.
    apply match_greedy_inv in Hm.
    destruct Hm as (mid & post & -> & Hg0 & Hmax).
    exists pre, mid, post. split; [exact Htext|]. repeat split.
    + intros Hin. apply in_split in Hin. destruct Hin as (p1 & p2 & ->).
      assert (Hlen : length p1 < length (p1 ++ lbrace :: p2))
        by (rewrite length_app; simpl; lia).
      assert (Heq : text
                    = p1 ++ [lbrace] ++ (p2 ++ [lbrace] ++ mid) ++ [rbrace]
                        ++ post)
        by (rewrite Htext; repeat rewrite <- app_assoc; reflexivity).
      pose proof (Hleft p1 _ Heq Hlen) as Hnone.
      exact (match_delimited_complete _ _ _ _ _ _ Hnone).
    + intros Hin. apply in_split in Hin. destruct Hin as (p1 & p2 & ->).
      assert (Heq : [lbrace] ++ mid ++ [rbrace] ++ p1 ++ rbrace :: p2
                    = [lbrace] ++ (mid ++ [rbrace] ++ p1) ++ [rbrace] ++ p2)
        by (repeat rewrite <- app_assoc; reflexivity).
      apply Hmax in Heq. repeat rewrite length_app in Heq. simpl in Heq. lia.
    + exact Hg0.
  - intros Hnf Hnb. apply search_fence_none in Hnf.
    apply search_brace_none in Hnb. rewrite Hnf, Hnb. reflexivity.
Qed.

Lemma candidate_selection_witness :
  (exists pre inner post,
     fenced_reply = pre ++ fence_open ++ inner ++ fence_close ++ post
     /\ (forall pre' inner' post',
           fenced_reply
           = pre' ++ fence_open ++ inner' ++ fence_close ++ post' ->
           length pre <= length pre'
           /\ (length pre = length pre' -> length inner <= length inner'))
     /\ json_str fenced_reply = inner)
  /\ (exists pre mid post,
        braces_reply = pre ++ [lbrace] ++ mid ++ [rbrace] ++ post
        /\ ~ In lbrace pre /\ ~ In rbrace post
        /\ json_str braces_reply = [lbrace] ++ mid ++ [rbrace])
  /\ json_str plain_reply = plain_reply.
Proof.
  split; [|split].
  - apply (proj1 (candidate_selection fenced_reply)).
    exists (lit "Here:"), (lit "{1}"), (lit " {x}"). reflexivity.
  - apply (proj1 (proj2 (candidate_selection braces_reply))).
    + apply search_fence_none. reflexivity.
    + exists (lit "x}"), (lit "a}{b"), (lit "y{"). reflexivity.
  - apply (proj2 (proj2 (candidate_selection plain_reply))).
    + apply search_fence_none. reflexivity.
    + apply search_brace_none. reflexivity.
Defined.

Example json_str_fenced : json_str fenced_reply = lit "{1}".
Proof. reflexivity. Qed.

Example json_str_braces : json_str braces_reply = lit "{a}{b}".
Proof. reflexivity. Qed.

Example json_str_plain : json_str plain_reply = plain_reply.
Proof. reflexivity. Qed.

(** ** The decoders come to an end *)

Ltac case_in H :=
  match type of H with
  | context [match ?x with _ => _ end] => destruct x eqn:?
  | context [if ?x then _ else _] => destruct x eqn:?
  end.

Lemma skip_ws_length (s : pystr) : length (Json.skip_ws s) <= length s.
Proof.
  induction s as [|c s IH]; simpl; trivial.
  destruct (Json.is_ws c); simpl; lia.
Qed.

Ltac skip_ws_bounds :=
  repeat match goal with
    | H : context [length (Json.skip_ws ?x)] |- _ =>
        let L := fresh "L" in
        pose proof (skip_ws_length x) as L;
        generalize dependent (Json.skip_ws x); intros
    | |- context [length (Json.skip_ws ?x)] =>
        let L := fresh "L" in
        pose proof (skip_ws_length x) as L;
        generalize dependent (Json.skip_ws x); intros
    end.

Ltac by_length := skip_ws_bounds; cbn [length] in *; lia.

Lemma span_digits_length (s ds rest : pystr) :
  Num.span_digits s = (ds, rest) -> length rest <= length s.
Proof.
  revert ds rest. induction s as [|c s IH]; simpl; intros ds rest.
  - intros [= <- <-]. trivial.
  - destruct (Num.is_digit c).
    + destruct (Num.span_digits s) as [ds0 rest0]. intros [= <- <-].
      specialize (IH _ _ eq_refl). lia.
    + intros [= <- <-]. simpl. lia.
Qed.

Lemma strip_prefix_length (w s rest : pystr) :
  Json.strip_prefix w s = Some rest -> length rest + length w = length s.
Proof.
  revert s. induction w as [|x w IH]; intros [|y s]; simpl;
    try (intros [= <-]; simpl; lia); try discriminate.
  destruct (N.eqb x y); [|discriminate]. intros H. apply IH in H. lia.
Qed.

Lemma keyword_length (w : string) (v v' : obj) (s rest : pystr) :
  Json.keyword w v s = Some (v', rest) ->
  length rest + length (lit w) = length s.
Proof.
  unfold Json.keyword.
  destruct (Json.strip_prefix (lit w) s) eqn:E; [|discriminate].
  intros [= <- <-]. now apply strip_prefix_length.
Qed.

Lemma constant_consumes (s : pystr) (v : obj) (rest : pystr) :
  Json.constant s = Some (v, rest) -> length rest < length s.
Proof.
  unfold Json.constant. destruct s as [|c s]; [discriminate|].
  intros H.
  repeat case_in H; try discriminate;
    apply keyword_length in H; simpl in *; lia.
Qed.

Lemma number_sign_length (s s1 : pystr) (negative : bool) :
  Json.number_sign s = (negative, s1) -> length s1 <= length s.
Proof.
  unfold Json.number_sign. destruct s as [|c s]; [intros [= <- <-]; trivial|].
  destruct (N.eqb c 45); intros [= <- <-]; simpl; lia.
Qed.

Lemma number_integer_consumes (s ds rest : pystr) :
  Json.number_integer s = Some (ds, rest) -> length rest < length s.
Proof.
  unfold Json.number_integer. destruct s as [|c s]; [discriminate|].
  destruct (N.eqb c 48); [intros [= <- <-]; simpl; lia|].
  destruct (Num.is_digit c); [|discriminate].
  destruct (Num.span_digits s) as [ds0 rest0] eqn:E. intros [= <- <-].
  apply span_digits_length in E. simpl. lia.
Qed.

Lemma number_fraction_length (s rest : pystr) (frac : option pystr) :
  Json.number_fraction s = (frac, rest) -> length rest <= length s.
Proof.
  unfold Json.number_fraction.
  destruct s as [|dot [|d s]]; try (intros [= <- <-]; trivial).
  destruct (N.eqb dot 46 && Num.is_digit d); [|intros [= <- <-]; trivial].
  destruct (Num.span_digits s) as [ds0 rest0] eqn:E. intros [= <- <-].
  apply span_digits_length in E. simpl. lia.
Qed.

Lemma exponent_sign_length (s rest : pystr) (negative : bool) :
  Json.exponent_sign s = (negative, rest) -> length rest <= length s.
Proof.
  unfold Json.exponent_sign. destruct s as [|c s]; [intros [= <- <-]; trivial|].
  destruct (N.eqb c 45); [intros [= <- <-]; simpl; lia|].
  destruct (N.eqb c 43); intros [= <- <-]; simpl; lia.
Qed.

Lemma number_exponent_length (s rest : pystr) (exp : option Z) :
  Json.number_exponent s = (exp, rest) -> length rest <= length s.
Proof.
  unfold Json.number_exponent. destruct s as [|e s]; [intros [= <- <-]; trivial|].
  destruct (N.eqb e 101 || N.eqb e 69); [|intros [= <- <-]; trivial].
  destruct (Json.exponent_sign s) as [neg s''] eqn:Es.
  destruct (Num.span_digits s'') as [[|d ds] rest0] eqn:E;
    intros [= <- <-]; trivial.
  apply exponent_sign_length in Es. apply span_digits_length in E.
  simpl. lia.
Qed.

Lemma match_number_consumes (s : pystr) (v : obj) (rest : pystr) :
  Json.match_number s = Some (v, rest) -> length rest < length s.
Proof.
  unfold Json.match_number.
  destruct (Json.number_sign s) as [negative s1] eqn:E1.
  destruct (Json.number_integer s1) as [[ds s2]|] eqn:E2; [|discriminate].
  destruct (Json.number_fraction s2) as [frac s3] eqn:E3.
  destruct (Json.number_exponent s3) as [exp s4] eqn:E4.
  intros [= <- <-].
  apply number_sign_length in E1. apply number_integer_consumes in E2.
  apply number_fraction_length in E3. apply number_exponent_length in E4.
  lia.
Qed.

Ltac break_in H :=
  repeat (cbv beta iota in H;
          match type of H with
          | context [match ?x with _ => _ end] => destruct x eqn:?
          | context [if ?x then _ else _] => destruct x eqn:?
          end; try discriminate).

Ltac use_IH IH :=
  repeat match goal with
    | E : Json.scanstring _ ?x = _ |- _ =>
        apply IH in E; [|cbn [length] in *; lia]
    end.

Lemma scanstring_consumes_bounded (begin : pystr) (n : nat) :
  forall s t rest,
    length s <= n ->
    Json.scanstring begin s = Json.Ok t rest -> length rest < length s.
Proof.
  induction n as [|n IH]; intros s t rest Hn H.
  - destruct s; [discriminate | simpl in Hn; lia].
  - destruct s as [|c s1]; [discriminate|].
    cbn [Json.scanstring] in H.
    break_in H; injection H as <- <-; subst; use_IH IH;
      cbn [length] in *; lia.
Qed.

Lemma scanstring_consumes (begin s t rest : pystr) :
  Json.scanstring begin s = Json.Ok t rest -> length rest < length s.
Proof. apply scanstring_consumes_bounded with (n := length s). trivial. Qed.

Lemma scanstring_fuel (begin s : pystr) :
  Json.scanstring begin s <> Json.OutOfFuel.
Proof.
  remember (length s) as n eqn:Hn. assert (Hle : length s <= n) by lia.
  clear Hn. revert s Hle.
  induction n as [|n IH]; intros s Hn H.
  - destruct s; [discriminate | simpl in Hn; lia].
  - destruct s as [|c s1]; [discriminate|].
    cbn [Json.scanstring] in H.
    break_in H; subst;
      match goal with
      | E : Json.scanstring begin ?x = Json.OutOfFuel |- _ =>
          apply IH in E; trivial; by_length
      end.
Qed.

Ltac json_lengths :=
  repeat match goal with
    | E : Json.skip_ws ?x = ?y |- _ =>
        let L := fresh "L" in
        pose proof (skip_ws_length x) as L; rewrite E in L; clear E
    | E : Json.scanstring _ _ = Json.Ok _ _ |- _ =>
        apply scanstring_consumes in E
    | E : Json.constant _ = Some _ |- _ => apply constant_consumes in E
    | E : Json.match_number _ = Some _ |- _ =>
        apply match_number_consumes in E
    end.

Lemma scan_consumes (fuel : nat) :
  (forall s v rest,
      Json.scan_once fuel s = Json.Ok v rest -> length rest < length s)
  /\ (forall s pairs v rest,
        Json.parse_object fuel s pairs = Json.Ok v rest ->
        length rest < length s)
  /\ (forall s values v rest,
        Json.parse_array fuel s values = Json.Ok v rest ->
        length rest < length s).
Proof.
  induction fuel as [|fuel (IHs & IHo & IHa)];
    [repeat split; intros; discriminate|].
  repeat split.
  - intros s v rest H. cbn [Json.scan_once] in H.
    break_in H; try injection H as <- <-; subst; json_lengths;
      repeat match goal with
        | E : Json.parse_object _ _ _ = Json.Ok _ _ |- _ => apply IHo in E
        | E : Json.parse_array _ _ _ = Json.Ok _ _ |- _ => apply IHa in E
        end; by_length.
  - intros s pairs v rest H. cbn [Json.parse_object] in H.
    break_in H; try injection H as <- <-; subst; json_lengths;
      repeat match goal with
        | E : Json.scan_once _ _ = Json.Ok _ _ |- _ => apply IHs in E
        | E : Json.parse_object _ _ _ = Json.Ok _ _ |- _ => apply IHo in E
        end; by_length.
  - intros s values v rest H. cbn [Json.parse_array] in H.
    break_in H; try injection H as <- <-; subst; json_lengths;
      repeat match goal with
        | E : Json.scan_once _ _ = Json.Ok _ _ |- _ => apply IHs in E
        | E : Json.parse_array _ _ _ = Json.Ok _ _ |- _ => apply IHa in E
        end; by_length.
Qed.

Lemma scan_fuel (fuel : nat) :
  (forall s, 2 * length s < fuel -> Json.scan_once fuel s <> Json.OutOfFuel)
  /\ (forall s pairs,
        2 * length s + 1 < fuel ->
        Json.parse_object fuel s pairs <> Json.OutOfFuel)
  /\ (forall s values,
        2 * length s + 1 < fuel ->
        Json.parse_array fuel s values <> Json.OutOfFuel).
Proof.
  induction fuel as [|fuel (IHs & IHo & IHa)];
    [repeat split; intros; lia|].
  destruct (scan_consumes fuel) as (Cs & Co & Ca).
  repeat split.
  - intros s Hs H. cbn [Json.scan_once] in H.
    break_in H; subst; json_lengths;
      match goal with
      | E : Json.scanstring _ _ = Json.OutOfFuel |- _ =>
          exact (scanstring_fuel _ _ E)
      | E : Json.parse_object _ _ _ = Json.OutOfFuel |- _ =>
          apply IHo in E; trivial; by_length
      | E : Json.parse_array _ _ _ = Json.OutOfFuel |- _ =>
          apply IHa in E; trivial; by_length
      end.
  - intros s pairs Hs H. cbn [Json.parse_object] in H.
    break_in H; subst; json_lengths;
      repeat match goal with
        | E : Json.scan_once _ _ = Json.Ok _ _ |- _ => apply Cs in E
        end;
      match goal with
      | E : Json.scanstring _ _ = Json.OutOfFuel |- _ =>
          exact (scanstring_fuel _ _ E)
      | E : Json.scan_once _ _ = Json.OutOfFuel |- _ =>
          apply IHs in E; trivial; by_length
      | E : Json.parse_object _ _ _ = Json.OutOfFuel |- _ =>
          apply IHo in E; trivial; by_length
      end.
  - intros s values Hs H. cbn [Json.parse_array] in H.
    break_in H; subst; json_lengths;
      repeat match goal with
        | E : Json.scan_once _ _ = Json.Ok _ _ |- _ => apply Cs in E
        end;
      match goal with
      | E : Json.scan_once _ _ = Json.OutOfFuel |- _ =>
          apply IHs in E; trivial; by_length
      | E : Json.parse_array _ _ _ = Json.OutOfFuel |- _ =>
          apply IHa in E; trivial; by_length
      end.
Qed.

(** [json.loads] always comes to an end within the fuel it is given:
    the value decoded or the error raised is never an artefact of the
    fuel. *)
Lemma loads_fuel (s : pystr) : Json.loads_with (Json.fuel_for s) s <> None.
Proof.
  unfold Json.loads_with, Json.fuel_for. intros H.
  break_in H.
  all: match goal with
       | E : Json.scan_once _ _ = Json.OutOfFuel |- _ =>
           apply (proj1 (scan_fuel _)) in E; trivial
       end.
  all: match goal with
       | |- 2 * length (Json.skip_ws ?x) < _ =>
           pose proof (skip_ws_length x); cbn [length] in *; lia
       end.
Qed.

Lemma skip_sp_length (s : pystr) : length (Ast.skip_sp s) <= length s.
Proof.
  induction s as [|c s IH]; simpl; trivial.
  destruct (N.eqb c 32); simpl; lia.
Qed.

Ltac skip_sp_bounds :=
  repeat match goal with
    | H : context [length (Ast.skip_sp ?x)] |- _ =>
        let L := fresh "L" in
        pose proof (skip_sp_length x) as L;
        generalize dependent (Ast.skip_sp x); intros
    | |- context [length (Ast.skip_sp ?x)] =>
        let L := fresh "L" in
        pose proof (skip_sp_length x) as L;
        generalize dependent (Ast.skip_sp x); intros
    end.

Ltac by_length_sp := skip_sp_bounds; cbn [length] in *; lia.

Lemma string_body_consumes_bounded (q : codepoint) (n : nat) :
  forall s t rest,
    length s <= n ->
    Ast.string_body q s = Some (t, rest) -> length rest < length s.
Proof.
  induction n as [|n IH]; intros s t rest Hn H.
  - destruct s; [discriminate | simpl in Hn; lia].
  - destruct s as [|c s1]; [discriminate|].
    cbn [Ast.string_body] in H. unfold Ast.cons_char in H.
    break_in H; try injection H as <- <-; subst;
      repeat match goal with
        | E : Ast.string_body _ ?x = _ |- _ =>
            apply IH in E; [|cbn [length] in *; lia]
        end; cbn [length] in *; lia.
Qed.

Lemma string_body_consumes (q : codepoint) (s t rest : pystr) :
  Ast.string_body q s = Some (t, rest) -> length rest < length s.
Proof. apply string_body_consumes_bounded with (n := length s). trivial. Qed.

Lemma atom_consumes (s : pystr) (v : obj) (rest : pystr) :
  Ast.atom s = Some (v, rest) -> length rest < length s.
Proof.
  unfold Ast.atom. destruct s as [|c s]; [discriminate|]. intros H.
  break_in H;
    try (apply keyword_length in H; cbn [length] in *; simpl in H; lia).
  now apply match_number_consumes in H.
Qed.

Ltac ast_lengths :=
  repeat match goal with
    | E : Ast.skip_sp ?x = ?y |- _ =>
        let L := fresh "L" in
        pose proof (skip_sp_length x) as L; rewrite E in L; clear E
    | E : Ast.string_body _ _ = Some _ |- _ =>
        apply string_body_consumes in E
    | E : Ast.atom _ = Some _ |- _ => apply atom_consumes in E
    end.

Lemma parse_consumes (fuel : nat) :
  (forall s v rest,
      Ast.parse fuel s = Json.Ok v rest -> length rest < length s)
  /\ (forall s values v rest,
        Ast.parse_items fuel s values = Json.Ok v rest ->
        length rest < length s)
  /\ (forall s pairs v rest,
        Ast.parse_pairs fuel s pairs = Json.Ok v rest ->
        length rest < length s).
Proof.
  induction fuel as [|fuel (IHs & IHa & IHo)];
    [repeat split; intros; discriminate|].
  repeat split.
  - intros s v rest H. cbn [Ast.parse] in H. unfold Ast.malformed in H.
    break_in H; try injection H as <- <-; subst; ast_lengths;
      repeat match goal with
        | E : Ast.parse_pairs _ _ _ = Json.Ok _ _ |- _ => apply IHo in E
        | E : Ast.parse_items _ _ _ = Json.Ok _ _ |- _ => apply IHa in E
        end; by_length_sp.
  - intros s values v rest H. cbn [Ast.parse_items] in H.
    unfold Ast.malformed in H.
    break_in H; try injection H as <- <-; subst; ast_lengths;
      repeat match goal with
        | E : Ast.parse _ _ = Json.Ok _ _ |- _ => apply IHs in E
        | E : Ast.parse_items _ _ _ = Json.Ok _ _ |- _ => apply IHa in E
        end; by_length_sp.
  - intros s pairs v rest H. cbn [Ast.parse_pairs] in H.
    unfold Ast.malformed in H.
    break_in H; try injection H as <- <-; subst; ast_lengths;
      repeat match goal with
        | E : Ast.parse _ _ = Json.Ok _ _ |- _ => apply IHs in E
        | E : Ast.parse_pairs _ _ _ = Json.Ok _ _ |- _ => apply IHo in E
        end; by_length_sp.
Qed.

Lemma parse_fuel (fuel : nat) :
  (forall s, 2 * length s < fuel -> Ast.parse fuel s <> Json.OutOfFuel)
  /\ (forall s values,
        2 * length s + 1 < fuel ->
        Ast.parse_items fuel s values <> Json.OutOfFuel)
  /\ (forall s pairs,
        2 * length s + 1 < fuel ->
        Ast.parse_pairs fuel s pairs <> Json.OutOfFuel).
Proof.
  induction fuel as [|fuel (IHs & IHa & IHo)];
    [repeat split; intros; lia|].
  destruct (parse_consumes fuel) as (Cs & Ca & Co).
  repeat split.
  - intros s Hs H. cbn [Ast.parse] in H. unfold Ast.malformed in H.
    break_in H; subst; ast_lengths;
      match goal with
      | E : Ast.parse_pairs _ _ _ = Json.OutOfFuel |- _ =>
          apply IHo in E; trivial; by_length_sp
      | E : Ast.parse_items _ _ _ = Json.OutOfFuel |- _ =>
          apply IHa in E; trivial; by_length_sp
      end.
  - intros s values Hs H. cbn [Ast.parse_items] in H.
    unfold Ast.malformed in H.
    break_in H; subst; ast_lengths;
      repeat match goal with
        | E : Ast.parse _ _ = Json.Ok _ _ |- _ => apply Cs in E
        end;
      match goal with
      | E : Ast.parse _ _ = Json.OutOfFuel |- _ =>
          apply IHs in E; trivial; by_length_sp
      | E : Ast.parse_items _ _ _ = Json.OutOfFuel |- _ =>
          apply IHa in E; trivial; by_length_sp
      end.
  - intros s pairs Hs H. cbn [Ast.parse_pairs] in H.
    unfold Ast.malformed in H.
    break_in H; subst; ast_lengths;
      repeat match goal with
        | E : Ast.parse _ _ = Json.Ok _ _ |- _ => apply Cs in E
        end;
      match goal with
      | E : Ast.parse _ _ = Json.OutOfFuel |- _ =>
          apply IHs in E; trivial; by_length_sp
      | E : Ast.parse_pairs _ _ _ = Json.OutOfFuel |- _ =>
          apply IHo in E; trivial; by_length_sp
      end.
Qed.

(** [ast.literal_eval] comes to an end within its fuel as well. *)
Lemma literal_eval_fuel (s : pystr) :
  Ast.literal_eval_with (Json.fuel_for s) s <> None.
Proof.
  unfold Ast.literal_eval_with, Json.fuel_for. intros H.
  break_in H.
  match goal with
  | E : Ast.parse _ _ = Json.OutOfFuel |- _ =>
      apply (proj1 (parse_fuel _)) in E; trivial
  end.
  pose proof (skip_sp_length s). lia.
Qed.

Lemma loads_genuine (s : pystr) :
  Json.loads_with (Json.fuel_for s) s = Some (Json.loads s).
Proof.
  unfold Json.loads. pose proof (loads_fuel s) as H.
  destruct (Json.loads_with (Json.fuel_for s) s); [reflexivity|contradiction].
Qed.

Lemma literal_eval_genuine (s : pystr) :
  Ast.literal_eval_with (Json.fuel_for s) s = Some (Ast.literal_eval s).
Proof.
  unfold Ast.literal_eval. pose proof (literal_eval_fuel s) as H.
  destruct (Ast.literal_eval_with (Json.fuel_for s) s);
    [reflexivity|contradiction].
Qed.

(** ** Numerals *)

Lemma of_digits_fold (ds : pystr) :
  Num.of_digits ds = fold_left digit_step ds 0%N.
Proof. reflexivity. Qed.

Lemma to_digits_aux_spec (fuel : nat) :
  forall n acc,
    fuel <> 0 -> (n < 2 ^ N.of_nat fuel)%N ->
    exists ds,
      Num.to_digits_aux fuel n acc = ds ++ acc
      /\ Forall (fun c => Num.is_digit c = true) ds
      /\ (forall a, fold_left digit_step ds a
                    = (a * 10 ^ N.of_nat (length ds) + n)%N)
      /\ (exists d t, ds = d :: t /\ (n <> 0%N -> d <> 48%N)
                      /\ (n = 0%N -> ds = [48%N])).
Proof.
  induction fuel as [|fuel IH]; intros n acc Hfuel Hn; [contradiction|].
  clear Hfuel.
  - cbn [Num.to_digits_aux]. destruct (N.ltb_spec n 10) as [Hlt|Hge].
    + exists [(48 + n)%N]. repeat split.
      * constructor; [|constructor]. unfold Num.is_digit.
        apply andb_true_iff. split; apply N.leb_le; lia.
      * intros a. cbn [fold_left length]. unfold digit_step.
        change (10 ^ N.of_nat 1)%N with 10%N. lia.
      * exists (48 + n)%N, []. repeat split; [lia|]. intros ->. reflexivity.
    + assert (Hdiv : (n / 10 < 2 ^ N.of_nat fuel)%N).
      { rewrite Nat2N.inj_succ, N.pow_succ_r' in Hn.
        apply N.Div0.div_lt_upper_bound. lia. }
      assert (Hfuel : fuel <> 0).
      { intros ->. simpl in Hn. lia. }
      destruct (IH (n / 10)%N ((48 + n mod 10)%N :: acc) Hfuel Hdiv)
        as (ds & Heq & Hdig & Hval & d & t & -> & Hd & _).
      exists ((d :: t) ++ [(48 + n mod 10)%N]). repeat split.
      * rewrite Heq, <- app_assoc. reflexivity.
      * apply Forall_app. split; trivial. constructor; [|constructor].
        unfold Num.is_digit. apply andb_true_iff.
        assert (n mod 10 < 10)%N by (apply N.mod_upper_bound; lia).
        generalize dependent (n mod 10)%N. intros m _ Hm.
        split; apply N.leb_le; lia.
      * intros a. rewrite fold_left_app, Hval, length_app.
        change (length [(48 + n mod 10)%N]) with 1.
        rewrite Nat.add_1_r, Nat2N.inj_succ, N.pow_succ_r'.
        cbn [fold_left]. unfold digit_step.
        assert (n mod 10 < 10)%N by (apply N.mod_upper_bound; lia).
        assert (n = 10 * (n / 10) + n mod 10)%N by (apply N.div_mod; lia).
        generalize dependent (10 ^ N.of_nat (length (d :: t)))%N.
        generalize dependent (n mod 10)%N. generalize dependent (n / 10)%N.
        intros. nia.
      * exists d, (t ++ [(48 + n mod 10)%N]). repeat split.
        -- intros _. apply Hd. intros Hz.
           assert (n < 10)%N; [|lia].
           apply N.div_small_iff in Hz; lia.
        -- intros ->. simpl in Hge. lia.
Qed.

Lemma to_digits_spec (n : N) :
  exists d t,
    Num.to_digits n = d :: t
    /\ Forall (fun c => Num.is_digit c = true) (d :: t)
    /\ Num.of_digits (d :: t) = n
    /\ (n <> 0%N -> d <> 48%N)
    /\ (n = 0%N -> d = 48%N /\ t = []).
Proof.
  unfold Num.to_digits.
  destruct (to_digits_aux_spec (S (N.to_nat (N.log2 n))) n [])
    as (ds & Heq & Hdig & Hval & d & t & -> & Hd & Hz).
  - discriminate.
  - rewrite Nat2N.inj_succ, N2Nat.id.
    destruct n as [|p]; [reflexivity|]. apply N.log2_spec. lia.
  - exists d, t. rewrite Heq, app_nil_r.
    split; [reflexivity|]. split; [exact Hdig|].
    split; [rewrite of_digits_fold, Hval; lia|].
    split; [exact Hd|].
    intros Hn. specialize (Hz Hn). injection Hz as -> ->.
    split; reflexivity.
Qed.

Lemma span_digits_app (ds rest : pystr) :
  Forall (fun c => Num.is_digit c = true) ds ->
  ends_value rest ->
  Num.span_digits (ds ++ rest) = (ds, rest).
Proof.
  intros Hds Hrest. induction Hds as [|c ds Hc _ IH]; simpl.
  - destruct rest as [|c rest]; trivial. simpl in Hrest.
    destruct Hrest as [-> | [-> | ->]]; reflexivity.
  - rewrite Hc, IH. reflexivity.
Qed.

Lemma number_tail (rest : pystr) :
  ends_value rest ->
  Json.number_fraction rest = (None, rest)
  /\ Json.number_exponent rest = (None, rest).
Proof.
  intros H. destruct rest as [|c rest]; [split; reflexivity|].
  simpl in H. unfold Json.number_fraction, Json.number_exponent.
  destruct H as [-> | [-> | ->]]; split; try reflexivity;
    destruct rest; reflexivity.
Qed.

Lemma number_integer_digits (n : N) (rest : pystr) :
  ends_value rest ->
  Json.number_integer (Num.to_digits n ++ rest)
  = Some (Num.to_digits n, rest).
Proof.
  intros Hrest.
  destruct (to_digits_spec n) as (d & t & Heq & Hdig & _ & Hnz & Hz).
  rewrite Heq. cbn [app Json.number_integer].
  inversion Hdig as [|? ? Hd Ht]; subst.
  destruct (N.eqb_spec d 48) as [->|Hne].
  - destruct (N.eq_dec n 0) as [->|Hn].
    + destruct (Hz eq_refl) as [_ ->]. reflexivity.
    + exfalso. now apply (Hnz Hn).
  - rewrite Hd, (span_digits_app t rest Ht Hrest). reflexivity.
Qed.

Lemma to_digits_head (n : N) :
  exists d t, Num.to_digits n = d :: t /\ Num.is_digit d = true.
Proof.
  destruct (to_digits_spec n) as (d & t & Heq & Hdig & _).
  exists d, t. split; trivial. now inversion Hdig.
Qed.

Lemma match_number_int (n : Z) (rest : pystr) :
  ends_value rest ->
  Json.match_number (Num.str_of_Z n ++ rest) = Some (PyInt n, rest).
Proof.
  intros Hrest. unfold Json.match_number, Num.str_of_Z.
  destruct (number_tail rest Hrest) as [Hf He].
  destruct (Z.ltb_spec n 0) as [Hneg|Hpos].
  - cbn [app Json.number_sign]. rewrite N.eqb_refl.
    rewrite (number_integer_digits _ _ Hrest), Hf, He.
    unfold Json.number_value.
    destruct (to_digits_spec (Z.abs_N n)) as (d & t & Heq & _ & Hv & _).
    rewrite Heq, Hv. repeat f_equal. lia.
  - destruct (to_digits_head (Z.abs_N n)) as (d & t & Heq & Hd).
    assert (Hsign : Json.number_sign (Num.to_digits (Z.abs_N n) ++ rest)
                    = (false, Num.to_digits (Z.abs_N n) ++ rest)).
    { rewrite Heq. cbn [app Json.number_sign].
      destruct (N.eqb_spec d 45) as [->|]; [discriminate|reflexivity]. }
    rewrite Hsign, (number_integer_digits _ _ Hrest), Hf, He.
    unfold Json.number_value.
    destruct (to_digits_spec (Z.abs_N n)) as (d' & t' & Heq' & _ & Hv & _).
    rewrite Heq', Hv. repeat f_equal. lia.
Qed.

Lemma atom_int (n : Z) (rest : pystr) :
  ends_value rest ->
  Ast.atom (Num.str_of_Z n ++ rest) = Some (PyInt n, rest).
Proof.
  intros Hrest. rewrite <- (match_number_int n rest Hrest).
  unfold Ast.atom, Num.str_of_Z.
  destruct (to_digits_head (Z.abs_N n)) as (d & t & Heq & Hd).
  rewrite Heq. unfold Num.is_digit in Hd. apply andb_true_iff in Hd.
  destruct Hd as [Hlo Hhi]. apply N.leb_le in Hlo, Hhi.
  destruct (n <? 0)%Z; cbn [app].
  - reflexivity.
  - destruct (N.eqb_spec d 78); [lia|].
    destruct (N.eqb_spec d 84); [lia|].
    destruct (N.eqb_spec d 70); [lia|]. reflexivity.
Qed.

(** ** Escapes *)

Lemma hexval_hexdigit (x : N) :
  (x < 16)%N -> Num.hexval (Num.hexdigit x) = Some x.
Proof.
  intros Hx. unfold Num.hexdigit, Num.hexval.
  destruct (N.ltb_spec x 10).
  - replace ((48 <=? 48 + x)%N && (48 + x <=? 57)%N) with true.
    + f_equal. lia.
    + symmetry. apply andb_true_iff. split; apply N.leb_le; lia.
  - replace ((48 <=? 87 + x)%N && (87 + x <=? 57)%N) with false.
    + replace ((97 <=? 87 + x)%N && (87 + x <=? 102)%N) with true.
      * f_equal. lia.
      * symmetry. apply andb_true_iff. split; apply N.leb_le; lia.
    + symmetry. apply andb_false_iff. right. apply N.leb_gt. lia.
Qed.

Lemma div16 (n : N) :
  (n = 16 * (n / 16) + n mod 16 /\ n mod 16 < 16)%N.
Proof.
  split; [apply N.div_mod; lia | apply N.mod_upper_bound; lia].
Qed.

Lemma hex2_to_hex (c : N) (tail : pystr) :
  (c < 256)%N ->
  exists a b, Num.to_hex 2 c ++ tail = a :: b :: tail /\ Ast.hex2 a b = Some c.
Proof.
  intros Hc. cbn [Num.to_hex app]. eexists _, _. split; [reflexivity|].
  unfold Ast.hex2.
  destruct (div16 c) as [E0 B0]. destruct (div16 (c / 16)) as [E1 B1].
  rewrite !hexval_hexdigit by assumption. f_equal.
  generalize dependent (c / 16 / 16)%N. generalize dependent (c / 16 mod 16)%N.
  generalize dependent (c / 16)%N. generalize dependent (c mod 16)%N.
  intros. lia.
Qed.

Lemma hex4_value (c : N) :
  (c < 65536)%N ->
  Num.hex4 (Num.hexdigit (c / 16 / 16 / 16 mod 16))
    (Num.hexdigit (c / 16 / 16 mod 16)) (Num.hexdigit (c / 16 mod 16))
    (Num.hexdigit (c mod 16)) = Some c.
Proof.
  intros Hc. unfold Num.hex4.
  destruct (div16 c) as [E0 B0]. destruct (div16 (c / 16)) as [E1 B1].
  destruct (div16 (c / 16 / 16)) as [E2 B2].
  destruct (div16 (c / 16 / 16 / 16)) as [E3 B3].
  rewrite !hexval_hexdigit by assumption. f_equal.
  generalize dependent (c / 16 / 16 / 16 / 16)%N.
  generalize dependent (c / 16 / 16 / 16 mod 16)%N.
  generalize dependent (c / 16 / 16 / 16)%N.
  generalize dependent (c / 16 / 16 mod 16)%N.
  generalize dependent (c / 16 / 16)%N.
  generalize dependent (c / 16 mod 16)%N.
  generalize dependent (c / 16)%N. generalize dependent (c mod 16)%N.
  intros. lia.
Qed.

Lemma hex4_to_hex (c : N) (tail : pystr) :
  (c < 65536)%N ->
  exists a b c' d,
    Num.to_hex 4 c ++ tail = a :: b :: c' :: d :: tail
    /\ Num.hex4 a b c' d = Some c.
Proof.
  intros Hc. cbn [Num.to_hex app]. eexists _, _, _, _.
  split; [reflexivity|]. now apply hex4_value.
Qed.

Lemma hex8_to_hex (c : N) (tail : pystr) :
  (c <= 1114111)%N ->
  exists a b c' d e f g h,
    Num.to_hex 8 c ++ tail = a :: b :: c' :: d :: e :: f :: g :: h :: tail
    /\ Ast.hex8 a b c' d e f g h = Some c.
Proof.
  intros Hc. cbn [Num.to_hex app]. eexists _, _, _, _, _, _, _, _.
  split; [reflexivity|]. unfold Ast.hex8, Num.hex4.
  destruct (div16 c) as [E0 B0]. destruct (div16 (c / 16)) as [E1 B1].
  destruct (div16 (c / 16 / 16)) as [E2 B2].
  destruct (div16 (c / 16 / 16 / 16)) as [E3 B3].
  destruct (div16 (c / 16 / 16 / 16 / 16)) as [E4 B4].
  destruct (div16 (c / 16 / 16 / 16 / 16 / 16)) as [E5 B5].
  destruct (div16 (c / 16 / 16 / 16 / 16 / 16 / 16)) as [E6 B6].
  destruct (div16 (c / 16 / 16 / 16 / 16 / 16 / 16 / 16)) as [E7 B7].
  rewrite !hexval_hexdigit by assumption.
  generalize dependent (c / 16 / 16 / 16 / 16 / 16 / 16 / 16 / 16)%N.
  generalize dependent (c / 16 / 16 / 16 / 16 / 16 / 16 / 16 mod 16)%N.
  generalize dependent (c / 16 / 16 / 16 / 16 / 16 / 16 / 16)%N.
  generalize dependent (c / 16 / 16 / 16 / 16 / 16 / 16 mod 16)%N.
  generalize dependent (c / 16 / 16 / 16 / 16 / 16 / 16)%N.
  generalize dependent (c / 16 / 16 / 16 / 16 / 16 mod 16)%N.
  generalize dependent (c / 16 / 16 / 16 / 16 / 16)%N.
  generalize dependent (c / 16 / 16 / 16 / 16 mod 16)%N.
  generalize dependent (c / 16 / 16 / 16 / 16)%N.
  generalize dependent (c / 16 / 16 / 16 mod 16)%N.
  generalize dependent (c / 16 / 16 / 16)%N.
  generalize dependent (c / 16 / 16 mod 16)%N.
  generalize dependent (c / 16 / 16)%N.
  generalize dependent (c / 16 mod 16)%N.
  generalize dependent (c / 16)%N. generalize dependent (c mod 16)%N.
  intros.
  match goal with
  | |- (if (?u <=? _)%N then _ else _) = _ => assert (Hu : u = c) by lia
  end.
  rewrite Hu. destruct (N.leb_spec c 1114111); [reflexivity|lia].
Qed.

Ltac decide_eqb :=
  repeat match goal with
    | H : (_ =? _)%N = true |- _ => apply N.eqb_eq in H
    | H : (_ =? _)%N = false |- _ => apply N.eqb_neq in H
    | H : (_ <? _)%N = true |- _ => apply N.ltb_lt in H
    | H : (_ <? _)%N = false |- _ => apply N.ltb_ge in H
    | H : (_ <=? _)%N = true |- _ => apply N.leb_le in H
    | H : (_ <=? _)%N = false |- _ => apply N.leb_gt in H
    | H : _ || _ = true |- _ => apply orb_true_iff in H; destruct H as [H|H]
    | H : _ || _ = false |- _ => apply orb_false_iff in H; destruct H as [? H]
    | H : _ && _ = true |- _ => apply andb_true_iff in H; destruct H as [? H]
    end.

Lemma escape_x (q c : codepoint) (tail : pystr) :
  q = 34%N \/ q = 39%N -> (c < 256)%N ->
  Ast.string_body q ((lit "\x" ++ Num.to_hex 2 c) ++ tail)
  = Ast.cons_char c (Ast.string_body q tail).
Proof.
  intros Hq Hc. rewrite <- app_assoc.
  destruct (hex2_to_hex c tail Hc) as (a & b & -> & Hv).
  destruct Hq as [-> | ->]; cbn; rewrite Hv; reflexivity.
Qed.

Lemma escape_u (q c : codepoint) (tail : pystr) :
  q = 34%N \/ q = 39%N -> (c < 65536)%N ->
  Ast.string_body q ((lit "\u" ++ Num.to_hex 4 c) ++ tail)
  = Ast.cons_char c (Ast.string_body q tail).
Proof.
  intros Hq Hc. rewrite <- app_assoc.
  destruct (hex4_to_hex c tail Hc) as (a & b & c' & d & -> & Hv).
  destruct Hq as [-> | ->]; cbn; rewrite Hv; reflexivity.
Qed.

Lemma escape_U (q c : codepoint) (tail : pystr) :
  q = 34%N \/ q = 39%N -> (c <= 1114111)%N ->
  Ast.string_body q ((lit "\U" ++ Num.to_hex 8 c) ++ tail)
  = Ast.cons_char c (Ast.string_body q tail).
Proof.
  intros Hq Hc. rewrite <- app_assoc.
  destruct (hex8_to_hex c tail Hc)
    as (a & b & c' & d & e & f & g & h & -> & Hv).
  destruct Hq as [-> | ->]; cbn; rewrite Hv; reflexivity.
Qed.

Lemma raw_char (q c : codepoint) (tail : pystr) :
  N.eqb c q = false -> N.eqb c 92 = false ->
  (32 <= c)%N -> c <> 127%N ->
  ~ (55296 <= c /\ c <= 57343)%N ->
  Ast.string_body q ([c] ++ tail) = Ast.cons_char c (Ast.string_body q tail).
Proof.
  intros Eq E92 Hlo H127 Hsur. cbn [app Ast.string_body].
  rewrite Eq, E92.
  replace ((c <? 32)%N || N.eqb c 127
           || ((55296 <=? c)%N && (c <=? 57343)%N)) with false; trivial.
  symmetry. apply orb_false_iff. split.
  - apply orb_false_iff. split; [apply N.ltb_ge; lia | now apply N.eqb_neq].
  - destruct (N.leb_spec 55296 c); destruct (N.leb_spec c 57343);
      trivial. exfalso. auto.
Qed.

Lemma string_body_char (isprintable : codepoint -> bool) (q c : codepoint)
    (tail : pystr) :
  table_ok isprintable ->
  q = 34%N \/ q = 39%N ->
  (c <= 1114111)%N ->
  Ast.string_body q (Repr.repr_char isprintable q c ++ tail)
  = Ast.cons_char c (Ast.string_body q tail).
Proof.
  intros Htable Hq Hc. unfold Repr.repr_char.
  destruct (N.eqb c q || N.eqb c 92) eqn:E1.
  { cbn [app Ast.string_body].
    replace (N.eqb 92 q) with false
      by (destruct Hq as [-> | ->]; reflexivity).
    rewrite N.eqb_refl.
    replace (N.eqb c 92 || N.eqb c 39 || N.eqb c 34) with true; trivial.
    decide_eqb; subst; [destruct Hq as [-> | ->]|]; reflexivity. }
  apply orb_false_iff in E1. destruct E1 as [Eq E92].
  destruct (N.eqb c 9) eqn:E9;
    [apply N.eqb_eq in E9; subst; destruct Hq as [-> | ->]; reflexivity|].
  destruct (N.eqb c 10) eqn:E10;
    [apply N.eqb_eq in E10; subst; destruct Hq as [-> | ->]; reflexivity|].
  destruct (N.eqb c 13) eqn:E13;
    [apply N.eqb_eq in E13; subst; destruct Hq as [-> | ->]; reflexivity|].
  destruct ((c <? 32)%N || N.eqb c 127) eqn:Elow.
  { apply escape_x; trivial. decide_eqb; lia. }
  apply orb_false_iff in Elow. destruct Elow as [E32 E127].
  apply N.ltb_ge in E32. apply N.eqb_neq in E127.
  destruct (c <? 127)%N eqn:Eascii.
  { apply raw_char; trivial. apply N.ltb_lt in Eascii. lia. }
  destruct (isprintable c) eqn:Eprint.
  { apply raw_char; trivial. intros [Hlo Hhi].
    rewrite (Htable c Hlo Hhi) in Eprint. discriminate. }
  destruct (c <=? 255)%N eqn:E255.
  { apply escape_x; trivial. apply N.leb_le in E255. lia. }
  destruct (c <=? 65535)%N eqn:E65535.
  { apply escape_u; trivial. apply N.leb_le in E65535. lia. }
  apply escape_U; trivial.
Qed.

Lemma repr_quote_cases (s : pystr) :
  Repr.repr_quote s = 34%N \/ Repr.repr_quote s = 39%N.
Proof.
  unfold Repr.repr_quote.
  destruct (existsb (N.eqb 39) s && negb (existsb (N.eqb 34) s)); auto.
Qed.

Lemma string_body_chars (isprintable : codepoint -> bool) (q : codepoint)
    (s rest : pystr) :
  table_ok isprintable ->
  q = 34%N \/ q = 39%N ->
  str_ok s = true ->
  Ast.string_body q (flat_map (Repr.repr_char isprintable q) s ++ q :: rest)
  = Some (s, rest).
Proof.
  intros Htable Hq. induction s as [|c s IH]; intros Hs.
  - cbn [flat_map app Ast.string_body]. rewrite N.eqb_refl. reflexivity.
  - cbn [str_ok forallb] in Hs. apply andb_true_iff in Hs.
    destruct Hs as [Hc Hs]. apply N.leb_le in Hc.
    cbn [flat_map]. rewrite <- app_assoc, string_body_char by assumption.
    fold (str_ok s) in Hs. rewrite (IH Hs). reflexivity.
Qed.

(** A string literal written by [repr] reads back as the string. *)
Lemma parse_repr_str (isprintable : codepoint -> bool) (fuel : nat)
    (s rest : pystr) :
  table_ok isprintable ->
  str_ok s = true ->
  Ast.parse (S fuel) (Repr.repr_str isprintable s ++ rest)
  = Json.Ok (PyStr s) rest.
Proof.
  intros Htable Hs. unfold Repr.repr_str.
  destruct (repr_quote_cases s) as [Hq|Hq]; rewrite Hq in *;
    cbn [app Ast.parse Ast.is_quote N.eqb Pos.eqb orb];
    rewrite <- app_assoc; cbn [app];
    rewrite string_body_chars; auto.
Qed.

(** ** More fuel changes nothing *)

Ltac sync_rec IH t :=
  let E := fresh "E" in
  let Hne := fresh "Hne" in
  destruct t eqn:E;
  [ assert (Hne : t <> Json.OutOfFuel) by (rewrite E; discriminate);
    rewrite (IH _ Hne), E
  | assert (Hne : t <> Json.OutOfFuel) by (rewrite E; discriminate);
    rewrite (IH _ Hne), E
  | exfalso; cbv beta iota in *; congruence ].

Ltac sync_rec2 IH t :=
  let E := fresh "E" in
  let Hne := fresh "Hne" in
  destruct t eqn:E;
  [ assert (Hne : t <> Json.OutOfFuel) by (rewrite E; discriminate);
    rewrite (IH _ _ Hne), E
  | assert (Hne : t <> Json.OutOfFuel) by (rewrite E; discriminate);
    rewrite (IH _ _ Hne), E
  | exfalso; cbv beta iota in *; congruence ].

Lemma parse_more_fuel (fuel : nat) :
  (forall s, Ast.parse fuel s <> Json.OutOfFuel ->
             Ast.parse (S fuel) s = Ast.parse fuel s)
  /\ (forall s values,
        Ast.parse_items fuel s values <> Json.OutOfFuel ->
        Ast.parse_items (S fuel) s values = Ast.parse_items fuel s values)
  /\ (forall s pairs,
        Ast.parse_pairs fuel s pairs <> Json.OutOfFuel ->
        Ast.parse_pairs (S fuel) s pairs = Ast.parse_pairs fuel s pairs).
Proof.
  induction fuel as [|fuel (IHs & IHa & IHo)];
    [repeat split; intros; exfalso; auto|].
  repeat split.
  - intros s H. cbn [Ast.parse] in H |- *.
    repeat (cbv beta iota in H |- *;
            match goal with
            | H : context [match ?x with _ => _ end] |- _ => destruct x eqn:?
            | H : context [if ?x then _ else _] |- _ => destruct x eqn:?
            end); auto.
  - intros s values H. cbn [Ast.parse_items] in H |- *.
    repeat (cbv beta iota in H |- *;
            match goal with
            | H : context [match Ast.parse fuel ?a with _ => _ end] |- _ =>
                sync_rec IHs (Ast.parse fuel a)
            | H : context [match ?x with _ => _ end] |- _ => destruct x eqn:?
            | H : context [if ?x then _ else _] |- _ => destruct x eqn:?
            end); auto;
      match goal with
      | H : Ast.parse_items _ _ _ <> _ |- _ => exact (IHa _ _ H)
      end.
  - intros s pairs H. cbn [Ast.parse_pairs] in H |- *.
    repeat (cbv beta iota in H |- *;
            match goal with
            | H : context [match Ast.parse fuel ?a with _ => _ end] |- _ =>
                sync_rec IHs (Ast.parse fuel a)
            | H : context [match ?x with _ => _ end] |- _ => destruct x eqn:?
            | H : context [if ?x then _ else _] |- _ => destruct x eqn:?
            end); auto;
      match goal with
      | H : Ast.parse_pairs _ _ _ <> _ |- _ => exact (IHo _ _ H)
      end.
Qed.

Lemma parse_fuel_le (fuel fuel' : nat) (s : pystr) :
  fuel <= fuel' ->
  Ast.parse fuel s <> Json.OutOfFuel ->
  Ast.parse fuel' s = Ast.parse fuel s.
Proof.
  induction 1 as [|fuel' Hle IH]; trivial.
  intros H. rewrite (proj1 (parse_more_fuel fuel')); auto.
  rewrite IH; trivial.
Qed.

Lemma parse_items_fuel_le (fuel fuel' : nat) (s : pystr) (values : list obj) :
  fuel <= fuel' ->
  Ast.parse_items fuel s values <> Json.OutOfFuel ->
  Ast.parse_items fuel' s values = Ast.parse_items fuel s values.
Proof.
  induction 1 as [|fuel' Hle IH]; trivial.
  intros H. rewrite (proj1 (proj2 (parse_more_fuel fuel'))); auto.
  rewrite IH; trivial.
Qed.

Lemma parse_pairs_fuel_le (fuel fuel' : nat) (s : pystr)
    (pairs : list (pystr * obj)) :
  fuel <= fuel' ->
  Ast.parse_pairs fuel s pairs <> Json.OutOfFuel ->
  Ast.parse_pairs fuel' s pairs = Ast.parse_pairs fuel s pairs.
Proof.
  induction 1 as [|fuel' Hle IH]; trivial.
  intros H. rewrite (proj2 (proj2 (parse_more_fuel fuel'))); auto.
  rewrite IH; trivial.
Qed.

(** ** What [repr] writes, [ast.literal_eval] reads back *)

Lemma obj_induction (P : obj -> Prop) :
  P PyNone ->
  (forall b, P (PyBool b)) ->
  (forall n, P (PyInt n)) ->
  (forall f, P (PyFloat f)) ->
  (forall s, P (PyStr s)) ->
  (forall l, Forall P l -> P (PyList l)) ->
  (forall d, Forall (fun kv => P (snd kv)) d -> P (PyDict d)) ->
  forall v, P v.
Proof.
  intros HN HB HI HF HS HL HD.
  fix IH 1. intros [| b | n | f | s | l | d].
  - exact HN.
  - apply HB.
  - apply HI.
  - apply HF.
  - apply HS.
  - apply HL. induction l as [|x l IHl]; constructor; [apply IH | exact IHl].
  - apply HD. induction d as [|[k x] d IHd]; constructor;
      [apply IH | exact IHd].
Qed.

Lemma skip_sp_head (c : codepoint) (s : pystr) :
  c <> 32%N -> Ast.skip_sp (c :: s) = c :: s.
Proof.
  intros H. simpl. destruct (N.eqb_spec c 32); [contradiction|reflexivity].
Qed.

Lemma starts_value_app (s rest : pystr) :
  starts_value s -> starts_value (s ++ rest).
Proof.
  intros (c & t & -> & H). exists c, (t ++ rest). auto.
Qed.

Lemma digit_starts (n : N) (rest : pystr) :
  starts_value (Num.to_digits n ++ rest).
Proof.
  destruct (to_digits_head n) as (d & t & -> & Hd).
  unfold Num.is_digit in Hd. apply andb_true_iff in Hd.
  destruct Hd as [Hlo Hhi]. apply N.leb_le in Hlo, Hhi.
  exists d, (t ++ rest). repeat split; trivial; lia.
Qed.

Lemma repr_str_starts (isprintable : codepoint -> bool) (s : pystr) :
  starts_value (Repr.repr_str isprintable s).
Proof.
  unfold Repr.repr_str. eexists _, _. split; [reflexivity|].
  destruct (repr_quote_cases s) as [-> | ->]; repeat split; discriminate.
Qed.

Lemma repr_starts (isprintable : codepoint -> bool) (v : obj) :
  starts_value (Repr.repr isprintable v).
Proof.
  assert (Hlit : forall c t, c <> 32%N -> c <> 93%N -> c <> 125%N ->
                             starts_value (c :: t))
    by (intros c t; exists c, t; auto).
  destruct v as [| [|] | n | [| [|] | [|] digits exp10] | s | l | d];
    cbn [Repr.repr Repr.repr_float].
  - apply Hlit; discriminate.
  - apply Hlit; discriminate.
  - apply Hlit; discriminate.
  - unfold Num.str_of_Z. destruct (n <? 0)%Z.
    + apply Hlit; discriminate.
    + rewrite <- (app_nil_r (Num.to_digits _)). apply digit_starts.
  - apply Hlit; discriminate.
  - apply Hlit; discriminate.
  - apply Hlit; discriminate.
  - apply Hlit; discriminate.
  - apply digit_starts.
  - apply repr_str_starts.
  - apply Hlit; discriminate.
  - apply Hlit; discriminate.
Qed.

Lemma skip_sp_starts (s : pystr) : starts_value s -> Ast.skip_sp s = s.
Proof. intros (c & t & -> & H & _). now apply skip_sp_head. Qed.

Lemma parse_lift (fuel fuel' : nat) (s : pystr) (v : obj) (rest : pystr) :
  Ast.parse fuel s = Json.Ok v rest -> fuel <= fuel' ->
  Ast.parse fuel' s = Json.Ok v rest.
Proof.
  intros H Hle. rewrite (parse_fuel_le fuel fuel' s Hle); trivial.
  rewrite H. discriminate.
Qed.

Lemma parse_items_lift (fuel fuel' : nat) (s : pystr) (values : list obj)
    (v : obj) (rest : pystr) :
  Ast.parse_items fuel s values = Json.Ok v rest -> fuel <= fuel' ->
  Ast.parse_items fuel' s values = Json.Ok v rest.
Proof.
  intros H Hle. rewrite (parse_items_fuel_le fuel fuel' s values Hle); trivial.
  rewrite H. discriminate.
Qed.

Lemma parse_pairs_lift (fuel fuel' : nat) (s : pystr)
    (pairs : list (pystr * obj)) (v : obj) (rest : pystr) :
  Ast.parse_pairs fuel s pairs = Json.Ok v rest -> fuel <= fuel' ->
  Ast.parse_pairs fuel' s pairs = Json.Ok v rest.
Proof.
  intros H Hle. rewrite (parse_pairs_fuel_le fuel fuel' s pairs Hle); trivial.
  rewrite H. discriminate.
Qed.

Section Displays.

Variable isprintable : codepoint -> bool.
Hypothesis Htable : table_ok isprintable.

Lemma join_cons2 (sep x y : pystr) (l : list pystr) :
  Repr.join sep (x :: y :: l) = x ++ sep ++ Repr.join sep (y :: l).
Proof. reflexivity. Qed.

Lemma join_starts (sep : pystr) (l : list pystr) (x : pystr) :
  starts_value x -> Forall starts_value l ->
  starts_value (Repr.join sep (x :: l)).
Proof.
  intros Hx Hl. destruct l as [|y l]; trivial.
  rewrite join_cons2. now apply starts_value_app.
Qed.

Lemma parse_items_join (l : list obj) :
  Forall (reads_back isprintable) l ->
  l <> [] ->
  forall values rest,
  exists fuel,
    Ast.parse_items fuel
      (Repr.join (lit ", ") (map (Repr.repr isprintable) l) ++ 93%N :: rest)
      values
    = Json.Ok (PyList (values ++ l)) rest.
Proof.
  induction 1 as [|x l Hx Hl IH]; [congruence|]. intros _ values rest.
  destruct l as [|y l].
  - cbn [map Repr.join].
    destruct (Hx (93%N :: rest)) as (fuel & Hp); [simpl; auto|].
    exists (S fuel). cbn [Ast.parse_items]. rewrite Hp.
    rewrite skip_sp_head by discriminate. reflexivity.
  - cbn [map]. rewrite join_cons2, <- !app_assoc.
    set (next := Repr.join (lit ", ")
                   (Repr.repr isprintable y :: map (Repr.repr isprintable) l)
                 ++ 93%N :: rest).
    destruct (Hx (lit ", " ++ next)) as (f1 & Hp); [simpl; auto|].
    destruct (IH ltac:(discriminate) (values ++ [x]) rest) as (f2 & Hq).
    cbn [map] in Hq. fold next in Hq.
    exists (S (Nat.max f1 f2)). cbn [Ast.parse_items].
    rewrite (parse_lift _ _ _ _ _ Hp) by lia.
    change (lit ", " ++ next) with (44%N :: 32%N :: next).
    rewrite skip_sp_head by discriminate.
    change (Ast.skip_sp (32%N :: next)) with (Ast.skip_sp next).
    cbv beta iota. change (N.eqb 44 93) with false.
    change (N.eqb 44 44) with true. cbv beta iota.
    rewrite skip_sp_starts.
    + rewrite (parse_items_lift _ _ _ _ _ _ Hq) by lia.
      rewrite <- app_assoc. reflexivity.
    + unfold next. apply starts_value_app. apply join_starts.
      * apply repr_starts.
      * apply Forall_forall. intros z Hz. apply in_map_iff in Hz.
        destruct Hz as (w & <- & _). apply repr_starts.
Qed.

Lemma parse_pairs_key (fuel : nat) (k rest0 : pystr)
    (pairs : list (pystr * obj)) :
  str_ok k = true ->
  Ast.parse_pairs (S fuel)
    (Repr.repr_str isprintable k ++ 58%N :: 32%N :: rest0) pairs
  = match Ast.parse fuel (Ast.skip_sp rest0) with
    | Json.Ok value rest2 =>
        match Ast.skip_sp rest2 with
        | d :: rest3 =>
            if N.eqb d 125 then Json.Ok (PyDict (dict_set pairs k value)) rest3
            else if N.eqb d 44 then
              Ast.parse_pairs fuel (Ast.skip_sp rest3) (dict_set pairs k value)
            else Ast.malformed (d :: rest3)
        | [] => Ast.malformed []
        end
    | Json.Err msg at_ => Json.Err msg at_
    | Json.OutOfFuel => Json.OutOfFuel
    end.
Proof.
  intros Hk. unfold Repr.repr_str.
  destruct (repr_quote_cases k) as [Hq|Hq]; rewrite Hq;
    cbn [app Ast.parse_pairs Ast.is_quote N.eqb Pos.eqb orb];
    rewrite <- app_assoc; cbn [app];
    rewrite string_body_chars by auto;
    rewrite skip_sp_head by discriminate;
    reflexivity.
Qed.

Lemma dict_set_fresh (pairs : list (pystr * obj)) (k : pystr) (v : obj) :
  ~ In k (map fst pairs) -> dict_set pairs k v = pairs ++ [(k, v)].
Proof.
  induction pairs as [|[k' v'] pairs IH]; simpl; trivial.
  intros H. destruct (Py.eqb k' k) eqn:E.
  - apply pystr_eqb_eq in E. exfalso. subst. auto.
  - rewrite IH; auto.
Qed.

Lemma pair_repr_starts (kv : pystr * obj) : starts_value ((pair_repr isprintable) kv).
Proof. apply starts_value_app, repr_str_starts. Qed.

Lemma parse_pairs_join (d : list (pystr * obj)) :
  Forall (fun kv => str_ok (fst kv) = true
                    /\ reads_back isprintable (snd kv)) d ->
  d <> [] ->
  forall pairs rest,
    NoDup (map fst (pairs ++ d)) ->
    exists fuel,
      Ast.parse_pairs fuel
        (Repr.join (lit ", ") (map (pair_repr isprintable) d) ++ 125%N :: rest) pairs
      = Json.Ok (PyDict (pairs ++ d)) rest.
Proof.
  induction 1 as [|[k v] d [Hk Hv] Hd IH]; [congruence|].
  intros _ pairs rest Hnodup. cbn [fst snd] in *.
  assert (Hfresh : ~ In k (map fst pairs)).
  { rewrite map_app in Hnodup. cbn [map fst] in Hnodup.
    apply NoDup_remove_2 in Hnodup. intros Hin. apply Hnodup.
    apply in_or_app. auto. }
  destruct d as [|kv d].
  - cbn [map Repr.join]. unfold pair_repr. cbn [fst snd].
    rewrite <- !app_assoc. change (lit ": " ++ ?x) with (58%N :: 32%N :: x).
    destruct (Hv (125%N :: rest)) as (fuel & Hp); [simpl; auto|].
    exists (S fuel). rewrite parse_pairs_key by assumption.
    change (Ast.skip_sp (32%N :: ?x)) with (Ast.skip_sp x).
    rewrite skip_sp_starts by apply starts_value_app, repr_starts.
    rewrite Hp, skip_sp_head by discriminate.
    rewrite dict_set_fresh by assumption. reflexivity.
  - cbn [map]. rewrite join_cons2. unfold pair_repr at 1. cbn [fst snd].
    rewrite <- !app_assoc.
    set (next := Repr.join (lit ", ") ((pair_repr isprintable) kv :: map (pair_repr isprintable) d)
                 ++ 125%N :: rest).
    change (lit ": " ++ ?x) with (58%N :: 32%N :: x).
    destruct (Hv (lit ", " ++ next)) as (f1 & Hp); [simpl; auto|].
    destruct (IH ltac:(discriminate) (pairs ++ [(k, v)]) rest) as (f2 & Hq).
    { rewrite <- app_assoc. exact Hnodup. }
    cbn [map] in Hq. fold next in Hq.
    exists (S (Nat.max f1 f2)). rewrite parse_pairs_key by assumption.
    change (Ast.skip_sp (32%N :: ?x)) with (Ast.skip_sp x).
    rewrite skip_sp_starts by apply starts_value_app, repr_starts.
    rewrite (parse_lift _ _ _ _ _ Hp) by lia.
    change (lit ", " ++ next) with (44%N :: 32%N :: next).
    rewrite skip_sp_head by discriminate.
    change (N.eqb 44 125) with false. change (N.eqb 44 44) with true.
    cbv beta iota.
    change (Ast.skip_sp (32%N :: next)) with (Ast.skip_sp next).
    rewrite skip_sp_starts.
    + rewrite dict_set_fresh by assumption.
      rewrite (parse_pairs_lift _ _ _ _ _ _ Hq) by lia.
      rewrite <- app_assoc. reflexivity.
    + unfold next. apply starts_value_app. apply join_starts.
      * apply pair_repr_starts.
      * apply Forall_forall. intros z Hz. apply in_map_iff in Hz.
        destruct Hz as (w & <- & _). apply pair_repr_starts.
Qed.

End Displays.

Lemma unique_keys_NoDup (ks : list pystr) :
  unique_keys ks = true -> NoDup ks.
Proof.
  induction ks as [|k ks IH]; simpl; [constructor|].
  intros H. apply andb_true_iff in H. destruct H as [Hk Hks].
  constructor; auto. intros Hin. apply negb_true_iff in Hk.
  assert (existsb (Py.eqb k) ks = true); [|congruence].
  apply existsb_exists. exists k. split; trivial. now apply pystr_eqb_eq.
Qed.

Lemma parse_int (fuel : nat) (n : Z) (rest : pystr) :
  ends_value rest ->
  Ast.parse (S fuel) (Num.str_of_Z n ++ rest) = Json.Ok (PyInt n) rest.
Proof.
  intros Hrest. pose proof (atom_int n rest Hrest) as Hatom.
  assert (Hhead : exists c t,
             Num.str_of_Z n ++ rest = c :: t
             /\ (c = 45%N \/ Num.is_digit c = true)).
  { unfold Num.str_of_Z. destruct (n <? 0)%Z.
    - eexists _, _. split; [reflexivity|]. auto.
    - destruct (to_digits_head (Z.abs_N n)) as (d & t & -> & Hd).
      eexists _, _. split; [reflexivity|]. auto. }
  destruct Hhead as (c & t & Heq & Hc). rewrite Heq in *.
  cbn [Ast.parse]. rewrite Hatom.
  assert (Hq : Ast.is_quote c = false /\ N.eqb c 91 = false
               /\ N.eqb c 123 = false).
  { destruct Hc as [-> | Hd]; [repeat split|].
    unfold Num.is_digit in Hd. apply andb_true_iff in Hd.
    destruct Hd as [Hlo Hhi]. apply N.leb_le in Hlo, Hhi.
    unfold Ast.is_quote. repeat split.
    - apply orb_false_iff. split; apply N.eqb_neq; lia.
    - apply N.eqb_neq; lia.
    - apply N.eqb_neq; lia. }
  destruct Hq as (-> & -> & ->). reflexivity.
Qed.

Lemma forallb_Forall {A} (f : A -> bool) (l : list A) :
  forallb f l = true -> Forall (fun x => f x = true) l.
Proof. intros H. apply Forall_forall. now apply forallb_forall. Qed.

Lemma repr_dict_app (isprintable : codepoint -> bool)
    (d : list (pystr * obj)) (rest : pystr) :
  Repr.repr isprintable (PyDict d) ++ rest
  = 123%N :: (Repr.join (lit ", ") (map (pair_repr isprintable) d)
              ++ 125%N :: rest).
Proof. cbn [Repr.repr]. rewrite <- !app_assoc. reflexivity. Qed.

Lemma repr_list_app (isprintable : codepoint -> bool) (l : list obj)
    (rest : pystr) :
  Repr.repr isprintable (PyList l) ++ rest
  = 91%N :: (Repr.join (lit ", ") (map (Repr.repr isprintable) l)
             ++ 93%N :: rest).
Proof. cbn [Repr.repr]. rewrite <- !app_assoc. reflexivity. Qed.

(** The display of a value free of floats reads back as the value. *)
Lemma repr_reads_back (isprintable : codepoint -> bool) :
  table_ok isprintable ->
  forall v, literal_ok v = true -> reads_back isprintable v.
Proof.
  intros Htable v. induction v as [| b | n | f | s | l IH | d IH]
    using obj_induction; intros Hok rest Hrest.
  - exists 1. reflexivity.
  - exists 1. destruct b; reflexivity.
  - exists 1. now apply parse_int.
  - discriminate.
  - exists 1. now apply parse_repr_str.
  - cbn [literal_ok] in Hok. apply forallb_Forall in Hok.
    assert (Hall : Forall (reads_back isprintable) l).
    { apply Forall_forall. intros x Hx. rewrite Forall_forall in IH, Hok.
      auto. }
    rewrite repr_list_app.
    destruct l as [|x l].
    + exists 1. reflexivity.
    + destruct (parse_items_join isprintable (x :: l) Hall
                  ltac:(discriminate) [] rest) as (fuel & Hp).
      exists (S fuel). cbn [Ast.parse Ast.is_quote N.eqb Pos.eqb orb].
      assert (Hs : starts_value
                     (Repr.join (lit ", ")
                        (map (Repr.repr isprintable) (x :: l))
                      ++ 93%N :: rest)).
      { apply starts_value_app. cbn [map]. apply join_starts.
        - apply repr_starts.
        - apply Forall_forall. intros z Hz. apply in_map_iff in Hz.
          destruct Hz as (w & <- & _). apply repr_starts. }
      rewrite (skip_sp_starts _ Hs).
      destruct Hs as (c & t & Heq & _ & H93 & _). rewrite Heq in *.
      apply N.eqb_neq in H93. rewrite H93. exact Hp.
  - cbn [literal_ok] in Hok. apply andb_true_iff in Hok.
    destruct Hok as [Hok Hkeys]. apply forallb_Forall in Hok.
    apply unique_keys_NoDup in Hkeys.
    assert (Hall : Forall (fun kv => str_ok (fst kv) = true
                                    /\ reads_back isprintable (snd kv)) d).
    { apply Forall_forall. intros x Hx. rewrite Forall_forall in IH, Hok.
      specialize (Hok x Hx). apply andb_true_iff in Hok. destruct Hok.
      auto. }
    rewrite repr_dict_app.
    destruct d as [|kv d].
    + exists 1. reflexivity.
    + destruct (parse_pairs_join isprintable Htable (kv :: d) Hall
                  ltac:(discriminate) [] rest Hkeys) as (fuel & Hp).
      exists (S fuel). cbn [Ast.parse Ast.is_quote N.eqb Pos.eqb orb].
      assert (Hs : starts_value
                     (Repr.join (lit ", ")
                        (map (pair_repr isprintable) (kv :: d))
                      ++ 125%N :: rest)).
      { apply starts_value_app. cbn [map]. apply join_starts.
        - apply pair_repr_starts.
        - apply Forall_forall. intros z Hz. apply in_map_iff in Hz.
          destruct Hz as (w & <- & _). apply pair_repr_starts. }
      rewrite (skip_sp_starts _ Hs).
      destruct Hs as (c & t & Heq & _ & _ & H125). rewrite Heq in *.
      apply N.eqb_neq in H125. rewrite H125. exact Hp.
Qed.

(** [ast.literal_eval(repr(v)) == v] for every value free of floats. *)
Lemma literal_eval_repr (isprintable : codepoint -> bool) (v : obj) :
  table_ok isprintable ->
  literal_ok v = true ->
  Ast.literal_eval (Repr.repr isprintable v) = inr v.
Proof.
  intros Htable Hok.
  destruct (repr_reads_back isprintable Htable v Hok [] I) as (fuel & Hp).
  rewrite app_nil_r in Hp.
  set (s := Repr.repr isprintable v) in *.
  assert (HF : Ast.parse (Json.fuel_for s) s = Json.Ok v []).
  { assert (Hne : Ast.parse (Json.fuel_for s) s <> Json.OutOfFuel)
      by (apply (proj1 (parse_fuel _)); unfold Json.fuel_for; lia).
    destruct (Nat.le_ge_cases fuel (Json.fuel_for s)) as [Hle|Hle].
    - now apply (parse_lift fuel).
    - rewrite <- (parse_fuel_le _ _ _ Hle Hne). exact Hp. }
  unfold Ast.literal_eval, Ast.literal_eval_with.
  rewrite (skip_sp_starts s) by apply repr_starts.
  rewrite HF. reflexivity.
Qed.

(** ** Scans that read back *)

Lemma max_id_bound (rows : list ScanResult.t) (r : ScanResult.t) :
  In r rows ->
  (ScanResult.id r <= fold_right Z.max 0 (map ScanResult.id rows))%Z.
Proof.
  induction rows as [|x rows IH]; simpl; [tauto|].
  intros [-> | H]; [lia|]. specialize (IH H). lia.
Qed.

Lemma next_id_fresh (rows : list ScanResult.t) :
  first_by_id rows (next_id rows) = None.
Proof.
  apply first_by_id_None. intros r Hr. apply max_id_bound in Hr.
  unfold next_id. lia.
Qed.

Lemma first_by_id_new (rows : list ScanResult.t) (row : ScanResult.t) :
  first_by_id rows (ScanResult.id row) = None ->
  first_by_id (rows ++ [row]) (ScanResult.id row) = Some row.
Proof.
  unfold first_by_id. induction rows as [|x rows IH]; simpl.
  - intros _. rewrite Z.eqb_refl. reflexivity.
  - destruct (ScanResult.id x =? ScanResult.id row)%Z; [discriminate|].
    exact IH.
Qed.




Lemma stored_scan_reads_back_example :
  exists details,
    get_scan
      (fst (post_scan ascii_only sample_world 400 (Raised transport_error)
              sample_form)) 5
    = Status200 details
    /\ ScanDetails.violations details
       = PyList [PyDict (degraded_violation transport_error)]
    /\ ScanDetails.recommendations details
       = PyList [PyStr (lit "Please try again or contact support")].
Proof. eexists. repeat split. Qed.

(** ** What one request to [POST /scan] does *)

Lemma post_scan_accepted (isprintable : codepoint -> bool) (w : world)
    (now : Z) (remote : outcome) (form : scan_form) (ad_copy : pystr) :
  form_value (form_ad_copy form) = Some ad_copy ->
  post_scan isprintable w now remote form
  = (fst (scan_ad isprintable w now remote ad_copy (posted_user form)
            (form_image form)),
     respond (snd (scan_ad isprintable w now remote ad_copy (posted_user form)
                     (form_image form)))).
Proof.
  intros H. unfold post_scan. rewrite H. fold (posted_user form).
  destruct (scan_ad isprintable w now remote ad_copy (posted_user form)
              (form_image form)).
  reflexivity.
Qed.

Lemma scan_ad_rejects (isprintable : codepoint -> bool) (w : world)
    (now : Z) (remote : outcome) (ad_copy user_id : pystr)
    (image : option UploadFile) (key : pystr) (e : exn) :
  In key stored_keys ->
  getitem isprintable (analyze_with_ai remote) key = inl e ->
  exists e',
    scan_ad isprintable w now remote ad_copy user_id image
    = ({| db := db w;
          calls := calls w
                   ++ [messages_content ad_copy (option_map content image)] |},
       inl e')
    /\ @respond ScanResponse.t (inl e') = internal_server_error.
Proof.
  intros Hkey He. unfold scan_ad.
  destruct (getitem isprintable (analyze_with_ai remote) key_compliance_score)
    as [e1|v1] eqn:E1;
    [exists e1; split; [reflexivity | eapply respond_getitem_error; eauto]|].
  destruct (getitem isprintable (analyze_with_ai remote) key_risk_level)
    as [e2|v2] eqn:E2;
    [exists e2; split; [reflexivity | eapply respond_getitem_error; eauto]|].
  destruct (getitem isprintable (analyze_with_ai remote) key_violations)
    as [e3|v3] eqn:E3;
    [exists e3; split; [reflexivity | eapply respond_getitem_error; eauto]|].
  destruct (getitem isprintable (analyze_with_ai remote) key_recommendations)
    as [e4|v4] eqn:E4;
    [exists e4; split; [reflexivity | eapply respond_getitem_error; eauto]|].
  exfalso. simpl in Hkey.
  destruct Hkey as [<-|[<-|[<-|[<-|[]]]]]; congruence.
Qed.

Lemma scan_ad_stores (isprintable : codepoint -> bool) (w : world)
    (now : Z) (remote : outcome) (ad_copy user_id : pystr)
    (image : option UploadFile) (score level violations recommendations : obj) :
  getitem isprintable (analyze_with_ai remote) key_compliance_score
  = inr score ->
  getitem isprintable (analyze_with_ai remote) key_risk_level = inr level ->
  getitem isprintable (analyze_with_ai remote) key_violations
  = inr violations ->
  getitem isprintable (analyze_with_ai remote) key_recommendations
  = inr recommendations ->
  scan_ad isprintable w now remote ad_copy user_id image
  = ({| db := db w
              ++ [ {| ScanResult.id := next_id (db w);
                      ScanResult.user_id := user_id;
                      ScanResult.ad_copy := ad_copy;
                      ScanResult.image_name := option_map filename image;
                      ScanResult.compliance_score := score;
                      ScanResult.risk_level := level;
                      ScanResult.violations :=
                        Repr.str isprintable violations;
                      ScanResult.recommendations :=
                        Repr.str isprintable recommendations;
                      ScanResult.created_at := now |} ];
        calls := calls w
                 ++ [messages_content ad_copy (option_map content image)] |},
     match getitem isprintable (analyze_with_ai remote) key_summary with
     | inl e => inl e
     | inr summary =>
         make_ScanResponse (next_id (db w)) score level violations
           recommendations summary
     end).
Proof.
  intros H1 H2 H3 H4. unfold scan_ad. rewrite H1, H2, H3, H4.
  destruct (getitem isprintable (analyze_with_ai remote) key_summary);
    reflexivity.
Qed.

(** The three ways a request to [POST /scan] leaves the world. *)
Lemma post_scan_step (isprintable : codepoint -> bool) (w : world)
    (now : Z) (remote : outcome) (form : scan_form) :
  fst (post_scan isprintable w now remote form) = w
  \/ (exists request,
        fst (post_scan isprintable w now remote form)
        = {| db := db w; calls := calls w ++ [request] |})
  \/ (exists request row,
        fst (post_scan isprintable w now remote form)
        = {| db := db w ++ [row]; calls := calls w ++ [request] |}
        /\ ScanResult.id row = next_id (db w)
        /\ ScanResult.user_id row = posted_user form
        /\ ScanResult.created_at row = now).
Proof.
  destruct (form_value (form_ad_copy form)) as [ad_copy|] eqn:Had.
  - rewrite (post_scan_accepted _ _ _ _ _ _ Had). cbn [fst].
    unfold scan_ad.
    destruct (getitem isprintable (analyze_with_ai remote) key_compliance_score);
      [right; left; eexists; reflexivity|].
    destruct (getitem isprintable (analyze_with_ai remote) key_risk_level);
      [right; left; eexists; reflexivity|].
    destruct (getitem isprintable (analyze_with_ai remote) key_violations);
      [right; left; eexists; reflexivity|].
    destruct (getitem isprintable (analyze_with_ai remote) key_recommendations);
      [right; left; eexists; reflexivity|].
    right; right.
    destruct (getitem isprintable (analyze_with_ai remote) key_summary);
      eexists _, _; (split; [reflexivity|]); repeat split.
  - left. unfold post_scan. rewrite Had. reflexivity.
Qed.

Lemma all_some_map_inv {A} (f : obj -> option A) (g : A -> obj)
    (l : list obj) (r : list A) :
  (forall v a, f v = Some a -> v = g a) ->
  all_some (map f l) = Some r -> l = map g r.
Proof.
  intros Hfg. revert r. induction l as [|v l IH]; simpl; intros r.
  - intros [= <-]. reflexivity.
  - destruct (f v) as [a|] eqn:E; [|discriminate].
    destruct (all_some (map f l)) as [r'|]; [|discriminate].
    intros [= <-]. simpl. rewrite (Hfg _ _ E), (IH r' eq_refl). reflexivity.
Qed.

Lemma as_list_dict_inv (v : obj) (l : list (list (pystr * obj))) :
  as_list as_dict v = Some l -> v = PyList (map PyDict l).
Proof.
  destruct v; simpl; try discriminate. intros H. f_equal.
  apply (all_some_map_inv as_dict); trivial.
  intros [] a; simpl; try discriminate. intros [= ->]. reflexivity.
Qed.

Lemma as_list_str_inv (v : obj) (l : list pystr) :
  as_list as_str v = Some l -> v = PyList (map PyStr l).
Proof.
  destruct v; simpl; try discriminate. intros H. f_equal.
  apply (all_some_map_inv as_str); trivial.
  intros [] a; simpl; try discriminate. intros [= ->]. reflexivity.
Qed.

Lemma respond_200 {A} (r : exn + A) (body : A) :
  respond r = Status200 body -> r = inr body.
Proof.
  destruct r as [e|b]; simpl.
  - destruct (exn_class e); discriminate.
  - intros [= ->]. reflexivity.
Qed.

(** What a request answered 200 has stored. *)
Lemma answered_scan_stored (isprintable : codepoint -> bool)
    (w : world) (now : Z) (remote : outcome) (form : scan_form) (w' : world)
    (resp : ScanResponse.t)
    (Hpost : post_scan isprintable w now remote form = (w', Status200 resp)) :
  exists ad_copy row,
    form_value (form_ad_copy form) = Some ad_copy
    /\ db w' = db w ++ [row]
    /\ ScanResult.id row = ScanResponse.scan_id resp
    /\ (forall r, In r (db w) -> (ScanResult.id r < ScanResult.id row)%Z)
    /\ ScanResult.ad_copy row = ad_copy
    /\ ScanResult.user_id row = posted_user form
    /\ ScanResult.image_name row = option_map filename (form_image form)
    /\ ScanResult.created_at row = now
    /\ as_float (ScanResult.compliance_score row)
       = Some (ScanResponse.compliance_score resp)
    /\ ScanResult.risk_level row = PyStr (ScanResponse.risk_level resp)
    /\ ScanResult.violations row
       = Repr.str isprintable
           (PyList (map PyDict (ScanResponse.violations resp)))
    /\ ScanResult.recommendations row
       = Repr.str isprintable
           (PyList (map PyStr (ScanResponse.recommendations resp))).
Proof.
  destruct (form_value (form_ad_copy form)) as [ad_copy|] eqn:Had;
    [|unfold post_scan in Hpost; rewrite Had in Hpost; discriminate].
  rewrite (post_scan_accepted _ _ _ _ _ _ Had) in Hpost.
  injection Hpost as Hw Hresp. apply respond_200 in Hresp.
  unfold scan_ad in Hw, Hresp.
  destruct (getitem isprintable (analyze_with_ai remote) key_compliance_score)
    as [?|v1]; [discriminate|].
  destruct (getitem isprintable (analyze_with_ai remote) key_risk_level)
    as [?|v2]; [discriminate|].
  destruct (getitem isprintable (analyze_with_ai remote) key_violations)
    as [?|v3]; [discriminate|].
  destruct (getitem isprintable (analyze_with_ai remote) key_recommendations)
    as [?|v4]; [discriminate|].
  destruct (getitem isprintable (analyze_with_ai remote) key_summary)
    as [?|v5]; [discriminate|].
  cbn [fst snd] in Hw, Hresp. subst w'.
  unfold make_ScanResponse in Hresp.
  destruct (as_float v1) eqn:E1; [|discriminate].
  destruct v2; simpl in Hresp; try discriminate.
  destruct (as_list as_dict v3) eqn:E3; [|discriminate].
  destruct (as_list as_str v4) eqn:E4; [|discriminate].
  destruct (as_str v5); [|discriminate].
  injection Hresp as <-.
  apply as_list_dict_inv in E3. apply as_list_str_inv in E4. subst v3 v4.
  eexists ad_copy, _. split; [reflexivity|]. split; [reflexivity|].
  cbn [ScanResult.id ScanResult.ad_copy ScanResult.user_id
       ScanResult.image_name ScanResult.created_at
       ScanResult.compliance_score ScanResult.risk_level
       ScanResult.violations ScanResult.recommendations
       ScanResponse.scan_id ScanResponse.compliance_score
       ScanResponse.risk_level ScanResponse.violations
       ScanResponse.recommendations].
  repeat split; trivial.
  intros r Hr. apply max_id_bound in Hr. unfold next_id. lia.
Qed.





(** X3: when the analysis is not an object, or lacks one of
    [compliance_score], [risk_level], [violations] and [recommendations],
    the request is answered 500 and no row is stored; the classifier has
    been called all the same. *)
Theorem missing_stored_field_stores_nothing (isprintable : codepoint -> bool)
    (w : world) (now : Z) (remote : outcome) (form : scan_form)
    (ad_copy key : pystr) (e : exn)
    (Had : form_value (form_ad_copy form) = Some ad_copy)
    (Hkey : In key stored_keys)
    (Hmissing : getitem isprintable (analyze_with_ai remote) key = inl e) :
  post_scan isprintable w now remote form
  = ({| db := db w; calls := calls w ++ [classifier_request ad_copy form] |},
     internal_server_error).
Proof.
  rewrite (post_scan_accepted _ _ _ _ _ _ Had).
  destruct (scan_ad_rejects isprintable w now remote ad_copy
              (posted_user form) (form_image form) key e Hkey Hmissing)
    as (e' & -> & Hresp).
  cbn [fst snd]. rewrite Hresp. reflexivity.
Qed.

Lemma missing_stored_field_stores_nothing_witness :
  post_scan ascii_only sample_world 400 (Text no_level_reply) sample_form
  = ({| db := db sample_world;
        calls := calls sample_world
                 ++ [classifier_request (lit "Cures everything") sample_form] |},
     internal_server_error).
Proof.
  apply (missing_stored_field_stores_nothing ascii_only sample_world 400
           (Text no_level_reply) sample_form (lit "Cures everything")
           key_risk_level
           {| exn_class := KeyError;
              exn_str := Repr.repr_str ascii_only key_risk_level |}).
  - reflexivity.
  - simpl. auto.
  - reflexivity.
Defined.

(** X4: a request with a non-empty [ad_copy] calls the classifier
    exactly once, whatever comes of it, and stores at most one row; the
    request holds the image part only for an upload that is not empty,
    and the text part last.  The rows stored before stay as they were. *)
Theorem one_call_per_scan (isprintable : codepoint -> bool) (w : world)
    (now : Z) (remote : outcome) (form : scan_form) (ad_copy : pystr)
    (Had : form_value (form_ad_copy form) = Some ad_copy) :
  calls (fst (post_scan isprintable w now remote form))
  = calls w ++ [classifier_request ad_copy form]
  /\ classifier_request ad_copy form
     = match form_image form with
       | Some image =>
           match content image with
           | [] => [TextPart ad_copy]
           | _ :: _ => [ImagePart (content image); TextPart ad_copy]
           end
       | None => [TextPart ad_copy]
       end
  /\ exists stored,
       db (fst (post_scan isprintable w now remote form)) = db w ++ stored
       /\ length stored <= 1.
Proof.
  split; [|split].
  - destruct (post_scan_step isprintable w now remote form)
      as [H | [(request & H) | (request & row & H & _)]].
    + exfalso. revert H. rewrite (post_scan_accepted _ _ _ _ _ _ Had).
      cbn [fst]. unfold scan_ad.
      repeat match goal with
             | |- context [match getitem ?i ?a ?k with _ => _ end] =>
                 destruct (getitem i a k)
             end;
        intros H; apply (f_equal calls) in H; cbn [calls] in H;
        rewrite <- (app_nil_r (calls w)) in H at 2;
        apply app_inv_head in H; discriminate.
    + rewrite (post_scan_accepted _ _ _ _ _ _ Had) in *. cbn [fst] in *.
      unfold scan_ad in *.
      repeat match goal with
             | |- context [match getitem ?i ?a ?k with _ => _ end] =>
                 destruct (getitem i a k)
             end; reflexivity.
    + rewrite (post_scan_accepted _ _ _ _ _ _ Had) in *. cbn [fst] in *.
      unfold scan_ad in *.
      repeat match goal with
             | |- context [match getitem ?i ?a ?k with _ => _ end] =>
                 destruct (getitem i a k)
             end; reflexivity.
  - unfold classifier_request, messages_content.
    destruct (form_image form) as [image|]; [|reflexivity].
    simpl. destruct (content image); reflexivity.
  - destruct (post_scan_step isprintable w now remote form)
      as [H | [(request & H) | (request & row & H & _)]]; rewrite H.
    + exists []. rewrite app_nil_r. split; [reflexivity | simpl; lia].
    + exists []. cbn [db]. rewrite app_nil_r. split; [reflexivity | simpl; lia].
    + exists [row]. cbn [db]. split; [reflexivity | simpl; lia].
Qed.

Lemma one_call_per_scan_witness :
  calls (fst (post_scan ascii_only sample_world 400 (Text no_level_reply)
                image_form))
  = calls sample_world ++ [classifier_request (lit "Cures everything")
                             image_form]
  /\ classifier_request (lit "Cures everything") image_form
     = match form_image image_form with
       | Some image =>
           match content image with
           | [] => [TextPart (lit "Cures everything")]
           | _ :: _ =>
               [ImagePart (content image); TextPart (lit "Cures everything")]
           end
       | None => [TextPart (lit "Cures everything")]
       end
  /\ exists stored,
       db (fst (post_scan ascii_only sample_world 400 (Text no_level_reply)
                  image_form))
       = db sample_world ++ stored
       /\ length stored <= 1.
Proof.
  apply (one_call_per_scan ascii_only sample_world 400 (Text no_level_reply)
           image_form (lit "Cures everything")).
  reflexivity.
Defined.

(** ** Reading scans back *)

Lemma literal_eval_error (s : pystr) (e : exn) :
  Ast.literal_eval s = inl e -> e = Ast.malformed_node.
Proof.
  unfold Ast.literal_eval, Ast.literal_eval_with.
  destruct (Ast.parse (Json.fuel_for s) (Ast.skip_sp s)) as [v rest| |];
    try (intros [= <-]; reflexivity).
  destruct (Ast.skip_sp rest); [discriminate|].
  intros [= <-]. reflexivity.
Qed.

Lemma get_scan_stored (w : world) (scan_id : Z) (scan : ScanResult.t) :
  first_by_id (db w) scan_id = Some scan ->
  get_scan w scan_id = internal_server_error
  \/ exists violations recommendations,
       Ast.literal_eval (ScanResult.violations scan) = inr violations
       /\ Ast.literal_eval (ScanResult.recommendations scan)
          = inr recommendations
       /\ get_scan w scan_id
          = Status200
              {| ScanDetails.scan_id := scan_id;
                 ScanDetails.ad_copy := ScanResult.ad_copy scan;
                 ScanDetails.compliance_score :=
                   ScanResult.compliance_score scan;
                 ScanDetails.risk_level := ScanResult.risk_level scan;
                 ScanDetails.violations := violations;
                 ScanDetails.recommendations := recommendations;
                 ScanDetails.created_at := ScanResult.created_at scan |}.
Proof.
  intros Hf.
  destruct (Ast.literal_eval (ScanResult.violations scan)) as [e|v] eqn:Ev.
  - left. unfold get_scan, get_scan_details. rewrite Hf, Ev.
    apply literal_eval_error in Ev. subst e. reflexivity.
  - destruct (Ast.literal_eval (ScanResult.recommendations scan))
      as [e|r] eqn:Er.
    + left. unfold get_scan, get_scan_details. rewrite Hf, Ev, Er.
      apply literal_eval_error in Er. subst e. reflexivity.
    + right. exists v, r. repeat split.
      apply get_scan_found; assumption.
Qed.

Lemma get_scan_404 (w : world) (scan_id : Z) :
  get_scan w scan_id = StatusError 404 (lit "Scan not found")
  <-> forall r, In r (db w) -> ScanResult.id r <> scan_id.
Proof.
  split.
  - intros H. apply first_by_id_None.
    destruct (first_by_id (db w) scan_id) as [scan|] eqn:Hf; trivial.
    exfalso.
    destruct (get_scan_stored w scan_id scan Hf)
      as [H5 | (v & r & _ & _ & H2)]; rewrite H in *; discriminate.
  - intros H. apply first_by_id_None in H.
    apply (get_scan_not_found w scan_id H).
Qed.

(** X5: for a [scan_id] the driver of SQLite binds (an integer of 64
    bits), [GET /scan/{scan_id}] answers 404 "Scan not found" exactly
    when no stored row has that id; for an id that is stored the answer
    is 200 or, when a stored text cannot be read back, 500. *)
Theorem scan_not_found_iff_absent (w : world) (scan_id : Z)
    (Hid : sqlite_integer scan_id = true) :
  (get_scan w scan_id = StatusError 404 (lit "Scan not found")
   <-> forall r, In r (db w) -> ScanResult.id r <> scan_id)
  /\ ((exists r, In r (db w) /\ ScanResult.id r = scan_id) ->
      get_scan w scan_id = internal_server_error
      \/ exists details,
           get_scan w scan_id = Status200 details
           /\ ScanDetails.scan_id details = scan_id).
Proof.
  split; [apply get_scan_404|].
  intros (r & Hr & Hrid).
  destruct (first_by_id (db w) scan_id) as [scan|] eqn:Hf.
  - destruct (get_scan_stored w scan_id scan Hf)
      as [H5 | (v & rs & _ & _ & H2)]; [left; exact H5|].
    right. eexists. split; [exact H2|]. reflexivity.
  - exfalso. apply (proj1 (first_by_id_None _ _) Hf r Hr Hrid).
Qed.

Lemma scan_not_found_iff_absent_witness :
  (get_scan sample_world 7 = StatusError 404 (lit "Scan not found")
   <-> forall r, In r (db sample_world) -> ScanResult.id r <> 7%Z)
  /\ ((exists r, In r (db sample_world) /\ ScanResult.id r = 7%Z) ->
      get_scan sample_world 7 = internal_server_error
      \/ exists details,
           get_scan sample_world 7 = Status200 details
           /\ ScanDetails.scan_id details = 7%Z).
Proof.
  apply (scan_not_found_iff_absent sample_world 7). reflexivity.
Defined.

Lemma first_by_id_app (rows more : list ScanResult.t) (scan_id : Z)
    (scan : ScanResult.t) :
  first_by_id rows scan_id = Some scan ->
  first_by_id (rows ++ more) scan_id = Some scan.
Proof.
  unfold first_by_id. induction rows as [|x rows IH]; simpl; [discriminate|].
  destruct (ScanResult.id x =? scan_id)%Z; trivial.
Qed.

Lemma get_scan_db (w w' : world) (scan_id : Z) :
  first_by_id (db w') scan_id = first_by_id (db w) scan_id ->
  get_scan w' scan_id = get_scan w scan_id.
Proof.
  intros H. unfold get_scan, get_scan_details. rewrite H. reflexivity.
Qed.

Lemma post_scan_db (isprintable : codepoint -> bool) (w : world) (now : Z)
    (remote : outcome) (form : scan_form) :
  db (fst (post_scan isprintable w now remote form)) = db w
  \/ exists row,
       db (fst (post_scan isprintable w now remote form)) = db w ++ [row]
       /\ ScanResult.id row = next_id (db w)
       /\ ScanResult.user_id row = posted_user form
       /\ ScanResult.created_at row = now.
Proof.
  destruct (post_scan_step isprintable w now remote form)
    as [H | [(request & H) | (request & row & H & Hrow)]]; rewrite H.
  - left. reflexivity.
  - left. reflexivity.
  - right. exists row. split; [reflexivity | exact Hrow].
Qed.

(** X6: stored scans do not change.  Whatever is posted to [POST /scan]
    afterwards, [GET /scan/{scan_id}] answers for a stored id as it did
    before. *)
Theorem stored_scan_is_immutable (isprintable : codepoint -> bool)
    (w : world) (now : Z) (remote : outcome) (form : scan_form) (scan_id : Z)
    (Hstored : exists r, In r (db w) /\ ScanResult.id r = scan_id) :
  get_scan (fst (post_scan isprintable w now remote form)) scan_id
  = get_scan w scan_id.
Proof.
  apply get_scan_db.
  destruct (first_by_id (db w) scan_id) as [scan|] eqn:Hf.
  - destruct (post_scan_db isprintable w now remote form)
      as [-> | (row & -> & _)]; [exact Hf|].
    apply first_by_id_app. exact Hf.
  - exfalso. destruct Hstored as (r & Hr & Hid).
    apply (proj1 (first_by_id_None _ _) Hf r Hr Hid).
Qed.

Lemma stored_scan_is_immutable_witness :
  get_scan (fst (post_scan ascii_only sample_world 400 (Text flagged_object)
                   sample_form)) 3
  = get_scan sample_world 3.
Proof.
  apply (stored_scan_is_immutable ascii_only sample_world 400
           (Text flagged_object) sample_form 3).
  exists (sample_row 3 (lit "u1") long_ad_copy 300). split.
  - simpl. auto.
  - reflexivity.
Defined.

(** ** The ids of the store *)

Lemma max_id_app (rows : list ScanResult.t) (row : ScanResult.t) :
  fold_right Z.max 0%Z (map ScanResult.id (rows ++ [row]))
  = Z.max (fold_right Z.max 0%Z (map ScanResult.id rows)) (ScanResult.id row).
Proof.
  induction rows as [|x rows IH]; simpl; [lia|]. rewrite IH. lia.
Qed.

Lemma max_id_nonneg (rows : list ScanResult.t) :
  (0 <= fold_right Z.max 0 (map ScanResult.id rows))%Z.
Proof. induction rows as [|x rows IH]; simpl; lia. Qed.

Lemma ids_sorted_app (rows : list ScanResult.t) (row : ScanResult.t) :
  StronglySorted Z.lt (map ScanResult.id rows) ->
  ScanResult.id row = next_id rows ->
  StronglySorted Z.lt (map ScanResult.id (rows ++ [row])).
Proof.
  intros Hs Hid.
  assert (Hlt : forall r, In r rows -> (ScanResult.id r < ScanResult.id row)%Z).
  { intros r Hr. apply max_id_bound in Hr. unfold next_id in Hid. lia. }
  clear Hid. induction rows as [|x rows IH]; simpl.
  - repeat constructor.
  - inversion Hs as [|? ? Hs' Hx]; subst. constructor.
    + apply IH; trivial. intros r Hr. apply Hlt. simpl. auto.
    + rewrite map_app. apply Forall_app. split; trivial.
      constructor; [|constructor]. apply Hlt. simpl. auto.
Qed.

Lemma reachable_invariant (isprintable : codepoint -> bool) (w : world) :
  reachable isprintable w ->
  map ScanResult.id (db w) = map Z.of_nat (seq 1 (length (db w)))
  /\ StronglySorted Z.lt (map ScanResult.id (db w))
  /\ next_id (db w) = Z.of_nat (S (length (db w)))
  /\ length (db w) <= length (calls w).
Proof.
  induction 1 as [|w now remote form Hreach IH].
  - simpl. repeat split; constructor.
  - destruct IH as (Hids & Hsorted & Hnext & Hcalls).
    destruct (post_scan_step isprintable w now remote form)
      as [H | [(request & H) | (request & row & H & Hid & _)]]; rewrite H.
    + auto.
    + cbn [db calls]. rewrite length_app. simpl. repeat split; trivial. lia.
    + cbn [db calls]. repeat rewrite length_app. cbn [length].
      split; [|split; [|split]].
      * rewrite Nat.add_1_r, seq_S, !map_app, <- Hids. cbn [map].
        rewrite Hid, Hnext. reflexivity.
      * apply ids_sorted_app; assumption.
      * unfold next_id in *. rewrite max_id_app, Hid.
        unfold next_id. lia.
      * lia.
Qed.

(** X7: in every world reached from the empty store the ids are
    1, 2, 3, ... in the order the rows were stored, so no two rows share
    an id and the next id is the number of rows plus one; and the
    classifier has been called at least once for every row. *)
Theorem reachable_ids (isprintable : codepoint -> bool) (w : world)
    (Hreach : reachable isprintable w) :
  map ScanResult.id (db w) = map Z.of_nat (seq 1 (length (db w)))
  /\ StronglySorted Z.lt (map ScanResult.id (db w))
  /\ NoDup (map ScanResult.id (db w))
  /\ next_id (db w) = Z.of_nat (S (length (db w)))
  /\ length (db w) <= length (calls w).
Proof.
  destruct (reachable_invariant isprintable w Hreach)
    as (Hids & Hsorted & Hnext & Hcalls).
  repeat split; trivial.
  clear - Hsorted. induction Hsorted as [|x l Hl IH Hx]; constructor; trivial.
  intros Hin. rewrite Forall_forall in Hx. specialize (Hx x Hin). lia.
Qed.

Lemma reachable_ids_witness :
  map ScanResult.id (db nan_world) = map Z.of_nat (seq 1 (length (db nan_world)))
  /\ StronglySorted Z.lt (map ScanResult.id (db nan_world))
  /\ NoDup (map ScanResult.id (db nan_world))
  /\ next_id (db nan_world) = Z.of_nat (S (length (db nan_world)))
  /\ length (db nan_world) <= length (calls nan_world).
Proof.
  apply (reachable_ids ascii_only nan_world).
  apply reach_scan, reach_empty.
Defined.

(** X20: in a world reached from the empty store that holds [n] rows,
    and for a [scan_id] the driver of SQLite binds (an integer of 64
    bits), [GET /scan/{scan_id}] answers 404 exactly for the ids below 1
    and above [n]. *)
Theorem reachable_scan_found (isprintable : codepoint -> bool) (w : world)
    (scan_id : Z) (Hreach : reachable isprintable w)
    (Hid : sqlite_integer scan_id = true) :
  get_scan w scan_id = StatusError 404 (lit "Scan not found")
  <-> (scan_id < 1 \/ Z.of_nat (length (db w)) < scan_id)%Z.
Proof.
  destruct (reachable_invariant isprintable w Hreach) as (Hids & _).
  rewrite get_scan_404. split.
  - intros H.
    destruct (Z_lt_le_dec scan_id 1) as [Hlo | Hlo]; [auto|].
    destruct (Z_lt_le_dec (Z.of_nat (length (db w))) scan_id) as [Hhi | Hhi];
      [auto|].
    exfalso.
    assert (Hin : In scan_id (map ScanResult.id (db w))).
    { rewrite Hids. apply in_map_iff. exists (Z.to_nat scan_id).
      split; [lia|]. apply in_seq. lia. }
    apply in_map_iff in Hin. destruct Hin as (r & Hrid & Hr).
    exact (H r Hr Hrid).
  - intros H r Hr Hrid.
    assert (Hin : In scan_id (map ScanResult.id (db w)))
      by (rewrite <- Hrid; apply in_map; exact Hr).
    rewrite Hids in Hin. apply in_map_iff in Hin.
    destruct Hin as (k & Hk & Hseq). apply in_seq in Hseq. lia.
Qed.

Lemma reachable_scan_found_witness :
  get_scan nan_world 2 = StatusError 404 (lit "Scan not found")
  <-> (2 < 1 \/ Z.of_nat (length (db nan_world)) < 2)%Z.
Proof.
  apply (reachable_scan_found ascii_only nan_world 2).
  - apply reach_scan, reach_empty.
  - reflexivity.
Defined.

(** ** Histories *)

Lemma history_rows (w w' : world) (user_id : pystr) (limit : Z) :
  rows_of w' user_id = rows_of w user_id ->
  get_scan_history w' user_id limit = get_scan_history w user_id limit.
Proof.
  unfold get_scan_history, rows_of. intros ->. reflexivity.
Qed.

Lemma pystr_eqb_neq (s t : pystr) : s <> t -> Py.eqb s t = false.
Proof.
  intros H. destruct (Py.eqb s t) eqn:E; trivial.
  apply pystr_eqb_eq in E. contradiction.
Qed.

Lemma pystr_eqb_refl (s : pystr) : Py.eqb s s = true.
Proof. apply pystr_eqb_eq. reflexivity. Qed.

(** X8: a scan posted for one user leaves the history of every other
    user as it was, for every limit. *)
Theorem history_of_others_unchanged (isprintable : codepoint -> bool)
    (w : world) (now : Z) (remote : outcome) (form : scan_form)
    (user_id : pystr) (limit : Z)
    (Hother : posted_user form <> user_id) :
  get_scan_history (fst (post_scan isprintable w now remote form)) user_id
    limit
  = get_scan_history w user_id limit.
Proof.
  apply history_rows. unfold rows_of.
  destruct (post_scan_db isprintable w now remote form)
    as [-> | (row & -> & _ & Huser & _)]; trivial.
  rewrite filter_app. simpl. rewrite Huser, (pystr_eqb_neq _ _ Hother).
  apply app_nil_r.
Qed.

Lemma history_of_others_unchanged_witness :
  get_scan_history
    (fst (post_scan ascii_only sample_world 400 (Text flagged_object)
            sample_form)) (lit "u2") 10
  = get_scan_history sample_world (lit "u2") 10.
Proof.
  apply (history_of_others_unchanged ascii_only sample_world 400
           (Text flagged_object) sample_form (lit "u2") 10).
  discriminate.
Defined.

Lemma order_by_newest (rows : list ScanResult.t) (row : ScanResult.t) :
  (forall r, In r rows ->
     (ScanResult.created_at r < ScanResult.created_at row)%Z) ->
  order_by_created_at_desc (rows ++ [row])
  = row :: order_by_created_at_desc rows.
Proof.
  unfold order_by_created_at_desc.
  induction rows as [|x rows IH]; intros Hlt; simpl; trivial.
  rewrite IH by (intros r Hr; apply Hlt; simpl; auto). simpl.
  assert (Hx : (ScanResult.created_at x < ScanResult.created_at row)%Z)
    by (apply Hlt; simpl; auto).
  destruct (ScanResult.created_at row <? ScanResult.created_at x)%Z eqn:E;
    trivial.
  apply Z.ltb_lt in E. lia.
Qed.

Lemma sql_limit_cons {A} (n : Z) (x : A) (l : list A) :
  n <> 0%Z -> sql_limit n (x :: l) = x :: sql_limit (n - 1) l.
Proof.
  intros Hn. unfold sql_limit.
  destruct (n <? 0)%Z eqn:E.
  - apply Z.ltb_lt in E.
    destruct (n - 1 <? 0)%Z eqn:E'; trivial. apply Z.ltb_ge in E'. lia.
  - apply Z.ltb_ge in E.
    destruct (n - 1 <? 0)%Z eqn:E'; [apply Z.ltb_lt in E'; lia|].
    replace (Z.to_nat n) with (S (Z.to_nat (n - 1))) by lia. reflexivity.
Qed.

(** X9: when the clock has moved on since the user's earlier scans, a
    scan that [POST /scan] answers 200 is the first entry of that user's
    history, for every limit other than 0; the entries after it are the
    history as it was, with the limit lowered by one. *)
Theorem new_scan_heads_history (isprintable : codepoint -> bool) (w : world)
    (now : Z) (remote : outcome) (form : scan_form) (w' : world)
    (resp : ScanResponse.t) (limit : Z)
    (Hpost : post_scan isprintable w now remote form = (w', Status200 resp))
    (Hclock : forall r, In r (db w) ->
                ScanResult.user_id r = posted_user form ->
                (ScanResult.created_at r < now)%Z)
    (Hlimit : limit <> 0%Z) :
  exists s,
    History.scans (get_scan_history w' (posted_user form) limit)
    = s :: History.scans (get_scan_history w (posted_user form) (limit - 1))
    /\ ScanSummary.scan_id s = ScanResponse.scan_id resp
    /\ ScanSummary.created_at s = now
    /\ ScanSummary.risk_level s = PyStr (ScanResponse.risk_level resp).
Proof.
  destruct (answered_scan_stored isprintable w now remote form w' resp Hpost)
    as (ad_copy & row & _ & Hdb & Hid & _ & _ & Huser & _ & Hnow & _ & Hlevel
        & _).
  exists (summarise row). split.
  - unfold get_scan_history. cbn [History.scans]. rewrite Hdb, filter_app.
    simpl. rewrite Huser, pystr_eqb_refl.
    rewrite order_by_newest.
    + rewrite sql_limit_cons by assumption. reflexivity.
    + intros r Hr. apply filter_In in Hr. destruct Hr as [Hr Hu].
      apply pystr_eqb_eq in Hu. rewrite Hnow. auto.
  - simpl. auto.
Qed.

Lemma new_scan_heads_history_witness :
  exists s,
    History.scans
      (get_scan_history
         (fst (post_scan ascii_only sample_world 400 (Text flagged_object)
                 sample_form)) (posted_user sample_form) 2)
    = s :: History.scans
             (get_scan_history sample_world (posted_user sample_form) (2 - 1))
    /\ ScanSummary.scan_id s = ScanResponse.scan_id (flagged_response 5)
    /\ ScanSummary.created_at s = 400%Z
    /\ ScanSummary.risk_level s
       = PyStr (ScanResponse.risk_level (flagged_response 5)).
Proof.
  apply (new_scan_heads_history ascii_only sample_world 400
           (Text flagged_object) sample_form
           (fst (post_scan ascii_only sample_world 400 (Text flagged_object)
                   sample_form))
           (flagged_response 5) 2).
  - reflexivity.
  - intros r [<- | [<- | [<- | [<- | []]]]] _; reflexivity.
  - discriminate.
Defined.

Lemma sorted_app_inv {A} (R : A -> A -> Prop) (l1 l2 : list A) :
  StronglySorted R (l1 ++ l2) ->
  forall a b, In a l1 -> In b l2 -> R a b.
Proof.
  induction l1 as [|x l1 IH]; simpl; [tauto|].
  intros Hs a b [-> | Ha] Hb.
  - inversion Hs as [|? ? _ Hx]; subst. rewrite Forall_forall in Hx.
    apply Hx, in_or_app. auto.
  - inversion Hs as [|? ? Hs' _]; subst. eauto.
Qed.

(** X10: the history holds the newest scans of the user.  For a limit
    [N >= 0] it has [min N n] entries, [n] being the number of rows of
    the user, for a negative limit all [n]; and every row of the user
    that is not among the entries is no newer than any entry. *)
Theorem history_lists_the_newest (w : world) (user_id : pystr) (limit : Z) :
  ((0 <= limit)%Z ->
   History.total_scans (get_scan_history w user_id limit)
   = Z.min limit (Z.of_nat (length (rows_of w user_id))))
  /\ ((limit < 0)%Z ->
      History.total_scans (get_scan_history w user_id limit)
      = Z.of_nat (length (rows_of w user_id)))
  /\ (forall r,
        In r (db w) -> ScanResult.user_id r = user_id ->
        In (summarise r) (History.scans (get_scan_history w user_id limit))
        \/ forall s,
             In s (History.scans (get_scan_history w user_id limit)) ->
             (ScanResult.created_at r <= ScanSummary.created_at s)%Z).
Proof.
  unfold get_scan_history. cbn [History.total_scans History.scans].
  fold (rows_of w user_id). split; [|split].
  - intros H. rewrite sql_limit_length, order_by_length by assumption. lia.
  - intros H. unfold sql_limit. apply Z.ltb_lt in H. rewrite H.
    rewrite order_by_length. reflexivity.
  - intros r Hr Hu.
    assert (Hin : In r (order_by_created_at_desc (rows_of w user_id))).
    { apply order_by_In, filter_In. split; trivial.
      apply pystr_eqb_eq. exact Hu. }
    pose proof (order_by_sorted (rows_of w user_id)) as Hsorted.
    unfold sql_limit. destruct (limit <? 0)%Z.
    + left. apply in_map. exact Hin.
    + rewrite <- (firstn_skipn (Z.to_nat limit)) in Hin, Hsorted.
      apply in_app_or in Hin. destruct Hin as [Hin | Hin].
      * left. apply in_map. exact Hin.
      * right. intros s Hs. apply in_map_iff in Hs.
        destruct Hs as (a & <- & Ha).
        exact (sorted_app_inv _ _ _ Hsorted a r Ha Hin).
Qed.

Lemma first_by_id_unique (rows : list ScanResult.t) (r : ScanResult.t) :
  NoDup (map ScanResult.id rows) ->
  In r rows ->
  first_by_id rows (ScanResult.id r) = Some r.
Proof.
  unfold first_by_id. induction rows as [|x rows IH]; simpl; [tauto|].
  intros Hnd [-> | Hr].
  - rewrite Z.eqb_refl. reflexivity.
  - inversion Hnd as [|? ? Hx Hnd']; subst.
    destruct (Z.eqb_spec (ScanResult.id x) (ScanResult.id r)) as [E|E].
    + exfalso. apply Hx. rewrite E. apply in_map. exact Hr.
    + auto.
Qed.

(** X11: the two read endpoints agree.  Where no two rows share an id,
    every entry of a history names a scan that [GET /scan/{scan_id}]
    finds, and when that answers 200 it shows the score, level and time
    of the entry, and the [ad_copy] whose preview the entry holds. *)
Theorem history_entry_matches_details (w : world) (user_id : pystr)
    (limit : Z) (s : ScanSummary.t)
    (Hids : NoDup (map ScanResult.id (db w)))
    (Hs : In s (History.scans (get_scan_history w user_id limit))) :
  get_scan w (ScanSummary.scan_id s) <> StatusError 404 (lit "Scan not found")
  /\ forall details,
       get_scan w (ScanSummary.scan_id s) = Status200 details ->
       ScanDetails.scan_id details = ScanSummary.scan_id s
       /\ ScanDetails.compliance_score details
          = ScanSummary.compliance_score s
       /\ ScanDetails.risk_level details = ScanSummary.risk_level s
       /\ ScanDetails.created_at details = ScanSummary.created_at s
       /\ ScanSummary.ad_copy_preview s
          = ad_copy_preview (ScanDetails.ad_copy details).
Proof.
  rewrite history_scans in Hs. apply in_map_iff in Hs.
  destruct Hs as (r & <- & Hr).
  apply sql_limit_incl, order_by_In, filter_In in Hr. destruct Hr as [Hr _].
  pose proof (first_by_id_unique _ _ Hids Hr) as Hf.
  cbn [summarise ScanSummary.scan_id ScanSummary.compliance_score
       ScanSummary.risk_level ScanSummary.created_at
       ScanSummary.ad_copy_preview].
  destruct (get_scan_stored w _ r Hf) as [H5 | (v & rs & _ & _ & H2)].
  - rewrite H5. split; [discriminate|]. intros details [=].
  - rewrite H2. split; [discriminate|]. intros details [= <-].
    repeat split.
Qed.

Lemma history_entry_matches_details_witness :
  get_scan sample_world
    (ScanSummary.scan_id (summarise (sample_row 3 (lit "u1") long_ad_copy 300)))
  <> StatusError 404 (lit "Scan not found")
  /\ forall details,
       get_scan sample_world
         (ScanSummary.scan_id
            (summarise (sample_row 3 (lit "u1") long_ad_copy 300)))
       = Status200 details ->
       ScanDetails.scan_id details
       = ScanSummary.scan_id
           (summarise (sample_row 3 (lit "u1") long_ad_copy 300))
       /\ ScanDetails.compliance_score details
          = ScanSummary.compliance_score
              (summarise (sample_row 3 (lit "u1") long_ad_copy 300))
       /\ ScanDetails.risk_level details
          = ScanSummary.risk_level
              (summarise (sample_row 3 (lit "u1") long_ad_copy 300))
       /\ ScanDetails.created_at details
          = ScanSummary.created_at
              (summarise (sample_row 3 (lit "u1") long_ad_copy 300))
       /\ ScanSummary.ad_copy_preview
            (summarise (sample_row 3 (lit "u1") long_ad_copy 300))
          = ad_copy_preview (ScanDetails.ad_copy details).
Proof.
  apply (history_entry_matches_details sample_world (lit "u1") 10
           (summarise (sample_row 3 (lit "u1") long_ad_copy 300))).
  - repeat (constructor; [simpl; intuition discriminate|]). constructor.
  - simpl. left. reflexivity.
Defined.

(** ** Replies around the JSON document *)

Lemma app_eq_In_left {A} (a b c d : list A) (x : A) :
  a ++ b = c ++ x :: d -> length c < length a -> In x a.
Proof.
  revert c. induction a as [|y a IH]; intros [|z c]; simpl;
    try (intros; lia).
  - intros [= -> _] _. auto.
  - intros [= _ H] Hlen. right. apply (IH c H). lia.
Qed.

Lemma app_eq_In_right {A} (a b c d : list A) (x y : A) :
  a ++ y :: b = c ++ x :: d -> length a < length c -> In x b.
Proof.
  revert c. induction a as [|z a IH]; intros [|u c]; simpl;
    try (intros; lia).
  - intros [= _ ->] _. apply in_elt.
  - intros [= _ H] Hlen. apply (IH c H). lia.
Qed.

Lemma not_In_existsb (c : codepoint) (s : pystr) :
  existsb (N.eqb c) s = false -> ~ In c s.
Proof.
  intros H Hin. apply Bool.not_true_iff_false in H. apply H.
  apply existsb_exists. exists c. split; trivial. apply N.eqb_refl.
Qed.

Lemma json_str_object_in_prose (pre mid post : pystr) :
  ~ has_fence (pre ++ [lbrace] ++ mid ++ [rbrace] ++ post) ->
  ~ In lbrace pre ->
  ~ In rbrace post ->
  json_str (pre ++ [lbrace] ++ mid ++ [rbrace] ++ post)
  = [lbrace] ++ mid ++ [rbrace].
Proof.
  intros Hnf Hpre Hpost. unfold json_str.
  apply search_fence_none in Hnf. rewrite Hnf.
  destruct (Re.search brace_re (pre ++ [lbrace] ++ mid ++ [rbrace] ++ post))
    as [m|] eqn:E.
  - apply search_from_some in E.
    destruct E as (pre0 & rest0 & Htext & Hm & _ & Hleft).
    rewrite brace_re_delimited in Hm, Hleft.
    apply match_greedy_inv in Hm.
    destruct Hm as (mid0 & post0 & -> & -> & Hmax).
    assert (Hlen : length pre0 = length pre).
    { destruct (Nat.lt_trichotomy (length pre0) (length pre))
        as [Hlt | [Heq | Hgt]]; trivial; exfalso.
      - apply Hpre. eapply app_eq_In_left; [exact Htext | exact Hlt].
      - pose proof (Hleft pre _ eq_refl Hgt) as Hnone.
        exact (match_delimited_complete _ _ _ _ _ _ Hnone). }
    symmetry in Htext.
    destruct (app_length_inv _ _ _ _ Htext Hlen) as [-> Hrest].
    pose proof (Hmax mid post Hrest) as Hle.
    apply app_inv_head in Hrest.
    assert (Hlen' : length mid0 = length mid).
    { destruct (Nat.lt_trichotomy (length mid0) (length mid))
        as [Hlt | [Heq | Hgt]]; trivial; try lia.
      exfalso. apply Hpost. simpl in Hrest.
      eapply app_eq_In_right; [exact (eq_sym Hrest) | exact Hgt]. }
    destruct (app_length_inv _ _ _ _ Hrest Hlen') as [-> _]. reflexivity.
  - exfalso. apply search_brace_none in E. apply E.
    exists pre, mid, post. reflexivity.
Qed.

(** X12: prose around the answer is dropped.  When the reply holds no
    fenced block, an object that opens at the first brace of the reply
    and closes at its last is the candidate payload, so the analysis is
    what [json.loads] makes of that object alone. *)
Theorem object_in_prose_is_extracted (pre mid post : pystr)
    (Hfence : ~ has_fence (pre ++ [lbrace] ++ mid ++ [rbrace] ++ post))
    (Hpre : ~ In lbrace pre)
    (Hpost : ~ In rbrace post) :
  json_str (pre ++ [lbrace] ++ mid ++ [rbrace] ++ post)
  = [lbrace] ++ mid ++ [rbrace]
  /\ analyze_try (Text (pre ++ [lbrace] ++ mid ++ [rbrace] ++ post))
     = Json.loads ([lbrace] ++ mid ++ [rbrace])
  /\ analyze_with_ai (Text (pre ++ [lbrace] ++ mid ++ [rbrace] ++ post))
     = analyze_with_ai (Text ([lbrace] ++ mid ++ [rbrace])).
Proof.
  pose proof (json_str_object_in_prose pre mid post Hfence Hpre Hpost) as H.
  split; [exact H|]. split.
  - unfold analyze_try. rewrite H. reflexivity.
  - assert (H0 : json_str ([lbrace] ++ mid ++ [rbrace])
                 = [lbrace] ++ mid ++ [rbrace]).
    { pose proof (json_str_object_in_prose [] mid []) as H0.
      rewrite !app_nil_r in H0. apply H0; simpl; try tauto.
      intros (p & i & q & Heq). apply Hfence.
      exists (pre ++ p), i, (q ++ post).
      replace (pre ++ [lbrace] ++ mid ++ [rbrace] ++ post)
        with (pre ++ (lbrace :: mid ++ [rbrace]) ++ post)
        by (simpl; repeat rewrite <- app_assoc; reflexivity).
      rewrite Heq. repeat rewrite <- app_assoc. reflexivity. }
    unfold analyze_with_ai, analyze_try. rewrite H, H0. reflexivity.
Qed.

Lemma object_in_prose_is_extracted_witness :
  json_str prose_reply = flagged_object
  /\ analyze_try (Text prose_reply) = Json.loads flagged_object
  /\ analyze_with_ai (Text prose_reply) = analyze_with_ai (Text flagged_object).
Proof.
  apply (object_in_prose_is_extracted (lit "Here is my analysis: ")
           (removelast (tl flagged_object)) (lit " Let me know.")).
  - apply search_fence_none. reflexivity.
  - apply not_In_existsb. reflexivity.
  - apply not_In_existsb. reflexivity.
Defined.

Lemma json_str_fenced_block (pre inner post : pystr) :
  ~ In backtick pre ->
  ~ In backtick inner ->
  json_str (pre ++ fence_open ++ inner ++ fence_close ++ post) = inner.
Proof.
  intros Hpre Hinner. unfold json_str.
  destruct (Re.search fence_re
              (pre ++ fence_open ++ inner ++ fence_close ++ post))
    as [m|] eqn:E.
  - apply search_from_some in E.
    destruct E as (pre0 & rest0 & Htext & Hm & _ & Hleft).
    rewrite fence_re_delimited in Hm, Hleft.
    apply match_lazy_inv in Hm.
    destruct Hm as (inner0 & post0 & -> & _ & Hgs & Hmin).
    unfold Re.group. rewrite Hgs. simpl.
    assert (Hlen : length pre0 = length pre).
    { destruct (Nat.lt_trichotomy (length pre0) (length pre))
        as [Hlt | [Heq | Hgt]]; trivial; exfalso.
      - apply Hpre.
        exact (app_eq_In_left _ _ _ _ _ Htext Hlt).
      - pose proof (Hleft pre _ eq_refl Hgt) as Hnone.
        exact (match_delimited_complete _ _ _ _ _ _ Hnone). }
    symmetry in Htext.
    destruct (app_length_inv _ _ _ _ Htext Hlen) as [-> Hrest].
    pose proof (Hmin inner post Hrest) as Hle.
    apply app_inv_head in Hrest.
    assert (Hlen' : length inner0 = length inner).
    { destruct (Nat.lt_trichotomy (length inner0) (length inner))
        as [Hlt | [Heq | Hgt]]; trivial; try lia.
      exfalso.
      assert (Heq : inner ++ fence_close ++ post
                    = (inner0 ++ [nl]) ++ backtick :: lit "``" ++ post0).
      { rewrite <- Hrest. rewrite <- app_assoc. reflexivity. }
      destruct (Nat.eq_dec (length inner) (length (inner0 ++ [nl])))
        as [Hsame | Hdiff].
      - destruct (app_length_inv _ _ _ _ Heq Hsame) as [_ Hhead].
        discriminate Hhead.
      - apply Hinner. apply (app_eq_In_left _ _ _ _ _ Heq).
        rewrite length_app in *. simpl in *. lia. }
    destruct (app_length_inv _ _ _ _ Hrest Hlen') as [-> _]. reflexivity.
  - exfalso. apply search_fence_none in E. apply E.
    exists pre, inner, post. reflexivity.
Qed.

(** X13: a fenced block wins.  When no backquote stands before the
    block or inside it, the candidate payload is the content of the
    block, whatever follows the closing fence, braces and further blocks
    included, and the analysis is what [json.loads] makes of the
    content. *)
Theorem fenced_block_is_extracted (pre inner post : pystr)
    (Hpre : ~ In backtick pre)
    (Hinner : ~ In backtick inner) :
  json_str (pre ++ fence_open ++ inner ++ fence_close ++ post) = inner
  /\ analyze_try (Text (pre ++ fence_open ++ inner ++ fence_close ++ post))
     = Json.loads inner.
Proof.
  pose proof (json_str_fenced_block pre inner post Hpre Hinner) as H.
  split; [exact H|]. unfold analyze_try. rewrite H. reflexivity.
Qed.

Lemma fenced_block_is_extracted_witness :
  json_str fenced_object_reply = flagged_object
  /\ analyze_try (Text fenced_object_reply) = Json.loads flagged_object.
Proof.
  apply (fenced_block_is_extracted (lit "Analysis:" ++ [nl]) flagged_object
           (lit " The braces {} here are ignored.")).
  - apply not_In_existsb. reflexivity.
  - apply not_In_existsb. reflexivity.
Defined.

Example flagged_object_loads : Json.loads flagged_object = inr flagged_analysis.
Proof. reflexivity. Qed.

(** ** The messages of [json.loads] *)

Lemma str_ok_app (s t : pystr) :
  str_ok (s ++ t) = str_ok s && str_ok t.
Proof. apply forallb_app. Qed.

Lemma to_digits_ok (n : N) : str_ok (Num.to_digits n) = true.
Proof.
  destruct (to_digits_spec n) as (d & t & -> & Hdig & _).
  apply forallb_forall. intros c Hc. rewrite Forall_forall in Hdig.
  specialize (Hdig c Hc). unfold Num.is_digit in Hdig.
  apply andb_true_iff in Hdig. destruct Hdig as [_ H].
  apply N.leb_le in H. apply N.leb_le. lia.
Qed.

Lemma scanstring_message (begin : pystr) (n : nat) :
  forall s msg at_,
    length s <= n ->
    Json.scanstring begin s = Json.Err msg at_ -> str_ok msg = true.
Proof.
  induction n as [|n IH]; intros s msg at_ Hn H.
  - destruct s; [|simpl in Hn; lia]. cbn in H. injection H as <- _.
    reflexivity.
  - destruct s as [|c s1]; [cbn in H; injection H as <- _; reflexivity|].
    cbn [Json.scanstring] in H.
    break_in H; try (injection H as <- _; reflexivity).
    all: injection H as <- <-; subst.
    all: match goal with
         | E : Json.scanstring _ ?x = Json.Err _ _ |- _ =>
             apply IH in E; trivial
         end.
    all: repeat match goal with
           | E : Json.scanstring _ _ = Json.Ok _ _ |- _ => clear E
           end; cbn [length] in *; lia.
Qed.

Lemma scan_message (fuel : nat) :
  (forall s msg at_,
      Json.scan_once fuel s = Json.Err msg at_ -> str_ok msg = true)
  /\ (forall s pairs msg at_,
        Json.parse_object fuel s pairs = Json.Err msg at_ ->
        str_ok msg = true)
  /\ (forall s values msg at_,
        Json.parse_array fuel s values = Json.Err msg at_ ->
        str_ok msg = true).
Proof.
  induction fuel as [|fuel (IHs & IHo & IHa)];
    [repeat split; intros; discriminate|].
  repeat split.
  - intros s msg at_ H. cbn [Json.scan_once] in H.
    break_in H; try (injection H as <- _; reflexivity);
      try (injection H as <- <-); subst; eauto using scanstring_message.
  - intros s pairs msg at_ H. cbn [Json.parse_object] in H.
    break_in H; try (injection H as <- _; reflexivity);
      try (injection H as <- <-); subst; eauto using scanstring_message.
  - intros s values msg at_ H. cbn [Json.parse_array] in H.
    break_in H; try (injection H as <- _; reflexivity);
      try (injection H as <- <-); subst; eauto using scanstring_message.
Qed.

Lemma errmsg_ok (msg doc : pystr) (pos : nat) :
  str_ok msg = true -> str_ok (Json.errmsg msg doc pos) = true.
Proof.
  intros H. unfold Json.errmsg.
  repeat rewrite str_ok_app. rewrite H, !to_digits_ok. reflexivity.
Qed.

(** The message of a [JSONDecodeError] is a string of Unicode. *)
Lemma loads_message (s : pystr) (e : exn) :
  Json.loads s = inl e -> str_ok (exn_str e) = true.
Proof.
  intros H. pose proof (loads_genuine s) as G. rewrite H in G.
  unfold Json.loads_with in G.
  break_in G; injection G as <-; subst; cbn [exn_str Json.decode_error];
    apply errmsg_ok; try reflexivity.
  all: eapply (proj1 (scan_message _)); eauto.
Qed.

(** ** The rows of the store *)



(** ** The image data *)

Lemma b64char_bounds (n : N) :
  (n < 64)%N ->
  (43 <= Base64.b64char n)%N /\ (Base64.b64char n <= 122)%N
  /\ Base64.b64char n <> Base64.pad.
Proof.
  intros H. unfold Base64.b64char, Base64.pad.
  destruct (N.ltb_spec n 26); [lia|].
  destruct (N.ltb_spec n 52); [lia|].
  destruct (N.ltb_spec n 62); [lia|].
  destruct (N.eqb_spec n 62); lia.
Qed.

Lemma b64char_inj (n m : N) :
  (n < 64)%N -> (m < 64)%N ->
  Base64.b64char n = Base64.b64char m -> n = m.
Proof.
  intros Hn Hm. unfold Base64.b64char.
  destruct (N.ltb_spec n 26); destruct (N.ltb_spec m 26); try lia;
    destruct (N.ltb_spec n 52); destruct (N.ltb_spec m 52); try lia;
    destruct (N.ltb_spec n 62); destruct (N.ltb_spec m 62); try lia;
    destruct (N.eqb_spec n 62); destruct (N.eqb_spec m 62); lia.
Qed.

Lemma list_ind3 {A} (P : list A -> Prop) :
  P [] -> (forall a, P [a]) -> (forall a b, P [a; b]) ->
  (forall a b c l, P l -> P (a :: b :: c :: l)) ->
  forall l, P l.
Proof.
  intros H0 H1 H2 H3.
  fix IH 1.
  intros [|a [|b [|c l]]];
    [exact H0 | exact (H1 a) | exact (H2 a b) | exact (H3 a b c l (IH l))].
Qed.

Lemma sextets (a b c : N) :
  (a < 256)%N -> (b < 256)%N -> (c < 256)%N ->
  (a / 4 < 64)%N /\ (a mod 4 * 16 + b / 16 < 64)%N
  /\ (b mod 16 * 4 + c / 64 < 64)%N /\ (c mod 64 < 64)%N
  /\ (a mod 4 * 16 < 64)%N /\ (b mod 16 * 4 < 64)%N.
Proof.
  intros Ha Hb Hc.
  pose proof (N.mod_upper_bound a 4 ltac:(lia)).
  pose proof (N.mod_upper_bound b 16 ltac:(lia)).
  pose proof (N.mod_upper_bound c 64 ltac:(lia)).
  assert (a / 4 < 64)%N by (apply N.Div0.div_lt_upper_bound; lia).
  assert (b / 16 < 16)%N by (apply N.Div0.div_lt_upper_bound; lia).
  assert (c / 64 < 4)%N by (apply N.Div0.div_lt_upper_bound; lia).
  lia.
Qed.

Lemma b64encode_length (bytes : list N) :
  length (Base64.b64encode bytes) = 4 * ((length bytes + 2) / 3).
Proof.
  induction bytes as [| a | a b | a b c l IH] using list_ind3;
    try reflexivity.
  cbn [Base64.b64encode length]. rewrite IH.
  replace (S (S (S (length l))) + 2) with (length l + 2 + 1 * 3) by lia.
  rewrite Nat.div_add by discriminate. lia.
Qed.

Ltac b64_bounds :=
  repeat match goal with
    | |- Forall _ [] => constructor
    | |- Forall _ (Base64.pad :: _) => constructor; [assumption|]
    | |- Forall _ (Base64.b64char ?n :: _) =>
        constructor;
        [destruct (b64char_bounds n ltac:(assumption)) as (? & ? & _);
         split; assumption|]
    end.

Lemma b64encode_ascii (bytes : list N) :
  Forall (fun b => (b < 256)%N) bytes ->
  Forall (fun c => (43 <= c)%N /\ (c <= 122)%N) (Base64.b64encode bytes).
Proof.
  assert (Hpad : (43 <= Base64.pad)%N /\ (Base64.pad <= 122)%N)
    by (unfold Base64.pad; lia).
  induction bytes as [| a | a b | a b c l IH] using list_ind3; intros Hb.
  - constructor.
  - inversion Hb as [|? ? Ha _]; subst.
    destruct (sextets a 0 0 Ha) as (S1 & _ & _ & _ & S5 & _); try lia.
    cbn [Base64.b64encode]. b64_bounds.
  - inversion Hb as [|? ? Ha Hb']; subst.
    inversion Hb' as [|? ? Hb0 _]; subst.
    destruct (sextets a b 0 Ha Hb0) as (S1 & S2 & _ & _ & _ & S6); try lia.
    cbn [Base64.b64encode]. b64_bounds.
  - inversion Hb as [|? ? Ha Hb']; subst.
    inversion Hb' as [|? ? Hb0 Hb'']; subst.
    inversion Hb'' as [|? ? Hc Hl]; subst.
    destruct (sextets a b c Ha Hb0 Hc) as (S1 & S2 & S3 & S4 & _ & _).
    cbn [Base64.b64encode]. b64_bounds. apply IH. exact Hl.
Qed.

(** X18: the image data.  [base64.b64encode] writes four characters for
    every three bytes begun, all of them ASCII, and nothing for no byte;
    so the test [if image_data:] of [analyze_with_ai] succeeds exactly
    for an upload that holds at least one byte, and the request carries
    the image part exactly then, while [image_name] is the name of the
    upload either way. *)
Theorem image_data_shape (image : option UploadFile) (ad_copy : pystr)
    (Hbytes : forall i, image = Some i ->
                Forall (fun b => (b < 256)%N) (content i)) :
  (forall i, image = Some i ->
     image_name image = Some (filename i)
     /\ exists data,
          image_data image = Some data
          /\ length data = 4 * ((length (content i) + 2) / 3)
          /\ Forall (fun c => (c < 128)%N) data)
  /\ (truthy (image_data image) = true
      <-> exists i, image = Some i /\ content i <> [])
  /\ messages_content ad_copy (option_map content image)
     = (if truthy (image_data image)
        then match image with
             | Some i => [ImagePart (content i); TextPart ad_copy]
             | None => [TextPart ad_copy]
             end
        else [TextPart ad_copy]).
Proof.
  split; [|split].
  - intros i ->. split; [reflexivity|].
    exists (Base64.b64encode (content i)). split; [reflexivity|].
    split; [apply b64encode_length|].
    pose proof (b64encode_ascii (content i) (Hbytes i eq_refl)) as H.
    rewrite Forall_forall in *. intros c Hc. specialize (H c Hc). lia.
  - destruct image as [i|]; simpl.
    + destruct (content i) as [|a [|b [|c l]]] eqn:E; simpl;
        (split;
         [ intros H;
           first [ discriminate H
                 | exists i; split; [reflexivity | rewrite E; discriminate] ]
         | intros (i' & Hi & Hne); injection Hi as <-;
           first [reflexivity | congruence] ]).
    + split; [discriminate|]. intros (i & H & _). discriminate.
  - destruct image as [i|]; simpl; trivial.
    destruct (content i) as [|a [|b [|c l]]]; reflexivity.
Qed.

Lemma image_data_shape_witness :
  (forall i, Some empty_image = Some i ->
     image_name (Some empty_image) = Some (filename i)
     /\ exists data,
          image_data (Some empty_image) = Some data
          /\ length data = 4 * ((length (content i) + 2) / 3)
          /\ Forall (fun c => (c < 128)%N) data)
  /\ (truthy (image_data (Some empty_image)) = true
      <-> exists i, Some empty_image = Some i /\ content i <> [])
  /\ messages_content (lit "Cures everything")
       (option_map content (Some empty_image))
     = (if truthy (image_data (Some empty_image))
        then match Some empty_image with
             | Some i => [ImagePart (content i);
                          TextPart (lit "Cures everything")]
             | None => [TextPart (lit "Cures everything")]
             end
        else [TextPart (lit "Cures everything")]).
Proof.
  apply (image_data_shape (Some empty_image) (lit "Cures everything")).
  intros i [= <-]. constructor.
Defined.

Lemma quad_inj (a b c x y z : N) :
  (a < 256)%N -> (b < 256)%N -> (c < 256)%N ->
  (x < 256)%N -> (y < 256)%N -> (z < 256)%N ->
  (a / 4 = x / 4)%N ->
  (a mod 4 * 16 + b / 16 = x mod 4 * 16 + y / 16)%N ->
  (b mod 16 * 4 + c / 64 = y mod 16 * 4 + z / 64)%N ->
  (c mod 64 = z mod 64)%N ->
  a = x /\ b = y /\ c = z.
Proof.
  intros Ha Hb Hc Hx Hy Hz E1 E2 E3 E4.
  pose proof (N.div_mod a 4 ltac:(lia)).
  pose proof (N.div_mod b 16 ltac:(lia)).
  pose proof (N.div_mod c 64 ltac:(lia)).
  pose proof (N.div_mod x 4 ltac:(lia)).
  pose proof (N.div_mod y 16 ltac:(lia)).
  pose proof (N.div_mod z 64 ltac:(lia)).
  pose proof (N.mod_upper_bound a 4 ltac:(lia)).
  pose proof (N.mod_upper_bound b 16 ltac:(lia)).
  pose proof (N.mod_upper_bound c 64 ltac:(lia)).
  pose proof (N.mod_upper_bound x 4 ltac:(lia)).
  pose proof (N.mod_upper_bound y 16 ltac:(lia)).
  pose proof (N.mod_upper_bound z 64 ltac:(lia)).
  assert (b / 16 < 16)%N by (apply N.Div0.div_lt_upper_bound; lia).
  assert (y / 16 < 16)%N by (apply N.Div0.div_lt_upper_bound; lia).
  assert (c / 64 < 4)%N by (apply N.Div0.div_lt_upper_bound; lia).
  assert (z / 64 < 4)%N by (apply N.Div0.div_lt_upper_bound; lia).
  generalize dependent (a / 4)%N. generalize dependent (a mod 4)%N.
  generalize dependent (b / 16)%N. generalize dependent (b mod 16)%N.
  generalize dependent (c / 64)%N. generalize dependent (c mod 64)%N.
  generalize dependent (x / 4)%N. generalize dependent (x mod 4)%N.
  generalize dependent (y / 16)%N. generalize dependent (y mod 16)%N.
  generalize dependent (z / 64)%N. generalize dependent (z mod 64)%N.
  intros. lia.
Qed.

Ltac bytes_of H :=
  repeat match type of H with
    | Forall _ (_ :: _) =>
        let Hx := fresh "Hbyte" in
        let Hl := fresh "Hrest" in
        inversion H as [|? ? Hx Hl]; subst; clear H; rename Hl into H
    end.

Ltac pad_clash :=
  exfalso;
  match goal with
  | E : Base64.pad = Base64.b64char ?n |- _ =>
      destruct (b64char_bounds n ltac:(assumption)) as (_ & _ & Hne);
      apply Hne; symmetry; exact E
  | E : Base64.b64char ?n = Base64.pad |- _ =>
      destruct (b64char_bounds n ltac:(assumption)) as (_ & _ & Hne);
      apply Hne; exact E
  end.

Ltac chars_eq :=
  repeat match goal with
    | E : Base64.b64char ?n = Base64.b64char ?m |- _ =>
        apply b64char_inj in E; [|assumption|assumption]
    end.

Lemma b64encode_inj (a : list N) :
  forall b,
    Forall (fun x => (x < 256)%N) a ->
    Forall (fun x => (x < 256)%N) b ->
    Base64.b64encode a = Base64.b64encode b -> a = b.
Proof.
  induction a as [| a1 | a1 a2 | a1 a2 a3 l IH] using list_ind3;
    intros [|x [|y [|z m]]] Ha Hb Heq; cbn [Base64.b64encode] in Heq;
    try discriminate; try reflexivity; bytes_of Ha; bytes_of Hb.
  - destruct (sextets a1 0 0) as (? & _ & _ & _ & ? & _); try lia.
    destruct (sextets x 0 0) as (? & _ & _ & _ & ? & _); try lia.
    injection Heq as E1 E2. chars_eq.
    destruct (quad_inj a1 0 0 x 0 0) as (-> & _); try lia; trivial.
  - destruct (sextets x y 0) as (? & ? & _ & _ & _ & ?); try lia.
    injection Heq as E1 E2 E3. pad_clash.
  - destruct (sextets x y z) as (? & ? & ? & ? & _ & _); try lia.
    injection Heq as E1 E2 E3 E4. pad_clash.
  - destruct (sextets a1 a2 0) as (? & ? & _ & _ & _ & ?); try lia.
    injection Heq as E1 E2 E3. pad_clash.
  - destruct (sextets a1 a2 0) as (? & ? & _ & _ & _ & ?); try lia.
    destruct (sextets x y 0) as (? & ? & _ & _ & _ & ?); try lia.
    injection Heq as E1 E2 E3. chars_eq.
    destruct (quad_inj a1 a2 0 x y 0) as (-> & -> & _); try lia; trivial.
  - destruct (sextets x y z) as (? & ? & ? & ? & _ & _); try lia.
    injection Heq as E1 E2 E3 E4. pad_clash.
  - destruct (sextets a1 a2 a3) as (? & ? & ? & ? & _ & _); try lia.
    injection Heq as E1 E2 E3 E4. pad_clash.
  - destruct (sextets a1 a2 a3) as (? & ? & ? & ? & _ & _); try lia.
    injection Heq as E1 E2 E3 E4. pad_clash.
  - destruct (sextets a1 a2 a3) as (? & ? & ? & ? & _ & _); try lia.
    destruct (sextets x y z) as (? & ? & ? & ? & _ & _); try lia.
    injection Heq as E1 E2 E3 E4 E5. chars_eq.
    destruct (quad_inj a1 a2 a3 x y z) as (-> & -> & ->); trivial.
    f_equal. f_equal. f_equal. apply IH; assumption.
Qed.

(** X19: the image data determines the image.  Two uploads whose
    [image_data] agree hold the same bytes. *)
Theorem image_data_injective (i j : UploadFile)
    (Hi : Forall (fun b => (b < 256)%N) (content i))
    (Hj : Forall (fun b => (b < 256)%N) (content j))
    (Hdata : image_data (Some i) = image_data (Some j)) :
  content i = content j.
Proof.
  injection Hdata as H. exact (b64encode_inj _ _ Hi Hj H).
Qed.

Lemma image_data_injective_witness : content sample_image = content renamed_image.
Proof.
  apply (image_data_injective sample_image renamed_image).
  - repeat constructor.
  - repeat constructor.
  - reflexivity.
Defined.

Example b64encode_samples :
  Base64.b64encode [255; 216; 255]%N = lit "/9j/"
  /\ Base64.b64encode [77; 97]%N = lit "TWE="
  /\ Base64.b64encode [77]%N = lit "TQ=="
  /\ Base64.b64encode [0; 16; 131; 16; 81; 135; 32; 146; 139; 48; 211; 143;
                       65; 20; 147; 81; 85; 151; 97; 150; 155; 113; 215; 159;
                       130; 24; 163; 146; 89; 167; 162; 154; 171; 178; 219;
                       175; 195; 28; 179; 211; 93; 183; 227; 158; 187; 243;
                       223; 191]%N
     = lit "ABCDEFGHIJKLMNOPQRSTUVWXYZabcdefghijklmnopqrstuvwxyz0123456789+/".
Proof. repeat split. Qed.

(** ** The degraded result in the store *)

(** X15: a scan whose analysis failed reads back.  When the remote call
    raises, or the candidate payload is not valid JSON, [POST /scan]
    stores the degraded result, and [GET /scan/{scan_id}] for the id of
    the response answers 200 with the posted [ad_copy], score 50, level
    MEDIUM, the violation "Analysis Error" with the message of the
    exception, and the fixed recommendation. *)
Theorem degraded_scan_reads_back (isprintable : codepoint -> bool)
    (w : world) (now : Z) (remote : outcome) (form : scan_form)
    (ad_copy : pystr) (e : exn)
    (Htable : table_ok isprintable)
    (Had : form_value (form_ad_copy form) = Some ad_copy)
    (Hfail : analyze_try remote = inl e)
    (Hmsg : forall e', remote = Raised e' -> str_ok (exn_str e') = true) :
  exists w' scan_id details,
    post_scan isprintable w now remote form
    = (w', Status200 (degraded_response scan_id e))
    /\ get_scan w' scan_id = Status200 details
    /\ ScanDetails.scan_id details = scan_id
    /\ ScanDetails.ad_copy details = ad_copy
    /\ ScanDetails.compliance_score details = PyInt 50
    /\ ScanDetails.risk_level details = PyStr (lit "MEDIUM")
    /\ ScanDetails.violations details = PyList [PyDict (degraded_violation e)]
    /\ ScanDetails.recommendations details
       = PyList [PyStr (lit "Please try again or contact support")]
    /\ ScanDetails.created_at details = now.
Proof.
  assert (Hs : str_ok (exn_str e) = true).
  { destruct remote as [response_text | e0]; simpl in Hfail.
    - apply (loads_message _ _ Hfail).
    - injection Hfail as <-. apply Hmsg. reflexivity. }
  assert (Ha : analyze_with_ai remote = fallback e)
    by (unfold analyze_with_ai; rewrite Hfail; reflexivity).
  rewrite (post_scan_accepted _ _ _ _ _ _ Had).
  rewrite (scan_ad_stores isprintable w now remote ad_copy (posted_user form)
             (form_image form) (PyInt 50) (PyStr (lit "MEDIUM"))
             (PyList [PyDict (degraded_violation e)])
             (PyList [PyStr (lit "Please try again or contact support")]))
    by (rewrite Ha; reflexivity).
  rewrite Ha. cbn [fst snd].
  eexists _, (next_id (db w)), _. split; [reflexivity|]. split.
  - eapply get_scan_found.
    + cbn [db].
      match goal with
      | |- first_by_id (_ ++ [?row]) _ = _ =>
          apply (first_by_id_new (db w) row)
      end.
      apply next_id_fresh.
    + cbn [ScanResult.violations Repr.str].
      apply literal_eval_repr; trivial.
      cbn [literal_ok forallb degraded_violation fst snd map unique_keys].
      rewrite str_ok_app, Hs. reflexivity.
    + cbn [ScanResult.recommendations Repr.str].
      apply literal_eval_repr; trivial.
  - repeat split.
Qed.

Lemma degraded_scan_reads_back_witness :
  exists w' scan_id details,
    post_scan ascii_only sample_world 400 (Text (lit "I cannot help with that."))
      sample_form
    = (w', Status200
             (degraded_response scan_id
                {| exn_class := JSONDecodeError;
                   exn_str := lit "Expecting value: line 1 column 1 (char 0)" |}))
    /\ get_scan w' scan_id = Status200 details
    /\ ScanDetails.scan_id details = scan_id
    /\ ScanDetails.ad_copy details = lit "Cures everything"
    /\ ScanDetails.compliance_score details = PyInt 50
    /\ ScanDetails.risk_level details = PyStr (lit "MEDIUM")
    /\ ScanDetails.violations details
       = PyList
           [PyDict
              (degraded_violation
                 {| exn_class := JSONDecodeError;
                    exn_str :=
                      lit "Expecting value: line 1 column 1 (char 0)" |})]
    /\ ScanDetails.recommendations details
       = PyList [PyStr (lit "Please try again or contact support")]
    /\ ScanDetails.created_at details = 400%Z.
Proof.
  apply (degraded_scan_reads_back ascii_only sample_world 400
           (Text (lit "I cannot help with that.")) sample_form
           (lit "Cures everything")).
  - intros c _ _. reflexivity.
  - reflexivity.
  - reflexivity.
  - intros e' H. discriminate H.
Defined.

(** ** Results free of floats *)


(** ** The record of a failed analysis *)

Lemma scan_ad_degraded (isprintable : codepoint -> bool) (w : world)
    (now : Z) (remote : outcome) (e : exn) (ad_copy user_id : pystr)
    (image : option UploadFile) :
  analyze_with_ai remote = fallback e ->
  scan_ad isprintable w now remote ad_copy user_id image
  = ({| db := db w
              ++ [ {| ScanResult.id := next_id (db w);
                      ScanResult.user_id := user_id;
                      ScanResult.ad_copy := ad_copy;
                      ScanResult.image_name := option_map filename image;
                      ScanResult.compliance_score := PyInt 50;
                      ScanResult.risk_level := PyStr (lit "MEDIUM");
                      ScanResult.violations :=
                        Repr.str isprintable
                          (PyList [PyDict (degraded_violation e)]);
                      ScanResult.recommendations :=
                        Repr.str isprintable
                          (PyList
                             [PyStr
                                (lit "Please try again or contact support")]);
                      ScanResult.created_at := now |} ];
        calls := calls w
                 ++ [messages_content ad_copy (option_map content image)] |},
     inr (degraded_response (next_id (db w)) e)).
Proof. intros H. unfold scan_ad. rewrite H. reflexivity. Qed.

(** C4: when the remote classifier call raises, [POST /scan] (with a
    non-empty [ad_copy]) still answers 200 and stores one new row for
    the scan, which [first()] finds under the id of the response.  The
    row is the record of the degraded result: the next id, the posted
    [user_id] (["anonymous"] when the field is missing or empty), the
    posted [ad_copy], the name of the upload, score 50, level MEDIUM,
    the texts [str] writes for the one violation and the one
    recommendation, and the clock value.  The body is the degraded
    result: score 50, level MEDIUM, the single violation "Analysis
    Error" / MEDIUM / empty snippet / "System Error", the one fixed
    recommendation and the fixed summary. *)
Theorem remote_failure_degrades (isprintable : codepoint -> bool) (w : world)
    (now : Z) (e : exn) (form : scan_form) (ad_copy : pystr)
    (Had : form_value (form_ad_copy form) = Some ad_copy) :
  exists w' row,
    post_scan isprintable w now (Raised e) form
    = (w', Status200 (degraded_response (ScanResult.id row) e))
    /\ db w' = db w ++ [row]
    /\ row
       = {| ScanResult.id := next_id (db w);
            ScanResult.user_id := posted_user form;
            ScanResult.ad_copy := ad_copy;
            ScanResult.image_name := option_map filename (form_image form);
            ScanResult.compliance_score := PyInt 50;
            ScanResult.risk_level := PyStr (lit "MEDIUM");
            ScanResult.violations :=
              Repr.str isprintable (PyList [PyDict (degraded_violation e)]);
            ScanResult.recommendations :=
              Repr.str isprintable
                (PyList [PyStr (lit "Please try again or contact support")]);
            ScanResult.created_at := now |}
    /\ first_by_id (db w') (ScanResult.id row) = Some row
    /\ calls w' = calls w ++ [classifier_request ad_copy form]
    /\ ScanResult.ad_copy row = ad_copy
    /\ ScanResult.created_at row = now
    /\ ScanResponse.compliance_score (degraded_response (ScanResult.id row) e)
       = Dec false 50 0
    /\ ScanResponse.risk_level (degraded_response (ScanResult.id row) e)
       = lit "MEDIUM"
    /\ ScanResponse.violations (degraded_response (ScanResult.id row) e)
       = [ [ (lit "category", PyStr (lit "Analysis Error"));
             (lit "severity", PyStr (lit "MEDIUM"));
             (lit "issue",
               PyStr (lit "Could not complete analysis: " ++ exn_str e));
             (lit "text_snippet", PyStr []);
             (lit "policy_reference", PyStr (lit "System Error")) ] ]
    /\ ScanResponse.recommendations (degraded_response (ScanResult.id row) e)
       = [lit "Please try again or contact support"]
    /\ ScanResponse.summary (degraded_response (ScanResult.id row) e)
       = lit "Analysis could not be completed due to technical error".
Proof.
  rewrite (post_scan_accepted _ _ _ _ _ _ Had).
  rewrite (scan_ad_degraded isprintable w now (Raised e) e ad_copy
             (posted_user form) (form_image form) eq_refl).
  cbn [fst snd respond].
  eexists _,
    {| ScanResult.id := next_id (db w);
       ScanResult.user_id := posted_user form;
       ScanResult.ad_copy := ad_copy;
       ScanResult.image_name := option_map filename (form_image form);
       ScanResult.compliance_score := PyInt 50;
       ScanResult.risk_level := PyStr (lit "MEDIUM");
       ScanResult.violations :=
         Repr.str isprintable (PyList [PyDict (degraded_violation e)]);
       ScanResult.recommendations :=
         Repr.str isprintable
           (PyList [PyStr (lit "Please try again or contact support")]);
       ScanResult.created_at := now |}.
  split; [reflexivity|]. split; [reflexivity|].
  split; [reflexivity|]. split.
  - cbn [db ScanResult.id].
    match goal with
    | |- first_by_id (_ ++ [?row]) _ = _ =>
        apply (first_by_id_new (db w) row)
    end.
    apply next_id_fresh.
  - repeat split.
Qed.

Lemma remote_failure_degrades_witness :
  exists w' row,
    post_scan ascii_only sample_world 400 (Raised transport_error)
      (form_of (Some (lit "Lose 30 pounds in 2 weeks!")) None)
    = (w', Status200 (degraded_response (ScanResult.id row) transport_error))
    /\ db w' = db sample_world ++ [row]
    /\ row
       = {| ScanResult.id := next_id (db sample_world);
            ScanResult.user_id :=
              posted_user
                (form_of (Some (lit "Lose 30 pounds in 2 weeks!")) None);
            ScanResult.ad_copy := lit "Lose 30 pounds in 2 weeks!";
            ScanResult.image_name :=
              option_map filename
                (form_image
                   (form_of (Some (lit "Lose 30 pounds in 2 weeks!")) None));
            ScanResult.compliance_score := PyInt 50;
            ScanResult.risk_level := PyStr (lit "MEDIUM");
            ScanResult.violations :=
              Repr.str ascii_only
                (PyList [PyDict (degraded_violation transport_error)]);
            ScanResult.recommendations :=
              Repr.str ascii_only
                (PyList [PyStr (lit "Please try again or contact support")]);
            ScanResult.created_at := 400 |}
    /\ first_by_id (db w') (ScanResult.id row) = Some row
    /\ calls w'
       = calls sample_world
         ++ [classifier_request (lit "Lose 30 pounds in 2 weeks!")
               (form_of (Some (lit "Lose 30 pounds in 2 weeks!")) None)]
    /\ ScanResult.ad_copy row = lit "Lose 30 pounds in 2 weeks!"
    /\ ScanResult.created_at row = 400%Z
    /\ ScanResponse.compliance_score
         (degraded_response (ScanResult.id row) transport_error)
       = Dec false 50 0
    /\ ScanResponse.risk_level
         (degraded_response (ScanResult.id row) transport_error)
       = lit "MEDIUM"
    /\ ScanResponse.violations
         (degraded_response (ScanResult.id row) transport_error)
       = [ [ (lit "category", PyStr (lit "Analysis Error"));
             (lit "severity", PyStr (lit "MEDIUM"));
             (lit "issue",
               PyStr (lit "Could not complete analysis: "
                        ++ exn_str transport_error));
             (lit "text_snippet", PyStr []);
             (lit "policy_reference", PyStr (lit "System Error")) ] ]
    /\ ScanResponse.recommendations
         (degraded_response (ScanResult.id row) transport_error)
       = [lit "Please try again or contact support"]
    /\ ScanResponse.summary
         (degraded_response (ScanResult.id row) transport_error)
       = lit "Analysis could not be completed due to technical error".
Proof.
  apply (remote_failure_degrades ascii_only sample_world 400 transport_error
           (form_of (Some (lit "Lose 30 pounds in 2 weeks!")) None)
           (lit "Lose 30 pounds in 2 weeks!")).
  reflexivity.
Defined.
